(** * A splay tree of chat sessions (splayTree.c): model and verification

    The C program keeps chat sessions in a pointer-based splay tree whose
    nodes carry parent links.  The model below keeps the pointers: a node
    lives at an address of a finite store, [NULL] is [None], and every C
    function is a computation in a small state-and-failure monad over the
    store and the [SplayTree] header.  Loops take a fuel argument; running out
    of fuel and dereferencing a pointer that is not allocated both give
    [None]. *)

From Stdlib Require Import ZArith String Ascii List Lia.
From Stdlib Require Import Sorting.Permutation Sorting.Sorted.
From stdpp Require Import gmap strings sorting.

Local Open Scope Z_scope.

(** ** Constants *)

Definition MAX_ID_LEN : nat := 64.
Definition MAX_TITLE_LEN : nat := 256.
Definition MAX_CHATS : nat := 100.

(** The [int] of [tree->size]: 32 bits, two's complement. *)
Definition INT_MAX : Z := 2147483647.
Definition wrap_int (z : Z) : Z := (z + 2147483648) mod 4294967296 - 2147483648.

(** ** C strings

    A C string is the sequence of characters before its terminator, so it is
    modelled by a [string].  [strcmp] compares unsigned character codes and,
    on a common prefix, lengths; only the sign of its result is specified. *)

Definition strcmp (a b : string) : Z :=
  match String.compare a b with
  | Eq => 0
  | Lt => -1
  | Gt => 1
  end.

(** [strncpy (dst, src, n)] into a buffer of more than [n] bytes whose byte
    [n] is zero (the buffers come from [calloc] and byte [n] is never
    written): the first [n] characters of [src], the rest of the first [n]
    bytes being padded with zeros. *)
Fixpoint strncpy (src : string) (n : nat) : string :=
  match n, src with
  | S n, String c rest => String c (strncpy rest n)
  | _, _ => EmptyString
  end.

(** ** Data structures *)

Definition addr := positive.
Abbreviation ptr := (option addr).

Record ChatNode := mkNode {
  chat_id : string;
  title : string;
  timestamp : Z;
  left : ptr;
  right : ptr;
  parent : ptr
}.

Record SplayTree := mkTree {
  root : ptr;
  size : Z
}.

Record state := mkState {
  mem : gmap addr ChatNode;
  tree : SplayTree
}.

Definition with_chat_id (v : string) (n : ChatNode) : ChatNode :=
  mkNode v (title n) (timestamp n) (left n) (right n) (parent n).
Definition with_title (v : string) (n : ChatNode) : ChatNode :=
  mkNode (chat_id n) v (timestamp n) (left n) (right n) (parent n).
Definition with_timestamp (v : Z) (n : ChatNode) : ChatNode :=
  mkNode (chat_id n) (title n) v (left n) (right n) (parent n).
Definition with_left (v : ptr) (n : ChatNode) : ChatNode :=
  mkNode (chat_id n) (title n) (timestamp n) v (right n) (parent n).
Definition with_right (v : ptr) (n : ChatNode) : ChatNode :=
  mkNode (chat_id n) (title n) (timestamp n) (left n) v (parent n).
Definition with_parent (v : ptr) (n : ChatNode) : ChatNode :=
  mkNode (chat_id n) (title n) (timestamp n) (left n) (right n) v.

(** ** The monad of the program: state and failure *)

Definition M (A : Type) : Type := state → option (A * state).

Definition ret {A} (a : A) : M A := λ s, Some (a, s).
Definition fail {A} : M A := λ _, None.
Definition bind {A B} (m : M A) (k : A → M B) : M B :=
  λ s, match m s with
       | Some (a, s') => k a s'
       | None => None
       end.

Declare Scope prog_scope.
Delimit Scope prog_scope with prog.
Notation "'let*' x := m 'in' k" := (bind m (λ x, k))
  (at level 10, x name, m at level 100, k at level 200) : prog_scope.
Notation "m ;; k" := (bind m (λ _, k))
  (at level 100, k at level 200, right associativity) : prog_scope.
Local Open Scope prog_scope.

(** [p->field] *)
Definition get {A} (field : ChatNode → A) (p : addr) : M A :=
  λ s, match mem s !! p with
       | Some n => Some (field n, s)
       | None => None
       end.

(** [p->field = v], as a function on the node at [p] *)
Definition update (f : ChatNode → ChatNode) (p : addr) : M unit :=
  λ s, match mem s !! p with
       | Some n => Some (tt, mkState (<[p := f n]> (mem s)) (tree s))
       | None => None
       end.

Definition set_left (p : addr) (v : ptr) : M unit := update (with_left v) p.
Definition set_right (p : addr) (v : ptr) : M unit := update (with_right v) p.
Definition set_parent (p : addr) (v : ptr) : M unit := update (with_parent v) p.

Definition get_root : M ptr := λ s, Some (root (tree s), s).
Definition get_size : M Z := λ s, Some (size (tree s), s).
Definition set_root (v : ptr) : M unit :=
  λ s, Some (tt, mkState (mem s) (mkTree v (size (tree s)))).
Definition set_size (v : Z) : M unit :=
  λ s, Some (tt, mkState (mem s) (mkTree (root (tree s)) v)).

(** [calloc] of a node: an address that is not allocated, zero-filled. *)
Definition calloc_node : M addr :=
  λ s, let a := fresh (dom (mem s)) in
       Some (a, mkState (<[a := mkNode EmptyString EmptyString 0 None None None]> (mem s)) (tree s)).

Definition free (p : addr) : M unit :=
  λ s, match mem s !! p with
       | Some _ => Some (tt, mkState (delete p (mem s)) (tree s))
       | None => None
       end.

(** ** Splay tree operations *)

Definition create_node (id title : string) (timestamp : Z) : M addr :=
  let* node := calloc_node in
  update (with_chat_id (strncpy id (MAX_ID_LEN - 1))) node;;
  update (with_title (strncpy title (MAX_TITLE_LEN - 1))) node;;
  update (with_timestamp timestamp) node;;
  set_left node None;; set_right node None;; set_parent node None;;
  ret node.

Definition create_splay_tree : state := mkState ∅ (mkTree None 0).

Definition rotate_right (x : addr) : M unit :=
  let* y := get left x in
  match y with
  | None => ret tt
  | Some y =>
      let* yr := get right y in
      set_left x yr;;
      match yr with
      | Some c => set_parent c (Some x)
      | None => ret tt
      end;;
      let* xp := get parent x in
      set_parent y xp;;
      match xp with
      | None => set_root (Some y)
      | Some p =>
          let* pl := get left p in
          if decide (Some x = pl) then set_left p (Some y) else set_right p (Some y)
      end;;
      set_right y (Some x);;
      set_parent x (Some y)
  end.

Definition rotate_left (x : addr) : M unit :=
  let* y := get right x in
  match y with
  | None => ret tt
  | Some y =>
      let* yl := get left y in
      set_right x yl;;
      match yl with
      | Some c => set_parent c (Some x)
      | None => ret tt
      end;;
      let* xp := get parent x in
      set_parent y xp;;
      match xp with
      | None => set_root (Some y)
      | Some p =>
          let* pl := get left p in
          if decide (Some x = pl) then set_left p (Some y) else set_right p (Some y)
      end;;
      set_left y (Some x);;
      set_parent x (Some y)
  end.

(** One iteration of the loop of [splay], for [x] with parent [p]. *)
Definition splay_step (x p : addr) : M unit :=
  let* g := get parent p in
  match g with
  | None =>
      let* pl := get left p in
      if decide (Some x = pl) then rotate_right p else rotate_left p
  | Some g =>
      let* pl := get left p in
      let* pr := get right p in
      let* gl := get left g in
      let* gr := get right g in
      if decide (Some x = pl ∧ Some p = gl) then
        rotate_right g;; rotate_right p
      else if decide (Some x = pr ∧ Some p = gr) then
        rotate_left g;; rotate_left p
      else if decide (Some x = pr ∧ Some p = gl) then
        rotate_left p;; rotate_right g
      else
        rotate_right p;; rotate_left g
  end.

Fixpoint splay_loop (fuel : nat) (x : addr) : M unit :=
  match fuel with
  | O => fail
  | S fuel =>
      let* xp := get parent x in
      match xp with
      | None => ret tt
      | Some p => splay_step x p;; splay_loop fuel x
      end
  end.

Definition splay (fuel : nat) (x : ptr) : M unit :=
  match x with
  | None => ret tt
  | Some x => splay_loop fuel x
  end.

Fixpoint find_loop (fuel : nat) (id : string) (curr : ptr) : M ptr :=
  match fuel with
  | O => fail
  | S fuel =>
      match curr with
      | None => ret None
      | Some c =>
          let* k := get chat_id c in
          let cmp := strcmp id k in
          if cmp =? 0 then ret (Some c)
          else if cmp <? 0 then let* l := get left c in find_loop fuel id l
          else let* r := get right c in find_loop fuel id r
      end
  end.

Definition find_node (fuel : nat) (id : string) : M ptr :=
  let* curr := get_root in
  find_loop fuel id curr.

(** The descent of [insert_chat].  [inl c]: the function returned [c] from
    inside the loop (the key was found and updated); [inr parent]: the loop
    ended at a null link below [parent]. *)
Fixpoint insert_loop (fuel0 fuel : nat) (id title : string) (timestamp : Z)
    (new_node : addr) (curr parent : ptr) : M (addr + ptr) :=
  match fuel with
  | O => fail
  | S fuel =>
      match curr with
      | None => ret (inr parent)
      | Some c =>
          let* k := get chat_id c in
          let cmp := strcmp id k in
          if cmp =? 0 then
            update (with_title (strncpy title (MAX_TITLE_LEN - 1))) c;;
            update (with_timestamp timestamp) c;;
            free new_node;;
            splay fuel0 (Some c);;
            ret (inl c)
          else if cmp <? 0 then
            let* l := get left c in
            insert_loop fuel0 fuel id title timestamp new_node l (Some c)
          else
            let* r := get right c in
            insert_loop fuel0 fuel id title timestamp new_node r (Some c)
      end
  end.

Definition insert_chat (fuel : nat) (id title : string) (timestamp : Z) : M addr :=
  let* new_node := create_node id title timestamp in
  let* rt := get_root in
  match rt with
  | None =>
      set_root (Some new_node);;
      set_size 1;;
      ret new_node
  | Some _ =>
      let* d := insert_loop fuel fuel id title timestamp new_node rt None in
      match d with
      | inl c => ret c
      | inr parent =>
          set_parent new_node parent;;
          match parent with
          | None => fail
          | Some p =>
              let* pk := get chat_id p in
              if strcmp id pk <? 0 then set_left p (Some new_node)
              else set_right p (Some new_node)
          end;;
          let* sz := get_size in
          set_size (wrap_int (sz + 1));;
          splay fuel (Some new_node);;
          ret new_node
      end
  end.

Definition access_chat (fuel : nat) (id : string) : M ptr :=
  let* node := find_node fuel id in
  match node with
  | Some _ => splay fuel node
  | None => ret tt
  end;;
  ret node.

Fixpoint find_min (fuel : nat) (node : ptr) : M ptr :=
  match fuel with
  | O => fail
  | S fuel =>
      match node with
      | None => ret None
      | Some n =>
          let* l := get left n in
          match l with
          | None => ret node
          | Some _ => find_min fuel l
          end
      end
  end.

(** The loop of [delete_chat] that walks to the maximum of the left subtree. *)
Fixpoint max_left_loop (fuel : nat) (max_left : addr) : M addr :=
  match fuel with
  | O => fail
  | S fuel =>
      let* r := get right max_left in
      match r with
      | None => ret max_left
      | Some r => max_left_loop fuel r
      end
  end.

(** The two-children branch of [delete_chat], up to and including
    [splay(tree, max_left)] ... *)
Definition delete_detach (fuel : nat) (left_subtree right_subtree : addr) : M addr :=
  set_parent left_subtree None;;
  set_parent right_subtree None;;
  let* max_left := max_left_loop fuel left_subtree in
  set_root (Some left_subtree);;
  splay fuel (Some max_left);;
  ret max_left.

(** ... and its last two assignments. *)
Definition delete_attach (right_subtree : addr) : M unit :=
  let* rt := get_root in
  match rt with
  | None => fail
  | Some r => set_right r (Some right_subtree)
  end;;
  let* rt := get_root in
  set_parent right_subtree rt.

(** [if (tree->root) tree->root->parent = NULL;] *)
Definition clear_root_parent : M unit :=
  let* rt := get_root in
  match rt with
  | Some r => set_parent r None
  | None => ret tt
  end.

Definition delete_chat (fuel : nat) (id : string) : M Z :=
  let* node := find_node fuel id in
  match node with
  | None => ret 0
  | Some node =>
      splay fuel (Some node);;
      let* nl := get left node in
      let* nr := get right node in
      match nl, nr with
      | None, _ => set_root nr;; clear_root_parent
      | Some _, None => set_root nl;; clear_root_parent
      | Some l, Some r => delete_detach fuel l r;; delete_attach r
      end;;
      free node;;
      let* sz := get_size in
      set_size (wrap_int (sz - 1));;
      ret 1
  end.

Fixpoint clear_tree (fuel : nat) (node : ptr) : M unit :=
  match fuel with
  | O => fail
  | S fuel =>
      match node with
      | None => ret tt
      | Some n =>
          let* l := get left n in
          clear_tree fuel l;;
          let* r := get right n in
          clear_tree fuel r;;
          free n
      end
  end.

Definition clear_all (fuel : nat) : M unit :=
  let* rt := get_root in
  clear_tree fuel rt;;
  set_root None;;
  set_size 0.

(** ** Traversal and collection *)

(** [ChatList]: the array [nodes] with its [count] is the list of the
    pointers stored so far. *)
Definition ChatList := list addr.
Definition count (l : ChatList) : nat := length l.

Fixpoint collect_inorder (fuel : nat) (node : ptr) (list : ChatList) : M ChatList :=
  match fuel with
  | O => fail
  | S fuel =>
      match node with
      | None => ret list
      | Some n =>
          if (MAX_CHATS <=? count list)%nat then ret list
          else
            let* l := get left n in
            let* list := collect_inorder fuel l list in
            let list := if (count list <? MAX_CHATS)%nat then list ++ [n] else list in
            let* r := get right n in
            collect_inorder fuel r list
      end
  end.

Definition compare_by_timestamp (na nb : ChatNode) : Z :=
  if timestamp nb >? timestamp na then 1
  else if timestamp nb <? timestamp na then -1
  else 0.

(** ** The C library's [qsort]

    [qsort] is not code of the program.  The C standard makes it leave the
    array as a permutation in ascending order of the comparator and leaves
    open the order of elements that compare equal.  The model follows glibc:
    for an array of fewer than 1024 bytes (the 100 pointers of a [ChatList]
    take 800) its [qsort] is the merge sort [msort_with_tmp]: the array is cut
    in two at [n / 2], both parts are sorted, and the merge takes the element
    of the first part whenever the comparator gives at most 0. *)

(** The merge loop of [msort_with_tmp]: [b1] and [b2] are the two sorted
    runs; what is left of one when the other is used up is copied behind. *)
Fixpoint msort_merge {A} (cmp : A → A → Z) (b1 : list A) : list A → list A :=
  fix from_b2 (b2 : list A) : list A :=
    match b1, b2 with
    | [], _ => b2
    | _, [] => b1
    | x1 :: b1', x2 :: b2' =>
        if cmp x1 x2 <=? 0 then x1 :: msort_merge cmp b1' b2
        else x2 :: from_b2 b2'
    end.

(** [fuel] bounds the depth of the recursion; the length of the array is
    enough. *)
Fixpoint msort_with_tmp {A} (fuel : nat) (cmp : A → A → Z) (b : list A) : list A :=
  match fuel with
  | O => b
  | S fuel =>
      if (length b <=? 1)%nat then b
      else
        let n1 := (length b / 2)%nat in
        msort_merge cmp (msort_with_tmp fuel cmp (take n1 b))
                        (msort_with_tmp fuel cmp (drop n1 b))
  end.

Definition qsort {A} (cmp : A → A → Z) (base : list A) : list A :=
  msort_with_tmp (length base) cmp base.

(** ** JSON persistence of titles *)

Definition quote_char : ascii := Ascii.ascii_of_nat 34.
Definition backslash_char : ascii := Ascii.ascii_of_nat 92.
Definition newline_char : ascii := Ascii.ascii_of_nat 10.
Definition return_char : ascii := Ascii.ascii_of_nat 13.
Definition n_char : ascii := Ascii.ascii_of_nat 110.

(** The loop of [json_escape]; [j] is the write index into [out]. *)
Fixpoint json_escape_loop (str : string) (j max_len : Z) : string :=
  match str with
  | EmptyString => EmptyString
  | String c rest =>
      if j <? max_len - 2 then
        let pre := if Ascii.eqb c quote_char || Ascii.eqb c backslash_char
                   then String backslash_char EmptyString else EmptyString in
        let body := if Ascii.eqb c newline_char then String backslash_char (String n_char EmptyString)
                    else if Ascii.eqb c return_char then EmptyString
                    else String c EmptyString in
        let w := (pre ++ body)%string in
        (w ++ json_escape_loop rest (j + Z.of_nat (String.length w)) max_len)%string
      else EmptyString
  end.

Definition json_escape (str : string) (max_len : Z) : string :=
  json_escape_loop str 0 max_len.

(** The title loop of [load_from_file]: [p] is the text from [title_ptr] on,
    [i] the number of characters stored in [title] so far. *)
Fixpoint load_title (p : string) (i : nat) : string :=
  match p with
  | EmptyString => EmptyString
  | String c rest =>
      if (i <? MAX_TITLE_LEN - 1)%nat then
        match rest with
        | String c' rest' =>
            if Ascii.eqb c backslash_char && Ascii.eqb c' quote_char then
              String quote_char (load_title rest' (S i))
            else if Ascii.eqb c backslash_char && Ascii.eqb c' n_char then
              String newline_char (load_title rest' (S i))
            else if Ascii.eqb c quote_char then EmptyString
            else String c (load_title rest (S i))
        | EmptyString =>
            if Ascii.eqb c quote_char then EmptyString
            else String c (load_title rest (S i))
        end
      else EmptyString
  end.

(** ** Sequences of operations, listing and persistence, as [main] uses them *)

(** The two mutating commands, [add] and [delete]. *)
Inductive op :=
| Insert (id title : string) (timestamp : Z)
| Delete (id : string).

Definition run_op (fuel : nat) (o : op) : M unit :=
  match o with
  | Insert id title timestamp => insert_chat fuel id title timestamp;; ret tt
  | Delete id => delete_chat fuel id;; ret tt
  end.

Fixpoint run_ops (fuel : nat) (ops : list op) : M unit :=
  match ops with
  | [] => ret tt
  | o :: ops => run_op fuel o;; run_ops fuel ops
  end.

(** The keys of the collected nodes, [list.nodes[i]->chat_id]. *)
Fixpoint read_keys (h : gmap addr ChatNode) (nodes : ChatList) : option (list string) :=
  match nodes with
  | [] => Some []
  | p :: rest =>
      match h !! p, read_keys h rest with
      | Some n, Some ks => Some (chat_id n :: ks)
      | _, _ => None
      end
  end.

(** The keys that [save_to_file] and [output_list] read after
    [collect_inorder (tree->root, &list)]. *)
Definition collect_keys (fuel : nat) : M (list string) :=
  let* rt := get_root in
  let* nodes := collect_inorder fuel rt [] in
  λ s, match read_keys (mem s) nodes with
       | Some ks => Some (ks, s)
       | None => None
       end.

(** The nodes behind the collected pointers. *)
Fixpoint read_nodes (h : gmap addr ChatNode) (nodes : ChatList) : option (list ChatNode) :=
  match nodes with
  | [] => Some []
  | p :: rest =>
      match h !! p, read_nodes h rest with
      | Some n, Some ns => Some (n :: ns)
      | _, _ => None
      end
  end.

(** The array [list.nodes] of [output_list] before it is sorted. *)
Definition collected_nodes (fuel : nat) (s : state) : option (list ChatNode) :=
  match collect_inorder fuel (root (tree s)) [] s with
  | Some (nodes, _) => read_nodes (mem s) nodes
  | None => None
  end.

(** The text that [save_to_file] writes after a title: the closing quote and
    the rest of the record. *)
Definition after_title (rest : string) : string := String quote_char rest.

(** What [load_from_file] reads back for a title that [save_to_file] wrote. *)
Definition reload_title (t rest : string) : string :=
  load_title (json_escape t (2 * Z.of_nat MAX_TITLE_LEN) ++ after_title rest) 0.

(** The key and the title of the root node. *)
Definition root_key (s : state) : option string :=
  match root (tree s) with
  | Some rt => chat_id <$> mem s !! rt
  | None => None
  end.

Definition root_title (s : state) : option string :=
  match root (tree s) with
  | Some rt => title <$> mem s !! rt
  | None => None
  end.

(** ** The C library: [strstr], [atol], [printf]

    [load_from_file] walks over the file with [strstr] and [atol], and the
    output functions print with [%s], [%d] and [%ld]. *)

(** [strstr (hay, needle)]: the text from the first occurrence of [needle]
    on, [None] for [NULL]. *)
Fixpoint strstr (hay needle : string) : option string :=
  if String.prefix needle hay then Some hay
  else match hay with
       | EmptyString => None
       | String _ rest => strstr rest needle
       end.

(** [ptr += n], for a pointer with at least [n] characters before the
    terminator. *)
Fixpoint advance (n : nat) (p : string) : string :=
  match n, p with
  | S n, String _ rest => advance n rest
  | _, _ => p
  end.

(** A [long] of 64 bits. *)
Definition LONG_MAX : Z := 9223372036854775807.
Definition LONG_MIN : Z := -9223372036854775808.

(** [isspace] in the C locale: the space and the characters 9 to 13. *)
Definition isspace (c : ascii) : bool :=
  let n := Ascii.N_of_ascii c in ((n =? 32) || ((9 <=? n) && (n <=? 13)))%N.

Definition digit_of (c : ascii) : option Z :=
  let n := Z.of_N (Ascii.N_of_ascii c) in
  if (48 <=? n) && (n <=? 57) then Some (n - 48) else None.

Fixpoint skip_spaces (p : string) : string :=
  match p with
  | String c rest => if isspace c then skip_spaces rest else p
  | EmptyString => p
  end.

Fixpoint atol_digits (p : string) (acc : Z) : Z :=
  match p with
  | String c rest =>
      match digit_of c with
      | Some d => atol_digits rest (10 * acc + d)
      | None => acc
      end
  | EmptyString => acc
  end.

Definition minus_char : ascii := Ascii.ascii_of_nat 45.
Definition plus_char : ascii := Ascii.ascii_of_nat 43.

(** [atol]: white space, an optional sign, decimal digits.  The value is
    0 when no digit follows; when it does not fit a [long] the behaviour is
    undefined, which is [None]. *)
Definition atol (p : string) : option Z :=
  let p := skip_spaces p in
  let v := match p with
           | String c rest =>
               if Ascii.eqb c minus_char then - atol_digits rest 0
               else if Ascii.eqb c plus_char then atol_digits rest 0
               else atol_digits p 0
           | EmptyString => 0
           end in
  if (LONG_MIN <=? v) && (v <=? LONG_MAX) then Some v else None.

(** [%ld] and [%d] of [printf]: the decimal digits, after a minus sign for a
    negative number.  A [long] has at most 19 digits. *)
Definition digit_char (d : Z) : ascii := Ascii.ascii_of_N (Z.to_N (48 + d)).

Fixpoint print_digits (n : nat) (z : Z) (acc : string) : string :=
  match n with
  | O => acc
  | S n =>
      let acc := String (digit_char (z mod 10)) acc in
      if z <? 10 then acc else print_digits n (z / 10) acc
  end.

Definition print_long (z : Z) : string :=
  if z <? 0 then String minus_char (print_digits 19 (- z) EmptyString)
  else print_digits 19 z EmptyString.

(** ** The texts of the history file and of the output *)

Definition quote : string := String quote_char EmptyString.

(** The three texts that [load_from_file] searches for: the names of the
    fields between quotes, followed by a colon and, for the id and the title,
    by the quote that opens the value. *)
Definition id_tag : string :=
  Eval vm_compute in (quote ++ "id" ++ quote ++ ":" ++ quote)%string.
Definition title_tag : string :=
  Eval vm_compute in (quote ++ "title" ++ quote ++ ":" ++ quote)%string.
Definition timestamp_tag : string :=
  Eval vm_compute in (quote ++ "timestamp" ++ quote ++ ":")%string.

(** The record of a chat, as [save_to_file], [output_list] and [output_chat]
    print it; [escaped_title] has [MAX_TITLE_LEN * 2] bytes. *)
Definition chat_text (n : ChatNode) : string :=
  ("{" ++ id_tag ++ chat_id n ++ quote ++ "," ++
   title_tag ++ json_escape (title n) (2 * Z.of_nat MAX_TITLE_LEN) ++ quote ++ "," ++
   timestamp_tag ++ print_long (timestamp n) ++ "}")%string.

(** The loop over [list.nodes] of [save_to_file] and [output_list]; [i] is
    the index of the first node of [nodes]. *)
Fixpoint chats_text (i : nat) (nodes : list ChatNode) : string :=
  match nodes with
  | [] => EmptyString
  | n :: rest =>
      ((if (0 <? i)%nat then "," else "") ++ chat_text n ++ chats_text (S i) rest)%string
  end.

Definition file_text (nodes : list ChatNode) : string :=
  ("{" ++ quote ++ "chats" ++ quote ++ ":[" ++ chats_text 0 nodes ++ "]}")%string.

(** ** The history file *)

(** [history]: what [fopen (HISTORY_FILE, r)] and [fread] deliver, [None]
    when the file cannot be opened; [writable]: whether
    [fopen (HISTORY_FILE, w)] succeeds. *)
Record disk := mkDisk {
  history : option string;
  writable : bool
}.

(** [list.nodes[i]->...]: the nodes behind the collected pointers. *)
Definition read_list (nodes : ChatList) : M (list ChatNode) :=
  λ s, match read_nodes (mem s) nodes with
       | Some ns => Some (ns, s)
       | None => None
       end.

Definition save_to_file (fuel : nat) (d : disk) : M disk :=
  if writable d then
    let* rt := get_root in
    let* nodes := collect_inorder fuel rt [] in
    let* ns := read_list nodes in
    ret (mkDisk (Some (file_text ns)) (writable d))
  else ret d.

(** [fread (buffer, 1, sizeof (buffer) - 1, f)] and the terminator after it:
    the first 65535 bytes of the file, as far as the string functions see
    them, that is up to the first zero byte. *)
Fixpoint take_bytes (n : Z) (text : string) : string :=
  match text with
  | EmptyString => EmptyString
  | String c rest => if n <=? 0 then EmptyString else String c (take_bytes (n - 1) rest)
  end.

Fixpoint c_str (bytes : string) : string :=
  match bytes with
  | EmptyString => EmptyString
  | String c rest => if Ascii.eqb c Ascii.zero then EmptyString else String c (c_str rest)
  end.

Definition buffer_of (text : string) : string := c_str (take_bytes 65535 text).

(** The loop that copies the id: the id and the pointer after it; [i] is
    the number of characters stored in [id] so far. *)
Fixpoint read_id (p : string) (i : nat) : string * string :=
  match p with
  | EmptyString => (EmptyString, p)
  | String c rest =>
      if negb (Ascii.eqb c quote_char) && (i <? MAX_ID_LEN - 1)%nat then
        let (id, p') := read_id rest (S i) in (String c id, p')
      else (EmptyString, p)
  end.

(** The loop of [load_from_file] over the chat objects of the buffer; a
    [break] and the end of the loop both return. *)
Fixpoint load_loop (fuel0 fuel : nat) (ptr : string) : M unit :=
  match fuel with
  | O => fail
  | S fuel =>
      match strstr ptr id_tag with
      | None => ret tt
      | Some ptr =>
          let ptr := advance 6 ptr in
          let (id, ptr) := read_id ptr 0 in
          match strstr ptr title_tag with
          | None => ret tt
          | Some title_ptr =>
              let title_ptr := advance 9 title_ptr in
              let title := load_title title_ptr 0 in
              match strstr ptr timestamp_tag with
              | None => ret tt
              | Some ts_ptr =>
                  let ts_ptr := advance 12 ts_ptr in
                  match atol ts_ptr with
                  | None => fail
                  | Some timestamp =>
                      insert_chat fuel0 id title timestamp;;
                      load_loop fuel0 fuel ts_ptr
                  end
              end
          end
      end
  end.

Definition load_from_file (fuel : nat) (d : disk) : M unit :=
  match history d with
  | None => ret tt
  | Some text => load_loop fuel fuel (buffer_of text)
  end.

(** ** Output *)

(** The two texts of [output_chat]. *)
Definition not_found_text : string :=
  ("{" ++ quote ++ "success" ++ quote ++ ":false," ++ quote ++ "error" ++ quote ++ ":" ++
   quote ++ "Chat not found" ++ quote ++ "}")%string.

Definition found_text (n : ChatNode) : string :=
  ("{" ++ quote ++ "success" ++ quote ++ ":true," ++ quote ++ "chat" ++ quote ++ ":" ++
   chat_text n ++ "}")%string.

Definition output_chat (node : ptr) : M string :=
  match node with
  | None => ret not_found_text
  | Some x => let* n := get (λ n, n) x in ret (found_text n)
  end.

Definition output_success (message : string) : string :=
  ("{" ++ quote ++ "success" ++ quote ++ ":true," ++ quote ++ "message" ++ quote ++ ":" ++
   quote ++ message ++ quote ++ "}")%string.

Definition output_error (error : string) : string :=
  ("{" ++ quote ++ "success" ++ quote ++ ":false," ++ quote ++ "error" ++ quote ++ ":" ++
   quote ++ error ++ quote ++ "}")%string.

(** What [output_list] prints for the sorted array [nodes]. *)
Definition list_text (nodes : list ChatNode) : string :=
  ("{" ++ quote ++ "success" ++ quote ++ ":true," ++ quote ++ "count" ++ quote ++ ":" ++
   print_long (Z.of_nat (length nodes)) ++ "," ++ quote ++ "chats" ++ quote ++ ":[" ++
   chats_text 0 nodes ++ "]}")%string.

(** [qsort] stands for what the C library's [qsort] does to [list.nodes]
    with [compare_by_timestamp]. *)
Definition output_list (qsort : list ChatNode → list ChatNode) (fuel : nat) : M string :=
  let* rt := get_root in
  let* nodes := collect_inorder fuel rt [] in
  let* ns := read_list nodes in
  ret (list_text (qsort ns)).

(** ** [main] *)

Definition usage_text : string :=
  ("{" ++ quote ++ "success" ++ quote ++ ":false," ++ quote ++ "error" ++ quote ++ ":" ++
   quote ++ "Usage: splayTree <command> [args]" ++ quote ++ "}")%string.

(** [argv[i]] *)
Definition arg (argv : list string) (i : nat) : string := nth i argv EmptyString.

(** The command of [main], after [load_from_file] and before the cleanup:
    what is printed and the history file afterwards.  [now] is the value of
    [time (NULL)]. *)
Definition run_command (qsort : list ChatNode → list ChatNode) (fuel : nat)
    (argv : list string) (now : Z) (d : disk) : M (string * disk) :=
  let argc := length argv in
  let cmd := arg argv 1 in
  if (strcmp cmd "add" =? 0) && (4 <=? argc)%nat then
    match (if (5 <=? argc)%nat then atol (arg argv 4) else Some now) with
    | None => fail
    | Some timestamp =>
        let* node := insert_chat fuel (arg argv 2) (arg argv 3) timestamp in
        let* d := save_to_file fuel d in
        let* out := output_chat (Some node) in
        ret (out, d)
    end
  else if (strcmp cmd "access" =? 0) && (3 <=? argc)%nat then
    let* node := access_chat fuel (arg argv 2) in
    let* d := save_to_file fuel d in
    let* out := output_chat node in
    ret (out, d)
  else if strcmp cmd "list" =? 0 then
    let* out := output_list qsort fuel in
    ret (out, d)
  else if (strcmp cmd "delete" =? 0) && (3 <=? argc)%nat then
    let* deleted := delete_chat fuel (arg argv 2) in
    if deleted =? 0 then ret (output_error "Chat not found", d)
    else
      let* d := save_to_file fuel d in
      ret (output_success "Chat deleted", d)
  else if strcmp cmd "clear" =? 0 then
    clear_all fuel;;
    let* d := save_to_file fuel d in
    ret (output_success "All chats cleared", d)
  else ret (output_error "Unknown command or missing arguments", d).

(** A run of the program: the exit code, the output, the history file and
    the nodes still allocated when it ends. *)
Record outcome := mkOutcome {
  exit_code : Z;
  stdout : string;
  disk_after : disk;
  heap_after : gmap addr ChatNode
}.

(** [main (argc, argv)], [argv] having [argc] elements.  The tree header
    that [create_splay_tree] allocates and the last line frees is the
    [tree] of the state. *)
Definition main (qsort : list ChatNode → list ChatNode) (fuel : nat)
    (argv : list string) (now : Z) (d : disk) : option outcome :=
  if (length argv <? 2)%nat then Some (mkOutcome 1 usage_text d ∅)
  else
    match (load_from_file fuel d;;
           let* r := run_command qsort fuel argv now d in
           clear_all fuel;;
           ret r) create_splay_tree with
    | Some ((out, d'), s) => Some (mkOutcome 0 out d' (mem s))
    | None => None
    end.

(** * Specification *)

(** ** The shape of a store: binary trees of addresses

    A [shape] is the tree that the links of a store draw; each of its nodes
    names the address of a [ChatNode] and the data stored there. *)

Record data := mkData { d_id : string; d_title : string; d_ts : Z }.

Definition data_of (n : ChatNode) : data :=
  mkData (chat_id n) (title n) (timestamp n).

Inductive shape :=
| Leaf
| Node (l : shape) (a : addr) (d : data) (r : shape).

Fixpoint entries (t : shape) : list (addr * data) :=
  match t with
  | Leaf => []
  | Node l a d r => entries l ++ (a, d) :: entries r
  end.

Definition addrs (t : shape) : list addr := map fst (entries t).
Definition keys (t : shape) : list string := map (λ e, d_id (snd e)) (entries t).

Definition root_of (t : shape) : ptr :=
  match t with
  | Leaf => None
  | Node _ a _ _ => Some a
  end.

Fixpoint height (t : shape) : nat :=
  match t with
  | Leaf => O
  | Node l _ _ r => S (Nat.max (height l) (height r))
  end.

(** [wf h par t]: in the store [h] the links below a node whose parent link
    is [par] draw the tree [t]. *)
Fixpoint wf (h : gmap addr ChatNode) (par : ptr) (t : shape) : Prop :=
  match t with
  | Leaf => True
  | Node l a d r =>
      ∃ n, h !! a = Some n ∧ data_of n = d ∧ parent n = par ∧
           left n = root_of l ∧ right n = root_of r ∧
           wf h (Some a) l ∧ wf h (Some a) r
  end.

(** Contexts: the path from a subtree up to the root, innermost frame first. *)
Inductive dir := DL | DR.

Record frame := mkFrame {
  f_dir : dir;      (* the side of the hole *)
  f_addr : addr;
  f_data : data;
  f_sib : shape     (* the subtree on the other side *)
}.

Definition fill (f : frame) (t : shape) : shape :=
  match f_dir f with
  | DL => Node t (f_addr f) (f_data f) (f_sib f)
  | DR => Node (f_sib f) (f_addr f) (f_data f) t
  end.

Fixpoint plug (c : list frame) (t : shape) : shape :=
  match c with
  | [] => t
  | f :: c => plug c (fill f t)
  end.

Definition ctx_parent (c : list frame) : ptr :=
  match c with
  | [] => None
  | f :: _ => Some (f_addr f)
  end.

Fixpoint ctx_root (c : list frame) (hole : ptr) : ptr :=
  match c with
  | [] => hole
  | f :: c => ctx_root c (Some (f_addr f))
  end.

Fixpoint ctx_addrs (c : list frame) : list addr :=
  match c with
  | [] => []
  | f :: c => f_addr f :: addrs (f_sib f) ++ ctx_addrs c
  end.

(** Entries of the whole tree to the left and to the right of the hole. *)
Fixpoint before (c : list frame) : list (addr * data) :=
  match c with
  | [] => []
  | f :: c =>
      match f_dir f with
      | DL => before c
      | DR => before c ++ entries (f_sib f) ++ [(f_addr f, f_data f)]
      end
  end.

Fixpoint after (c : list frame) : list (addr * data) :=
  match c with
  | [] => []
  | f :: c =>
      match f_dir f with
      | DL => (f_addr f, f_data f) :: entries (f_sib f) ++ after c
      | DR => after c
      end
  end.

Fixpoint wfctx (h : gmap addr ChatNode) (c : list frame) (hole : ptr) : Prop :=
  match c with
  | [] => True
  | f :: c' =>
      ∃ n, h !! f_addr f = Some n ∧ data_of n = f_data f ∧ parent n = ctx_parent c' ∧
           match f_dir f with
           | DL => left n = hole ∧ right n = root_of (f_sib f)
           | DR => left n = root_of (f_sib f) ∧ right n = hole
           end ∧
           wf h (Some (f_addr f)) (f_sib f) ∧ wfctx h c' (Some (f_addr f))
  end.

(** The store and header of [s] hold the tree [t]. *)
Definition wf_state (s : state) (t : shape) : Prop :=
  root (tree s) = root_of t ∧ wf (mem s) None t ∧ NoDup (addrs t).

(** ** Search trees *)

(** The strict order of the keys: [strcmp (a, b) < 0]. *)
Definition slt (a b : string) : Prop := strcmp a b < 0.

Definition key_of (e : addr * data) : string := d_id (snd e).

(** The binary search tree property: the in-order keys ascend strictly. *)
Definition sorted (t : shape) : Prop := StronglySorted slt (keys t).

(** All keys on the left of the hole are below [k], all on the right above. *)
Definition bounds (c : list frame) (k : string) : Prop :=
  Forall (λ e, slt (key_of e) k) (before c) ∧ Forall (λ e, slt k (key_of e)) (after c).

(** The descent of [find_node] and [insert_chat], on shapes. *)
Fixpoint locate (k : string) (c : list frame) (t : shape) : list frame * shape :=
  match t with
  | Leaf => (c, Leaf)
  | Node l a d r =>
      if strcmp k (d_id d) =? 0 then (c, t)
      else if strcmp k (d_id d) <? 0 then locate k (mkFrame DL a d r :: c) l
      else locate k (mkFrame DR a d l :: c) r
  end.

(** What the field types allow: [char chat_id[64]], [char title[256]]. *)
Definition data_ok (d : data) : Prop :=
  (String.length (d_id d) < MAX_ID_LEN)%nat ∧
  (String.length (d_title d) < MAX_TITLE_LEN)%nat.

(** [tree_inv s t]: the state [s] holds the binary search tree [t], and
    [tree->size] counts its nodes. *)
Record tree_inv (s : state) (t : shape) : Prop := mkInv {
  inv_wf : wf_state s t;
  inv_sorted : sorted t;
  inv_size : size (tree s) = Z.of_nat (length (entries t));
  inv_range : size (tree s) ≤ INT_MAX;
  inv_data : Forall (λ e, data_ok (snd e)) (entries t)
}.

(** What [create_node] stores for the arguments of [insert_chat]. *)
Definition stored (id title : string) (timestamp : Z) : data :=
  mkData (strncpy id (MAX_ID_LEN - 1)) (strncpy title (MAX_TITLE_LEN - 1)) timestamp.

(** An operation whose key fits the field [chat_id]. *)
Definition short_key (o : op) : Prop :=
  match o with
  | Insert id _ _ => (String.length id < MAX_ID_LEN)%nat
  | Delete _ => True
  end.

(** ** The listing and the titles of the specification *)

(** The stable sort by timestamp descending that the specification describes:
    a node goes before the first node that is not newer than it. *)
Fixpoint insert_by_timestamp (n : ChatNode) (l : list ChatNode) : list ChatNode :=
  match l with
  | [] => [n]
  | m :: l' =>
      if timestamp m <=? timestamp n then n :: l
      else m :: insert_by_timestamp n l'
  end.

Definition stable_sort_by_timestamp (l : list ChatNode) : list ChatNode :=
  foldr insert_by_timestamp [] l.

(** [a] may be listed before [b]: it is not older. *)
Definition newer_first (a b : ChatNode) : Prop := timestamp b ≤ timestamp a.


(** A title without its carriage returns. *)
Fixpoint drop_returns (t : string) : string :=
  match t with
  | EmptyString => EmptyString
  | String c t' =>
      if Ascii.eqb c return_char then drop_returns t' else String c (drop_returns t')
  end.

(** A title in which no backslash occurs. *)
Fixpoint no_backslash (t : string) : Prop :=
  match t with
  | EmptyString => True
  | String c t' => c ≠ backslash_char ∧ no_backslash t'
  end.

(** ** The tree as a finite map, and the heap *)

(** What a lookup of [id] gives: the data of the node that [find_node]
    returns. *)
Definition lookup_chat (fuel : nat) (id : string) : M (option data) :=
  let* node := find_node fuel id in
  match node with
  | None => ret None
  | Some x => let* d := get data_of x in ret (Some d)
  end.

(** The data of the first entry with the key [k]. *)
Fixpoint assoc (k : string) (es : list (addr * data)) : option data :=
  match es with
  | [] => None
  | e :: es => if decide (key_of e = k) then Some (snd e) else assoc k es
  end.

(** No node is allocated outside the tree. *)
Definition heap_exact (s : state) (t : shape) : Prop :=
  ∀ q, is_Some (mem s !! q) → q ∈ addrs t.

(** Programs that allocate and free nothing, and programs that allocate
    nothing. *)
Definition keeps_dom {A} (m : M A) : Prop :=
  ∀ s a s', m s = Some (a, s') → dom (mem s') = dom (mem s).

Definition shrinks_dom {A} (m : M A) : Prop :=
  ∀ s a s', m s = Some (a, s') → dom (mem s') ⊆ dom (mem s).

(** ** Texts that can be loaded *)

(** [lacks x s]: the character [x] does not occur in [s]. *)
Fixpoint lacks (x : ascii) (s : string) : Prop :=
  match s with
  | EmptyString => True
  | String c rest => c ≠ x ∧ lacks x rest
  end.

(** Every numeral of the text fits a [long]: [atol] is defined at every
    place of the text. *)
Fixpoint numerals_ok (text : string) : bool :=
  match atol text with
  | Some _ =>
      match text with
      | EmptyString => true
      | String _ rest => numerals_ok rest
      end
  | None => false
  end.

Definition numerals_fit (text : string) : Prop := numerals_ok text = true.

(** The size of the history file, 0 when there is none. *)
Definition file_size (d : disk) : nat :=
  match history d with
  | Some text => String.length text
  | None => O
  end.

Definition file_fits (d : disk) : Prop :=
  ∀ text, history d = Some text → numerals_fit (buffer_of text).

(** The entries that [load_from_file] reads back as [save_to_file] wrote
    them: the id and the title are C strings (no zero byte), with no quote
    in the id and no backslash in the title, and the timestamp is a [long]. *)
Definition readable (d : data) : Prop :=
  lacks zero (d_id d) ∧ lacks quote_char (d_id d) ∧
  lacks zero (d_title d) ∧ no_backslash (d_title d) ∧
  LONG_MIN ≤ d_ts d ≤ LONG_MAX.

(** What is read back, the carriage returns of the title being dropped. *)
Definition reloaded (d : data) : data :=
  mkData (d_id d) (drop_returns (d_title d)) (d_ts d).

(** ** Example states *)

Fixpoint replicate_char (n : nat) (c : ascii) : string :=
  match n with
  | O => EmptyString
  | S n => String c (replicate_char n c)
  end.

(** A key of 64 characters, one more than [chat_id] holds. *)
Definition key64 : string := replicate_char 64 "k".
(** A title of 256 characters, one more than [title] holds. *)
Definition title256 : string := replicate_char 256 "t".

(** A tree of three sessions: the key b at the root, a and c below it. *)
Definition demo_state : state :=
  mkState
    (<[1%positive := mkNode "b" "Recipe Ideas" 200 (Some 2%positive) (Some 3%positive) None]>
       (<[2%positive := mkNode "a" "Trip Planning" 100 None None (Some 1%positive)]>
          (<[3%positive := mkNode "c" "Code Review" 150 None None (Some 1%positive)]> ∅)))
    (mkTree (Some 1%positive) 3).

Definition demo_tree : shape :=
  Node (Node Leaf 2%positive (mkData "a" "Trip Planning" 100) Leaf)
       1%positive (mkData "b" "Recipe Ideas" 200)
       (Node Leaf 3%positive (mkData "c" "Code Review" 150) Leaf).

(** A hundred and one sessions with the keys of one character of codes 33 to
    133, inserted in ascending order. *)
Definition many_ops : list op :=
  map (λ i, Insert (String (Ascii.ascii_of_nat (33 + i)) EmptyString) "t" (Z.of_nat i))
      (seq 0 101).

(** A tree of five sessions: the key d at the root, below it b, with the
    children a and c, and e; two pairs of sessions share a timestamp. *)
Definition five_state : state :=
  mkState
    (<[1%positive := mkNode "d" "Recipe Ideas" 200 (Some 2%positive) (Some 5%positive) None]>
    (<[2%positive := mkNode "b" "Trip Planning" 200 (Some 3%positive) (Some 4%positive) (Some 1%positive)]>
    (<[3%positive := mkNode "a" "Code Review" 100 None None (Some 2%positive)]>
    (<[4%positive := mkNode "c" "Shopping" 100 None None (Some 2%positive)]>
    (<[5%positive := mkNode "e" "Reading" 150 None None (Some 1%positive)]> ∅)))))
    (mkTree (Some 1%positive) 5).

Definition five_tree : shape :=
  Node (Node (Node Leaf 3%positive (mkData "a" "Code Review" 100) Leaf)
             2%positive (mkData "b" "Trip Planning" 200)
             (Node Leaf 4%positive (mkData "c" "Shopping" 100) Leaf))
       1%positive (mkData "d" "Recipe Ideas" 200)
       (Node Leaf 5%positive (mkData "e" "Reading" 150) Leaf).

(** The history file of the three sessions. *)
Definition demo_disk : disk :=
  mkDisk (Some (file_text [mkNode "a" "Trip Planning" 100 None None None;
                           mkNode "b" "Recipe Ideas" 200 None None None;
                           mkNode "c" "Code Review" 150 None None None])) true.

(** Three operations on the empty tree. *)
Definition demo_ops : list op :=
  [Insert "b" "Recipe Ideas" 200; Insert "a" "Trip Planning" 100; Delete "b"].

(** * Verification *)

Section Shapes.
Implicit Types (h : gmap addr ChatNode) (t l r : shape) (c : list frame).

Lemma entries_plug c t : entries (plug c t) = before c ++ entries t ++ after c.
Proof.
  revert t; induction c as [|[[] a d s] c IH]; intros t; simpl.
  - by rewrite app_nil_r.
  - rewrite IH. unfold fill; simpl. by rewrite <- !app_assoc.
  - rewrite IH. unfold fill; simpl. by rewrite <- !app_assoc.
Qed.

Lemma root_of_plug c t : root_of (plug c t) = ctx_root c (root_of t).
Proof.
  revert t; induction c as [|[[] a d s] c IH]; intros t; simpl; auto;
    rewrite IH; reflexivity.
Qed.

Lemma addrs_node l a d r : addrs (Node l a d r) = addrs l ++ a :: addrs r.
Proof. unfold addrs; simpl. by rewrite map_app. Qed.

Lemma addrs_plug c t : addrs (plug c t) ≡ₚ addrs t ++ ctx_addrs c.
Proof.
  revert t; induction c as [|[[] a d s] c IH]; intros t; simpl.
  - by rewrite app_nil_r.
  - rewrite IH. unfold fill; simpl. rewrite addrs_node.
    rewrite <- !app_assoc. simpl. reflexivity.
  - rewrite IH. unfold fill; simpl. rewrite addrs_node.
    rewrite <- !app_assoc. simpl.
    rewrite <- !Permutation_middle. constructor.
    rewrite !app_assoc. apply Permutation_app_tail, Permutation_app_comm.
Qed.

Lemma wf_plug h c t :
  wf h None (plug c t) ↔ wfctx h c (root_of t) ∧ wf h (ctx_parent c) t.
Proof.
  revert t; induction c as [|[[] a d s] c IH]; intros t; simpl.
  - tauto.
  - rewrite IH. unfold fill; simpl. split.
    + intros (Hc & n & ? & ? & ? & ? & ? & ? & ?). split; [exists n|]; tauto.
    + intros ((n & ? & ? & ? & [? ?] & ? & ?) & ?). split; [|exists n]; tauto.
  - rewrite IH. unfold fill; simpl. split.
    + intros (Hc & n & ? & ? & ? & ? & ? & ? & ?). split; [exists n|]; tauto.
    + intros ((n & ? & ? & ? & [? ?] & ? & ?) & ?). split; [|exists n]; tauto.
Qed.

(** Frame rules: a shape only depends on the nodes it names. *)
Lemma wf_ext h h' par t :
  (∀ q, q ∈ addrs t → h' !! q = h !! q) → wf h par t → wf h' par t.
Proof.
  revert par; induction t as [|l IHl a d r IHr]; intros par Hq; simpl; auto.
  intros (n & Hn & ? & ? & ? & ? & Hl & Hr).
  rewrite addrs_node in Hq.
  exists n. rewrite Hq by set_solver.
  repeat split; auto.
  - apply IHl; auto. intros q Hin. apply Hq, elem_of_app. by left.
  - apply IHr; auto. intros q Hin. apply Hq, elem_of_app. right. by apply list_elem_of_further.
Qed.

Lemma wfctx_ext h h' c hole :
  (∀ q, q ∈ ctx_addrs c → h' !! q = h !! q) → wfctx h c hole → wfctx h' c hole.
Proof.
  revert hole; induction c as [|f c IH]; intros hole Hq; simpl; auto.
  intros (n & Hn & ? & ? & ? & Hs & Hc).
  simpl in Hq.
  exists n. rewrite Hq by set_solver.
  repeat split; auto.
  - eapply wf_ext; [|exact Hs]. intros q Hin.
    apply Hq, list_elem_of_further, elem_of_app. by left.
  - apply IH; auto. intros q Hin.
    apply Hq, list_elem_of_further, elem_of_app. by right.
Qed.

(** Changing the parent link of the root of a subtree. *)
Lemma wf_reparent h h' par par' l a d r n :
  h !! a = Some n →
  h' !! a = Some (with_parent par' n) →
  (∀ q, q ∈ addrs l ++ addrs r → h' !! q = h !! q) →
  wf h par (Node l a d r) → wf h' par' (Node l a d r).
Proof.
  intros Hn Hn' Hq (n0 & Hn0 & ? & ? & ? & ? & Hl & Hr).
  assert (n0 = n) by congruence; subst n0.
  exists (with_parent par' n). repeat split; auto.
  - eapply wf_ext; [|exact Hl]. intros q Hin. apply Hq, elem_of_app. by left.
  - eapply wf_ext; [|exact Hr]. intros q Hin. apply Hq, elem_of_app. by right.
Qed.

Lemma wf_lookup h par t q :
  wf h par t → q ∈ addrs t → is_Some (h !! q).
Proof.
  revert par; induction t as [|l IHl a d r IHr]; intros par; simpl.
  - intros _ Hq. unfold addrs in Hq; simpl in Hq. set_solver.
  - intros (n & Hn & ? & ? & ? & ? & Hl & Hr). rewrite addrs_node.
    intros Hq. apply elem_of_app in Hq as [Hq|Hq]; [eauto|].
    apply elem_of_cons in Hq as [->|Hq]; eauto.
Qed.

Lemma wf_entries h par t q d :
  wf h par t → (q, d) ∈ entries t → ∃ n, h !! q = Some n ∧ data_of n = d.
Proof.
  revert par; induction t as [|l IHl a d0 r IHr]; intros par; simpl.
  - intros _ Hq. set_solver.
  - intros (n & Hn & ? & ? & ? & ? & Hl & Hr).
    intros Hq. apply elem_of_app in Hq as [Hq|Hq]; [eauto|].
    apply elem_of_cons in Hq as [Heq|Hq]; eauto.
    inversion Heq; subst. eauto.
Qed.

Lemma height_le_count t : (height t ≤ length (entries t))%nat.
Proof.
  induction t as [|l IHl a d r IHr]; simpl; auto.
  rewrite length_app; simpl. lia.
Qed.
End Shapes.

(** ** Running monadic code on a known store *)

Section Run.
Context {A B : Type}.
Implicit Types (s : state) (p : addr).

Lemma bind_ret (a : A) (k : A → M B) s : bind (ret a) k s = k a s.
Proof. reflexivity. Qed.

Lemma bind_assoc {C} (m : M A) (k : A → M B) (k' : B → M C) s :
  bind (bind m k) k' s = bind m (λ a, bind (k a) k') s.
Proof. unfold bind. destruct (m s) as [[a s']|]; reflexivity. Qed.

Lemma bind_get (f : ChatNode → A) p n (k : A → M B) s :
  mem s !! p = Some n → bind (get f p) k s = k (f n) s.
Proof. intros H. unfold bind, get. by rewrite H. Qed.

Lemma bind_update f p n (k : unit → M B) s :
  mem s !! p = Some n →
  bind (update f p) k s = k tt (mkState (<[p := f n]> (mem s)) (tree s)).
Proof. intros H. unfold bind, update. by rewrite H. Qed.

Lemma bind_set_root v (k : unit → M B) s :
  bind (set_root v) k s = k tt (mkState (mem s) (mkTree v (size (tree s)))).
Proof. reflexivity. Qed.

Lemma bind_get_root (k : ptr → M B) s : bind get_root k s = k (root (tree s)) s.
Proof. reflexivity. Qed.
End Run.

Lemma update_run f p n s :
  mem s !! p = Some n → update f p s = Some (tt, mkState (<[p := f n]> (mem s)) (tree s)).
Proof. intros H. unfold update. by rewrite H. Qed.

(** [look] solves [mem s !! p = Some ?n] for a store that is a stack of
    inserts, from the lookups and disequalities among the hypotheses. *)
Ltac look :=
  cbn [mem];
  repeat first [ rewrite lookup_insert_eq | rewrite lookup_insert_ne by congruence ];
  first [ eassumption | reflexivity ].

(** Field projections of updated nodes and states. *)
Ltac red_fields :=
  cbn beta iota delta [mem tree root size parent left right chat_id title timestamp
       with_left with_right with_parent with_title with_timestamp with_chat_id].

(** [exec] runs the next reads and writes of a program on the state of the
    goal. *)
Ltac exec1 :=
  first
    [ rewrite bind_ret
    | rewrite bind_set_root
    | rewrite bind_get_root
    | erewrite bind_get by look
    | erewrite bind_update by look
    | erewrite update_run by look
    | rewrite bind_assoc ]; red_fields.

Ltac exec := unfold set_left, set_right, set_parent; repeat exec1.

(** ** Distinct addresses

    Membership in a list built from [++] and [::], and disequality of two
    members of a list without duplicates. *)
Ltac mem_tac :=
  solve [ repeat first
    [ assumption
    | apply list_elem_of_here
    | apply elem_of_app; first [ left; mem_tac | right; mem_tac ]
    | apply list_elem_of_further ] ].

Section NoDupNe.
Context {A : Type}.
Implicit Types (l : list A) (u v : A).
Lemma ne_app_lr l1 l2 u v : NoDup (l1 ++ l2) → u ∈ l1 → v ∈ l2 → u ≠ v.
Proof. rewrite NoDup_app. intros (_ & H & _) ? ? ->. by eapply H. Qed.
Lemma ne_app_rl l1 l2 u v : NoDup (l1 ++ l2) → v ∈ l1 → u ∈ l2 → u ≠ v.
Proof. rewrite NoDup_app. intros (_ & H & _) ? ? ->. by eapply H. Qed.
Lemma ne_cons_l l u v : NoDup (u :: l) → v ∈ l → u ≠ v.
Proof. rewrite NoDup_cons. intros [H _] ? ->. done. Qed.
Lemma ne_cons_r l u v : NoDup (v :: l) → u ∈ l → u ≠ v.
Proof. rewrite NoDup_cons. intros [H _] ? ->. done. Qed.
Lemma NoDup_app_l l1 l2 : NoDup (l1 ++ l2) → NoDup l1.
Proof. rewrite NoDup_app. tauto. Qed.
Lemma NoDup_app_r l1 l2 : NoDup (l1 ++ l2) → NoDup l2.
Proof. rewrite NoDup_app. tauto. Qed.
Lemma NoDup_cons_r l u : NoDup (u :: l) → NoDup l.
Proof. rewrite NoDup_cons. tauto. Qed.
End NoDupNe.

(** Goal [u ≠ v], [H : NoDup L] with [u] and [v] at different places of [L]. *)
Ltac nd_ne_in H :=
  lazymatch type of H with
  | NoDup (?l1 ++ ?l2) =>
      first [ solve [ apply (ne_app_lr l1 l2 _ _ H); mem_tac ]
            | solve [ apply (ne_app_rl l1 l2 _ _ H); mem_tac ]
            | let H1 := fresh in pose proof (NoDup_app_l l1 l2 H) as H1; nd_ne_in H1
            | let H2 := fresh in pose proof (NoDup_app_r l1 l2 H) as H2; nd_ne_in H2 ]
  | NoDup (?x :: ?l) =>
      first [ solve [ apply (ne_cons_l l _ _ H); mem_tac ]
            | solve [ apply (ne_cons_r l _ _ H); mem_tac ]
            | let H2 := fresh in pose proof (NoDup_cons_r l x H) as H2; nd_ne_in H2 ]
  end.

Ltac nd_ne :=
  match goal with
  | H : NoDup _ |- _ ≠ _ => nd_ne_in H
  end.

Lemma notin_ne_l {A} (l : list A) u v : u ∉ l → v ∈ l → u ≠ v.
Proof. intros ? ? ->. done. Qed.
Lemma notin_ne_r {A} (l : list A) u v : v ∉ l → u ∈ l → u ≠ v.
Proof. intros ? ? ->. done. Qed.

Ltac ne_tac :=
  first [ congruence
        | nd_ne
        | match goal with
          | H : ?u ∉ ?l |- ?u ≠ _ => apply (notin_ne_l l _ _ H); mem_tac
          | H : ?v ∉ ?l |- _ ≠ ?v => apply (notin_ne_r l _ _ H); mem_tac
          end ].

(** Goal: a store of inserts at nodes of the tree agrees with the old store
    at every address of a part of the tree that was not written. *)
Ltac frame_tac :=
  let q := fresh "q" in let Hq := fresh "Hq" in
  intros q Hq; cbn [mem];
  rewrite ?lookup_insert_ne by ne_tac;
  reflexivity.

(** ** Rotations *)

Lemma entries_rot a y dy b x dx r :
  entries (Node (Node a y dy b) x dx r) = entries (Node a y dy (Node b x dx r)).
Proof. simpl. by rewrite <- app_assoc. Qed.

Lemma addrs_plug_eq c t t' : entries t = entries t' → addrs (plug c t) = addrs (plug c t').
Proof. intros H. unfold addrs. by rewrite !entries_plug, H. Qed.

Lemma addrs_leaf : addrs Leaf = [].
Proof. reflexivity. Qed.

(** [wf_solve] rebuilds [wf] and [wfctx] over the written store: the written
    nodes from their lookups, the parts that were not written by the frame
    rules. *)
Ltac wf_solve :=
  cbn [wf wfctx f_addr f_data f_dir f_sib];
  lazymatch goal with
  | |- True => exact I
  | |- ∃ _, _ =>
      eexists; split; [look|]; red_fields;
      cbn [data_of f_addr f_data f_dir f_sib root_of ctx_parent]; red_fields;
      repeat split; try first [assumption | reflexivity | congruence]; wf_solve
  | |- wf _ _ _ => eapply wf_ext; [|eassumption]; frame_tac
  | |- wfctx _ _ _ => eapply wfctx_ext; [|eassumption]; frame_tac
  | |- _ => idtac
  end.

Ltac rot_finish Hroot Hnd :=
  eexists; split; [reflexivity|]; red_fields;
  split; [split; [first [exact Hroot | reflexivity]|split; [split; wf_solve|exact Hnd]]
         |split; [reflexivity|frame_tac]].

Lemma root_of_in t q : root_of t = Some q → q ∈ addrs t.
Proof.
  destruct t; simpl; [done|]. intros [= ->]. rewrite addrs_node. mem_tac.
Qed.

Lemma root_of_ne t q : q ∉ addrs t → Some q ≠ root_of t.
Proof. intros H E. apply H, root_of_in. done. Qed.

Ltac notin_tac :=
  let H := fresh in
  intros H;
  match goal with
  | H' : ?q ∈ _ |- _ => constr_eq H H'; assert (q ≠ q) by ne_tac; done
  end.

Ltac root_ne_tac := apply root_of_ne; notin_tac.

(** [rotate_right (tree, x)] anywhere in the tree: the left child [y] of [x]
    takes the place of [x], [x] becomes its right child and takes over the
    right subtree [b] of [y].  The in-order sequence is the same, and only
    nodes of the tree are written. *)
Lemma rotate_right_spec s c a y dy b x dx r :
  wf_state s (plug c (Node (Node a y dy b) x dx r)) →
  ∃ s', rotate_right x s = Some (tt, s') ∧
        wf_state s' (plug c (Node a y dy (Node b x dx r))) ∧
        size (tree s') = size (tree s) ∧
        (∀ q, q ∉ addrs (plug c (Node (Node a y dy b) x dx r)) → mem s' !! q = mem s !! q).
Proof.
  intros (Hroot & Hwf & Hnd).
  unfold wf_state.
  rewrite <- (addrs_plug_eq c _ _ (entries_rot a y dy b x dx r)).
  setoid_rewrite wf_plug. setoid_rewrite root_of_plug.
  setoid_rewrite addrs_plug.
  apply wf_plug in Hwf as [Hc Hx]. rewrite root_of_plug in Hroot.
  rewrite addrs_plug in Hnd.
  destruct Hx as (nx & Hnx & Hdx & Hpx & Hlx & Hrx & Hy & Hr).
  destruct Hy as (ny & Hny & Hdy & Hpy & Hly & Hry & Ha & Hb).
  cbn [root_of] in Hlx.
  unfold rotate_right. exec. rewrite Hlx. exec. rewrite Hry.
  destruct b as [|bl bb db br]; cbn [root_of];
    [|destruct Hb as (nb & Hnb & Hdb & Hpb & Hlb & Hrb & Hbl & Hbr)];
    rewrite !addrs_node, ?addrs_leaf in Hnd |- *;
    assert (x ≠ y) by ne_tac;
    try assert (bb ≠ x ∧ bb ≠ y) as [? ?] by (split; ne_tac);
    exec; rewrite Hpx;
    (destruct c as [|[[] p dp sib] c']; cbn [ctx_parent f_addr];
     [|destruct Hc as (np & Hnp & Hdp & Hpp & [Hlp Hrp] & Hsib & Hc')
      |destruct Hc as (np & Hnp & Hdp & Hpp & [Hlp Hrp] & Hsib & Hc')];
     cbn [f_addr f_data f_dir f_sib root_of ctx_addrs] in *;
     try assert (p ≠ x ∧ p ≠ y) as [? ?] by (split; ne_tac);
     try assert (p ≠ bb) by ne_tac;
     exec; rewrite ?Hlp).
  - rot_finish Hroot Hnd.
  - rewrite decide_True by done. exec. rot_finish Hroot Hnd.
  - rewrite decide_False by root_ne_tac. exec. rot_finish Hroot Hnd.
  - rot_finish Hroot Hnd.
  - rewrite decide_True by done. exec. rot_finish Hroot Hnd.
  - rewrite decide_False by root_ne_tac. exec. rot_finish Hroot Hnd.
Qed.

(** [rotate_left (tree, x)], the mirror image. *)
Lemma rotate_left_spec s c a x dx b y dy r :
  wf_state s (plug c (Node a x dx (Node b y dy r))) →
  ∃ s', rotate_left x s = Some (tt, s') ∧
        wf_state s' (plug c (Node (Node a x dx b) y dy r)) ∧
        size (tree s') = size (tree s) ∧
        (∀ q, q ∉ addrs (plug c (Node a x dx (Node b y dy r))) → mem s' !! q = mem s !! q).
Proof.
  intros (Hroot & Hwf & Hnd).
  unfold wf_state.
  rewrite (addrs_plug_eq c _ _ (entries_rot a x dx b y dy r)).
  setoid_rewrite wf_plug. setoid_rewrite root_of_plug.
  setoid_rewrite addrs_plug.
  apply wf_plug in Hwf as [Hc Hx]. rewrite root_of_plug in Hroot.
  rewrite addrs_plug in Hnd.
  destruct Hx as (nx & Hnx & Hdx & Hpx & Hlx & Hrx & Ha & Hy).
  destruct Hy as (ny & Hny & Hdy & Hpy & Hly & Hry & Hb & Hr).
  cbn [root_of] in Hrx.
  unfold rotate_left. exec. rewrite Hrx. exec. rewrite Hly.
  destruct b as [|bl bb db br]; cbn [root_of];
    [|destruct Hb as (nb & Hnb & Hdb & Hpb & Hlb & Hrb & Hbl & Hbr)];
    rewrite !addrs_node, ?addrs_leaf in Hnd |- *;
    assert (x ≠ y) by ne_tac;
    try assert (bb ≠ x ∧ bb ≠ y) as [? ?] by (split; ne_tac);
    exec; rewrite Hpx;
    (destruct c as [|[[] p dp sib] c']; cbn [ctx_parent f_addr];
     [|destruct Hc as (np & Hnp & Hdp & Hpp & [Hlp Hrp] & Hsib & Hc')
      |destruct Hc as (np & Hnp & Hdp & Hpp & [Hlp Hrp] & Hsib & Hc')];
     cbn [f_addr f_data f_dir f_sib root_of ctx_addrs] in *;
     try assert (p ≠ x ∧ p ≠ y) as [? ?] by (split; ne_tac);
     try assert (p ≠ bb) by ne_tac;
     exec; rewrite ?Hlp).
  - rot_finish Hroot Hnd.
  - rewrite decide_True by done. exec. rot_finish Hroot Hnd.
  - rewrite decide_False by root_ne_tac. exec. rot_finish Hroot Hnd.
  - rot_finish Hroot Hnd.
  - rewrite decide_True by done. exec. rot_finish Hroot Hnd.
  - rewrite decide_False by root_ne_tac. exec. rot_finish Hroot Hnd.
Qed.

(** ** Splay *)

Lemma bind_run {A B} (m : M A) (k : A → M B) s a s' :
  m s = Some (a, s') → bind m k s = k a s'.
Proof. intros H. unfold bind. by rewrite H. Qed.

Lemma addrs_entries_eq t t' : entries t = entries t' → addrs t = addrs t'.
Proof. unfold addrs. by intros ->. Qed.

Ltac entries_tac :=
  rewrite ?entries_plug; cbn [plug fill f_dir f_addr f_data f_sib entries before after];
  rewrite ?entries_plug; cbn [entries];
  repeat first [ rewrite <- app_assoc | rewrite <- app_comm_cons ];
  reflexivity.

Ltac outside_tac Hq :=
  erewrite addrs_entries_eq; [exact Hq | entries_tac].

Ltac dec_false :=
  rewrite decide_False by
    (let E1 := fresh in let E2 := fresh in
     intros [E1 E2]; first [ revert E1; root_ne_tac | revert E2; root_ne_tac ]).

(** One iteration of the loop of [splay] at a node [x] that has a parent:
    zig, zig-zig or zig-zag.  [x] moves up by one or two levels, keeps its
    data, and the in-order sequence is the same. *)
Lemma splay_step_spec s f1 c l x dx r :
  wf_state s (plug (f1 :: c) (Node l x dx r)) →
  ∃ s' l' r' c',
    splay_step x (f_addr f1) s = Some (tt, s') ∧
    wf_state s' (plug c' (Node l' x dx r')) ∧
    (length c' < length (f1 :: c))%nat ∧
    entries (plug c' (Node l' x dx r')) = entries (plug (f1 :: c) (Node l x dx r)) ∧
    size (tree s') = size (tree s) ∧
    (∀ q, q ∉ addrs (plug (f1 :: c) (Node l x dx r)) → mem s' !! q = mem s !! q).
Proof.
  intros Hs. pose proof Hs as (Hroot & Hwf & Hnd).
  apply wf_plug in Hwf as [Hc Hx].
  rewrite addrs_plug in Hnd.
  destruct f1 as [d1 p dp s1].
  destruct Hc as (np & Hnp & Hdp & Hpp & Hd1 & Hs1 & Hc).
  cbn [f_addr f_data f_dir f_sib root_of ctx_addrs] in *.
  rewrite addrs_node in Hnd.
  unfold splay_step. exec. rewrite Hpp.
  destruct c as [|[d2 g dg s2] c']; cbn [ctx_parent f_addr].
  - (* zig *)
    exec. destruct d1; destruct Hd1 as [Hlp Hrp]; rewrite Hlp.
    + rewrite decide_True by done.
      destruct (rotate_right_spec s [] l x dx r p dp s1 Hs) as (s' & Hrun & Hs' & Hsz & Hfr).
      exists s', l, (Node r p dp s1), []. repeat split; try assumption; try apply Hs'.
      * cbn; lia.
      * entries_tac.
    + rewrite decide_False by root_ne_tac.
      destruct (rotate_left_spec s [] s1 p dp l x dx r Hs) as (s' & Hrun & Hs' & Hsz & Hfr).
      exists s', (Node s1 p dp l), r, []. repeat split; try assumption; try apply Hs'.
      * cbn; lia.
      * entries_tac.
  - destruct Hc as (ng & Hng & Hdg & Hpg & Hd2 & Hs2 & Hc).
    cbn [f_addr f_data f_dir f_sib root_of ctx_addrs] in *.
    exec.
    destruct d1, d2; destruct Hd1 as [Hlp Hrp]; destruct Hd2 as [Hlg Hrg];
      rewrite Hlp, Hrp, Hlg, Hrg.
    + (* x = p->left, p = g->left *)
      rewrite decide_True by done.
      destruct (rotate_right_spec s c' (Node l x dx r) p dp s1 g dg s2 Hs)
        as (s1' & Hrun1 & Hs1' & Hsz1 & Hfr1).
      destruct (rotate_right_spec s1' c' l x dx r p dp (Node s1 g dg s2) Hs1')
        as (s2' & Hrun2 & Hs2' & Hsz2 & Hfr2).
      rewrite (bind_run _ _ _ _ _ Hrun1).
      exists s2', l, (Node r p dp (Node s1 g dg s2)), c'.
      split; [exact Hrun2|]. split; [exact Hs2'|]. split; [cbn; lia|].
      split; [entries_tac|]. split; [congruence|].
      intros q Hq. rewrite Hfr2, Hfr1; [done|outside_tac Hq|outside_tac Hq].
    + (* x = p->left, p = g->right *)
      dec_false. dec_false. dec_false.
      destruct (rotate_right_spec s (mkFrame DR g dg s2 :: c') l x dx r p dp s1 Hs)
        as (s1' & Hrun1 & Hs1' & Hsz1 & Hfr1).
      destruct (rotate_left_spec s1' c' s2 g dg l x dx (Node r p dp s1) Hs1')
        as (s2' & Hrun2 & Hs2' & Hsz2 & Hfr2).
      rewrite (bind_run _ _ _ _ _ Hrun1).
      exists s2', (Node s2 g dg l), (Node r p dp s1), c'.
      split; [exact Hrun2|]. split; [exact Hs2'|]. split; [cbn; lia|].
      split; [entries_tac|]. split; [congruence|].
      intros q Hq. rewrite Hfr2, Hfr1; [done|outside_tac Hq|outside_tac Hq].
    + (* x = p->right, p = g->left *)
      dec_false. dec_false. rewrite decide_True by done.
      destruct (rotate_left_spec s (mkFrame DL g dg s2 :: c') s1 p dp l x dx r Hs)
        as (s1' & Hrun1 & Hs1' & Hsz1 & Hfr1).
      destruct (rotate_right_spec s1' c' (Node s1 p dp l) x dx r g dg s2 Hs1')
        as (s2' & Hrun2 & Hs2' & Hsz2 & Hfr2).
      rewrite (bind_run _ _ _ _ _ Hrun1).
      exists s2', (Node s1 p dp l), (Node r g dg s2), c'.
      split; [exact Hrun2|]. split; [exact Hs2'|]. split; [cbn; lia|].
      split; [entries_tac|]. split; [congruence|].
      intros q Hq. rewrite Hfr2, Hfr1; [done|outside_tac Hq|outside_tac Hq].
    + (* x = p->right, p = g->right *)
      dec_false. rewrite decide_True by done.
      destruct (rotate_left_spec s c' s2 g dg s1 p dp (Node l x dx r) Hs)
        as (s1' & Hrun1 & Hs1' & Hsz1 & Hfr1).
      destruct (rotate_left_spec s1' c' (Node s2 g dg s1) p dp l x dx r Hs1')
        as (s2' & Hrun2 & Hs2' & Hsz2 & Hfr2).
      rewrite (bind_run _ _ _ _ _ Hrun1).
      exists s2', (Node (Node s2 g dg s1) p dp l), r, c'.
      split; [exact Hrun2|]. split; [exact Hs2'|]. split; [cbn; lia|].
      split; [entries_tac|]. split; [congruence|].
      intros q Hq. rewrite Hfr2, Hfr1; [done|outside_tac Hq|outside_tac Hq].
Qed.

(** [splay (tree, x)] for a node [x] of the tree at depth [length c]: with
    fuel for its depth the loop ends with [x] at the root; the in-order
    sequence and the size are the same, and only nodes of the tree are
    written. *)
Lemma splay_loop_spec fuel : ∀ s c l x dx r,
  wf_state s (plug c (Node l x dx r)) →
  (length c < fuel)%nat →
  ∃ s' l' r',
    splay_loop fuel x s = Some (tt, s') ∧
    wf_state s' (Node l' x dx r') ∧
    entries (Node l' x dx r') = entries (plug c (Node l x dx r)) ∧
    size (tree s') = size (tree s) ∧
    (∀ q, q ∉ addrs (plug c (Node l x dx r)) → mem s' !! q = mem s !! q).
Proof.
  induction fuel as [|fuel IH]; intros s c l x dx r Hs Hlen; [lia|].
  pose proof Hs as (Hroot & Hwf & Hnd).
  apply wf_plug in Hwf as [Hc (nx & Hnx & Hdx & Hpx & _)].
  cbn [splay_loop]. exec. rewrite Hpx.
  destruct c as [|f1 c]; cbn [ctx_parent].
  - exists s, l, r. repeat split; try apply Hs. 
  - destruct (splay_step_spec s f1 c l x dx r Hs)
      as (s1 & l1 & r1 & c1 & Hrun1 & Hs1 & Hlen1 & Hent1 & Hsz1 & Hfr1).
    rewrite (bind_run _ _ _ _ _ Hrun1).
    destruct (IH s1 c1 l1 x dx r1 Hs1) as (s2 & l2 & r2 & Hrun2 & Hs2 & Hent2 & Hsz2 & Hfr2).
    { cbn [length] in *. lia. }
    exists s2, l2, r2. split; [exact Hrun2|]. split; [exact Hs2|].
    split; [congruence|]. split; [congruence|].
    intros q Hq. rewrite Hfr2, Hfr1; [done|exact Hq|].
    erewrite addrs_entries_eq; [exact Hq|exact Hent1].
Qed.

(** ** The order of [strcmp] *)

Section Strcmp.
Lemma ascii_compare_refl c : Ascii.compare c c = Eq.
Proof. unfold Ascii.compare. apply N.compare_refl. Qed.

Lemma string_compare_refl a : String.compare a a = Eq.
Proof. induction a as [|c a IH]; simpl; [done|]. by rewrite ascii_compare_refl. Qed.

Lemma ascii_compare_trans c1 c2 c3 :
  Ascii.compare c1 c2 = Lt → Ascii.compare c2 c3 = Lt → Ascii.compare c1 c3 = Lt.
Proof. unfold Ascii.compare. rewrite !N.compare_lt_iff. lia. Qed.

Lemma string_compare_trans a : ∀ b c,
  String.compare a b = Lt → String.compare b c = Lt → String.compare a c = Lt.
Proof.
  induction a as [|x a IH]; intros [|y b] [|z c]; simpl; try done.
  destruct (Ascii.compare x y) eqn:Hxy; try done;
    destruct (Ascii.compare y z) eqn:Hyz; try done; intros H1 H2.
  - apply Ascii.compare_eq_iff in Hxy, Hyz. subst. rewrite ascii_compare_refl. eauto.
  - apply Ascii.compare_eq_iff in Hxy. subst. by rewrite Hyz.
  - apply Ascii.compare_eq_iff in Hyz. subst. by rewrite Hxy.
  - by rewrite (ascii_compare_trans _ _ _ Hxy Hyz).
Qed.

Lemma strcmp_eq a b : strcmp a b = 0 ↔ a = b.
Proof.
  unfold strcmp. split.
  - destruct (String.compare a b) eqn:H; try done. intros _. by apply String.compare_eq_iff.
  - intros ->. by rewrite string_compare_refl.
Qed.

Lemma strcmp_lt a b : strcmp a b < 0 ↔ String.compare a b = Lt.
Proof. unfold strcmp. destruct (String.compare a b); split; (done || lia). Qed.

Lemma strcmp_gt a b : strcmp a b ≠ 0 → ¬ strcmp a b < 0 → slt b a.
Proof.
  unfold slt. rewrite !strcmp_lt. unfold strcmp.
  rewrite (String.compare_antisym b a).
  destruct (String.compare a b); simpl; (done || lia).
Qed.

Lemma slt_irrefl a : ¬ slt a a.
Proof. unfold slt. rewrite (proj2 (strcmp_eq a a) eq_refl). lia. Qed.

Lemma slt_trans a b c : slt a b → slt b c → slt a c.
Proof. unfold slt. rewrite !strcmp_lt. apply string_compare_trans. Qed.

Lemma slt_asym a b : slt a b → ¬ slt b a.
Proof. intros H1 H2. exact (slt_irrefl a (slt_trans _ _ _ H1 H2)). Qed.

Lemma strncpy_short src n : (String.length src ≤ n)%nat → strncpy src n = src.
Proof.
  revert n; induction src as [|c src IH]; intros [|n]; simpl; try done; try lia.
  intros H. f_equal. apply IH. lia.
Qed.

Lemma strncpy_length src n : (String.length (strncpy src n) ≤ n)%nat.
Proof.
  revert n; induction src as [|c src IH]; intros [|n]; simpl; try lia.
  specialize (IH n). lia.
Qed.
End Strcmp.

#[global] Instance slt_transitive : Transitive slt := slt_trans.

(** ** Binary search in a shape *)

Section Locate.
Implicit Types (t l r : shape) (c : list frame) (k : string).

Lemma keys_plug c t :
  keys (plug c t) = map key_of (before c) ++ keys t ++ map key_of (after c).
Proof. unfold keys. rewrite entries_plug. by rewrite !map_app. Qed.

Lemma keys_node l a d r : keys (Node l a d r) = keys l ++ d_id d :: keys r.
Proof. unfold keys; simpl. by rewrite map_app. Qed.

Lemma locate_plug k t : ∀ c, plug (locate k c t).1 (locate k c t).2 = plug c t.
Proof.
  induction t as [|l IHl a d r IHr]; intros c; simpl; [done|].
  destruct (strcmp k (d_id d) =? 0); [done|].
  destruct (strcmp k (d_id d) <? 0); [rewrite IHl|rewrite IHr]; done.
Qed.

Lemma locate_result k t c :
  (locate k c t).2 = Leaf ∨
  ∃ l a d r, (locate k c t).2 = Node l a d r ∧ d_id d = k.
Proof.
  revert c; induction t as [|l IHl a d r IHr]; intros c; simpl; [by left|].
  destruct (strcmp k (d_id d) =? 0) eqn:E.
  - right. exists l, a, d, r. split; [done|]. symmetry. apply strcmp_eq. lia.
  - destruct (strcmp k (d_id d) <? 0); auto.
Qed.

Lemma locate_length k t : ∀ c,
  (length (locate k c t).1 + length (entries (locate k c t).2)
   ≤ length c + length (entries t))%nat.
Proof.
  induction t as [|l IHl a d r IHr]; intros c; simpl; [done|].
  destruct (strcmp k (d_id d) =? 0); [done|].
  rewrite length_app; simpl.
  destruct (strcmp k (d_id d) <? 0).
  - specialize (IHl (mkFrame DL a d r :: c)). simpl in IHl. lia.
  - specialize (IHr (mkFrame DR a d l :: c)). simpl in IHr. lia.
Qed.

Lemma locate_bounds k t : ∀ c,
  sorted (plug c t) → bounds c k → bounds (locate k c t).1 k.
Proof.
  induction t as [|l IHl a d r IHr]; intros c Hs [Hb Ha]; simpl; [done|].
  destruct (strcmp k (d_id d) =? 0) eqn:E0; [done|].
  pose proof Hs as Hs0.
  unfold sorted in Hs. rewrite keys_plug, keys_node in Hs.
  apply StronglySorted_app in Hs as (_ & _ & Hs).
  apply StronglySorted_app in Hs as (_ & Hs & _).
  apply StronglySorted_app in Hs as (Hlr & _ & Hr).
  apply StronglySorted_cons in Hr as [Hdr _].
  destruct (strcmp k (d_id d) <? 0) eqn:E1.
  - apply IHl; [exact Hs0|]. split; [exact Hb|]. cbn.
    apply Forall_cons. split; [apply Z.ltb_lt, E1|].
    apply Forall_app. split; [|exact Ha].
    apply Forall_forall. intros e He.
    apply slt_trans with (d_id d); [apply Z.ltb_lt, E1|].
    eapply Forall_forall in Hdr; [exact Hdr|].
    unfold keys. apply list_elem_of_fmap. by exists e.
  - assert (slt (d_id d) k) as Hdk.
    { apply strcmp_gt; [apply Z.eqb_neq, E0|apply Z.ltb_ge in E1; lia]. }
    apply IHr; [exact Hs0|]. split; [|exact Ha]. cbn.
    apply Forall_app. split; [exact Hb|].
    apply Forall_app. split; [|by apply Forall_singleton].
    apply Forall_forall. intros e He.
    apply slt_trans with (d_id d); [|exact Hdk].
    apply (Hlr (key_of e) (d_id d)).
    + unfold keys. apply list_elem_of_fmap. by exists e.
    + apply list_elem_of_here.
Qed.

Lemma bounds_absent c k : bounds c k → k ∉ keys (plug c Leaf).
Proof.
  intros [Hb Ha]. rewrite keys_plug. cbn. intros Hin.
  apply elem_of_app in Hin as [Hin|Hin];
    apply list_elem_of_fmap in Hin as (e & -> & He).
  - eapply Forall_forall in Hb; [|exact He]. by apply slt_irrefl in Hb.
  - eapply Forall_forall in Ha; [|exact He]. by apply slt_irrefl in Ha.
Qed.

(** The loop of [find_node] follows [locate]. *)
Lemma find_loop_locate k s fuel : ∀ t par c,
  wf (mem s) par t → (height t < fuel)%nat →
  find_loop fuel k (root_of t) s = Some (root_of (locate k c t).2, s).
Proof.
  induction fuel as [|fuel IH]; intros t par c Hwf Hf; [lia|].
  destruct t as [|l a d r]; [done|].
  destruct Hwf as (n & Hn & Hd & Hp & Hl & Hr & Hwl & Hwr).
  cbn [find_loop root_of locate]. exec.
  assert (chat_id n = d_id d) as -> by (by rewrite <- Hd).
  cbn [height] in Hf.
  destruct (strcmp k (d_id d) =? 0); [done|].
  destruct (strcmp k (d_id d) <? 0); exec.
  - rewrite Hl. eapply IH; [exact Hwl|lia].
  - rewrite Hr. eapply IH; [exact Hwr|lia].
Qed.
End Locate.

(** ** The invariant of the tree *)

Section Store.
Implicit Types (s : state) (t l r : shape) (c : list frame).

Lemma wf_state_fresh s t a : wf_state s t → mem s !! a = None → a ∉ addrs t.
Proof.
  intros (_ & Hwf & _) Ha Hin.
  destruct (wf_lookup _ _ _ _ Hwf Hin) as [n Hn]. congruence.
Qed.

(** Nodes outside the tree can be allocated, written and freed. *)
Lemma wf_state_outside s h' tr t :
  wf_state s t → root tr = root (tree s) →
  (∀ q, q ∈ addrs t → h' !! q = mem s !! q) →
  wf_state (mkState h' tr) t.
Proof.
  intros (Hroot & Hwf & Hnd) Hr Hq. split; [|split]; cbn [mem tree]; try done.
  - congruence.
  - by eapply wf_ext.
Qed.

Lemma create_node_run id ti ts s :
  create_node id ti ts s =
  Some (fresh (dom (mem s)),
        mkState (<[fresh (dom (mem s)) :=
                   mkNode (strncpy id (MAX_ID_LEN - 1)) (strncpy ti (MAX_TITLE_LEN - 1))
                          ts None None None]> (mem s)) (tree s)).
Proof.
  unfold create_node, calloc_node, bind at 1. exec.
  unfold ret. by rewrite !insert_insert_eq.
Qed.

Lemma fresh_unallocated s : mem s !! fresh (dom (mem s)) = None.
Proof. apply not_elem_of_dom. apply is_fresh. Qed.

(** Writing the data fields of a node of the tree. *)
Lemma wf_state_set_data s c l x dx r n n' :
  wf_state s (plug c (Node l x dx r)) →
  mem s !! x = Some n →
  left n' = left n → right n' = right n → parent n' = parent n →
  wf_state (mkState (<[x := n']> (mem s)) (tree s)) (plug c (Node l x (data_of n') r)).
Proof.
  intros (Hroot & Hwf & Hnd) Hn Hl Hr Hp.
  apply wf_plug in Hwf as [Hc Hx].
  assert (addrs (plug c (Node l x (data_of n') r)) ≡ₚ addrs (plug c (Node l x dx r))) as Hperm.
  { by rewrite !addrs_plug, !addrs_node. }
  split; [|split]; cbn [mem tree].
  - by rewrite root_of_plug in *.
  - rewrite addrs_plug, addrs_node in Hnd.
    destruct Hx as (n0 & Hn0 & Hd0 & Hp0 & Hl0 & Hr0 & Hwl & Hwr).
    assert (n0 = n) by congruence. subst n0.
    apply wf_plug. split.
    + eapply wfctx_ext; [|exact Hc]. frame_tac.
    + cbn [wf]. exists n'. rewrite lookup_insert_eq.
      repeat split; try congruence.
      * eapply wf_ext; [|exact Hwl]. frame_tac.
      * eapply wf_ext; [|exact Hwr]. frame_tac.
  - by rewrite Hperm.
Qed.

Lemma count_plug c t :
  length (entries (plug c t)) =
  (length (before c) + length (entries t) + length (after c))%nat.
Proof. rewrite entries_plug, !length_app. lia. Qed.

Lemma ctx_length c : (length c ≤ length (before c) + length (after c))%nat.
Proof.
  induction c as [|[[] a d sb] c IH]; cbn [before after f_dir length]; [lia| |];
    rewrite !length_app; cbn [length]; lia.
Qed.

(** Linking a new leaf below the last node of a descent. *)
Lemma wf_state_attach s f c a n0 (set : ptr → ChatNode → ChatNode) :
  wf_state s (plug (f :: c) Leaf) →
  mem s !! a = Some n0 → a ∉ addrs (plug (f :: c) Leaf) →
  left n0 = None → right n0 = None →
  set = match f_dir f with DL => with_left | DR => with_right end →
  ∃ np, mem s !! f_addr f = Some np ∧ chat_id np = d_id (f_data f) ∧
    wf_state (mkState (<[f_addr f := set (Some a) np]>
                         (<[a := with_parent (Some (f_addr f)) n0]> (mem s)))
                      (tree s))
             (plug (f :: c) (Node Leaf a (data_of n0) Leaf)).
Proof.
  intros (Hroot & Hwf & Hnd) Hn0 Ha Hl0 Hr0 ->.
  apply wf_plug in Hwf as [Hc _].
  rewrite addrs_plug in Hnd, Ha. rewrite addrs_leaf in Hnd, Ha. 
  destruct f as [d p dp sb].
  destruct Hc as (np & Hnp & Hdp & Hpp & Hd & Hsb & Hc).
  cbn [f_addr f_data f_dir f_sib root_of ctx_addrs app] in *.
  exists np. split; [done|]. split; [by rewrite <- Hdp|].
  assert (a ≠ p) by ne_tac.
  assert (NoDup (addrs (Node Leaf a (data_of n0) Leaf) ++ p :: addrs sb ++ ctx_addrs c)) as Hnd'.
  { rewrite addrs_node, addrs_leaf. cbn [app]. apply NoDup_cons. done. }
  split; [|split]; cbn [mem tree].
  - by rewrite root_of_plug in *.
  - apply wf_plug. rewrite addrs_node, addrs_leaf in Hnd'. cbn [app] in Hnd'.
    destruct d; destruct Hd as [Hlp Hrp]; split; wf_solve.
  - by rewrite addrs_plug.
Qed.
End Store.

Lemma insert_loop_locate fuel0 k ti ts new s fuel : ∀ t par c,
  wf (mem s) par t → (height t < fuel)%nat →
  insert_loop fuel0 fuel k ti ts new (root_of t) (ctx_parent c) s =
  match (locate k c t).2 with
  | Leaf => Some (inr (ctx_parent (locate k c t).1), s)
  | Node _ x _ _ =>
      (update (with_title (strncpy ti (MAX_TITLE_LEN - 1))) x;;
       update (with_timestamp ts) x;;
       free new;;
       splay fuel0 (Some x);;
       ret (inl x)) s
  end.
Proof.
  induction fuel as [|fuel IH]; intros t par c Hwf Hf; [lia|].
  destruct t as [|l a d r]; [done|].
  destruct Hwf as (n & Hn & Hd & Hp & Hl & Hr & Hwl & Hwr).
  cbn [insert_loop root_of locate]. exec.
  assert (chat_id n = d_id d) as -> by (by rewrite <- Hd).
  cbn [height] in Hf.
  destruct (strcmp k (d_id d) =? 0); [done|].
  destruct (strcmp k (d_id d) <? 0); exec.
  - rewrite Hl. apply (IH l (Some a) (mkFrame DL a d r :: c)); [exact Hwl|lia].
  - rewrite Hr. apply (IH r (Some a) (mkFrame DR a d l :: c)); [exact Hwr|lia].
Qed.

Lemma wrap_int_id z : -2147483648 ≤ z ≤ INT_MAX → wrap_int z = z.
Proof.
  unfold wrap_int, INT_MAX. intros H.
  rewrite Z.mod_small; lia.
Qed.

Lemma sorted_insert_hole c k (e : addr * data) :
  sorted (plug c Leaf) → bounds c k → key_of e = k →
  StronglySorted slt (map key_of (before c ++ e :: after c)).
Proof.
  unfold sorted. rewrite keys_plug. cbn [keys entries map app].
  intros Hs [Hb Ha] He.
  apply StronglySorted_app in Hs as (Hba & Hsb & Hsa).
  rewrite map_app. cbn [map]. apply StronglySorted_app. split; [|split].
  - intros x1 x2 H1 H2. apply elem_of_cons in H2 as [->|H2]; [|by apply Hba].
    apply list_elem_of_fmap in H1 as (e1 & -> & H1).
    rewrite He. eapply Forall_forall in Hb; [exact Hb|done].
  - done.
  - apply StronglySorted_cons. split; [|done].
    apply Forall_forall. intros x Hx.
    apply list_elem_of_fmap in Hx as (e1 & -> & H1).
    rewrite He. eapply Forall_forall in Ha; [exact Ha|done].
Qed.

Lemma height_lt_fuel t fuel : (length (entries t) < fuel)%nat → (height t < fuel)%nat.
Proof. pose proof (height_le_count t). lia. Qed.

Lemma bind_get_size {B} (k : Z → M B) s : bind get_size k s = k (size (tree s)) s.
Proof. reflexivity. Qed.

Lemma bind_set_size {B} v (k : unit → M B) s :
  bind (set_size v) k s = k tt (mkState (mem s) (mkTree (root (tree s)) v)).
Proof. reflexivity. Qed.

Lemma bind_free {B} p n (k : unit → M B) s :
  mem s !! p = Some n → bind (free p) k s = k tt (mkState (delete p (mem s)) (tree s)).
Proof. intros H. unfold bind, free. by rewrite H. Qed.

Lemma keys_set_data c l x d d' r :
  d_id d' = d_id d → keys (plug c (Node l x d' r)) = keys (plug c (Node l x d r)).
Proof. intros H. by rewrite !keys_plug, !keys_node, H. Qed.

Lemma keys_length t : length (keys t) = length (entries t).
Proof. unfold keys. apply length_map. Qed.

Lemma key_in_plug c l x d r : d_id d ∈ keys (plug c (Node l x d r)).
Proof. rewrite keys_plug, keys_node. mem_tac. Qed.

Lemma data_ok_set_data c l x d d' r :
  data_ok d' →
  Forall (λ e, data_ok (snd e)) (entries (plug c (Node l x d r))) →
  Forall (λ e, data_ok (snd e)) (entries (plug c (Node l x d' r))).
Proof.
  intros Hd. rewrite !entries_plug. cbn [entries].
  rewrite !Forall_app, !Forall_cons. tauto.
Qed.

Lemma keys_entries t : keys t = map key_of (entries t).
Proof. reflexivity. Qed.

Lemma stored_ok k ti ts : data_ok (stored k ti ts).
Proof.
  split; cbn [stored d_id d_title].
  - pose proof (strncpy_length k (MAX_ID_LEN - 1)). unfold MAX_ID_LEN in *. lia.
  - pose proof (strncpy_length ti (MAX_TITLE_LEN - 1)). unfold MAX_TITLE_LEN in *. lia.
Qed.

(** [insert_chat] on a search tree.  [e1] and [e2] are the entries before and
    after the node of the key.  The tree that results is a search tree again
    when the key fits the field [chat_id]. *)
Lemma insert_chat_spec fuel k ti ts s t :
  tree_inv s t →
  size (tree s) < INT_MAX →
  (length (entries t) < fuel)%nat →
  ∃ x s' l r e1 e2,
    let d := stored k ti ts in
    insert_chat fuel k ti ts s = Some (x, s') ∧
    wf_state s' (Node l x d r) ∧
    entries (Node l x d r) = e1 ++ (x, d) :: e2 ∧
    (k ∈ keys t →
       (∃ dx, entries t = e1 ++ (x, dx) :: e2 ∧ d_id dx = k) ∧
       size (tree s') = size (tree s)) ∧
    (k ∉ keys t →
       entries t = e1 ++ e2 ∧ mem s !! x = None ∧
       size (tree s') = size (tree s) + 1) ∧
    ((String.length k < MAX_ID_LEN)%nat → tree_inv s' (Node l x d r)).
Proof.
  intros [Hwf Hsorted Hsize Hrange Hdata] Hroom Hfuel.
  unfold insert_chat. rewrite (bind_run _ _ _ _ _ (create_node_run k ti ts s)).
  pose proof (fresh_unallocated s) as Hfresh.
  pose proof (wf_state_fresh _ _ _ Hwf Hfresh) as Hnew.
  set (a := fresh (dom (mem s))) in *.
  set (n0 := mkNode (strncpy k (MAX_ID_LEN - 1)) (strncpy ti (MAX_TITLE_LEN - 1)) ts None None None).
  set (d := stored k ti ts).
  assert (String.length k < MAX_ID_LEN → d_id d = k)%nat as Hshort.
  { intros Hk. cbn. apply strncpy_short. unfold MAX_ID_LEN in *. lia. }
  set (s1 := mkState (<[a := n0]> (mem s)) (tree s)).
  assert (wf_state s1 t) as Hwf1.
  { apply (wf_state_outside s); [done..|]. intros q Hq. apply lookup_insert_ne. by intros ->. }
  subst s1.
  assert (data_ok d) as Hok0 by apply stored_ok.
  exec. destruct Hwf as (Hroot & Hwf & Hnd). rewrite Hroot.
  destruct t as [|l0 a0 d0 r0] eqn:Ht; cbn [root_of].
  - (* empty tree *)
    exec. unfold set_size, ret. eexists a, _, Leaf, Leaf, [], [].
    cbn zeta.
    assert (wf_state (mkState (<[a:=n0]> (mem s)) (mkTree (Some a) 1)) (Node Leaf a d Leaf)) as Hwf0.
    { split; [done|]. split; [|cbn; apply NoDup_singleton].
      cbn [wf mem]. exists n0. rewrite lookup_insert_eq. done. }
    split; [reflexivity|]. split; [exact Hwf0|]. split; [done|]. split; [|split].
    + intros Hin. cbn in Hin. by apply elem_of_nil in Hin.
    + intros _. cbn in Hsize. cbn. split; [done|]. split; [done|]. lia.
    + intros Hk. split.
      * exact Hwf0.
      * unfold sorted. cbn. repeat constructor.
      * done.
      * cbn. unfold INT_MAX. lia.
      * cbn. by apply Forall_singleton.
  - rewrite <- Ht in *. assert (root_of t = Some a0) as <- by (by subst t).
    destruct Hwf1 as (Hroot1 & Hwf1 & Hnd1).
    unfold bind at 1.
    pose proof (insert_loop_locate fuel k ti ts a _ fuel t None [] Hwf1 (height_lt_fuel _ _ Hfuel))
      as Hloop.
    cbn [ctx_parent] in Hloop. rewrite Hloop. clear Hloop.
    pose proof (locate_plug k t []) as Hplug.
    pose proof (locate_bounds k t [] Hsorted (conj (Forall_nil_2 _) (Forall_nil_2 _))) as Hbounds.
    pose proof (locate_length k t []) as Hlen.
    pose proof (locate_result k t []) as Hres.
    destruct (locate k [] t) as [c sub]. cbn [fst snd] in *.
    cbn [plug] in Hplug. cbn [length] in Hlen.
    destruct Hres as [->|(l & x & dx & r & -> & Hkx)].
    + (* the key is new *)
      destruct c as [|f c']; [cbn in Hplug; congruence|].
      cbn [ctx_parent].
      assert (wf_state (mkState (<[a:=n0]> (mem s)) (tree s)) (plug (f :: c') Leaf)) as Hwfp.
      { rewrite Hplug. done. }
      destruct (wf_state_attach _ f c' a n0
                  (match f_dir f with DL => with_left | DR => with_right end) Hwfp)
        as (np & Hnp & Hkp & Hwf2);
        [apply lookup_insert_eq|by rewrite Hplug|done|done|done|].
      cbn [mem tree] in Hnp, Hwf2.
      assert (a ≠ f_addr f) as Hap.
      { intros E. apply Hnew. rewrite <- Hplug, addrs_plug, E. cbn [ctx_addrs]. mem_tac. }
      rewrite lookup_insert_ne in Hnp by done.
      exec. rewrite Hkp.
      assert ((strcmp k (d_id (f_data f)) <? 0) =
              match f_dir f with DL => true | DR => false end) as ->.
      { destruct Hbounds as [Hb Ha].
        destruct f as [[] p dp sb]; cbn [before after f_dir f_data f_addr f_sib] in Hb, Ha |- *.
        - apply Z.ltb_lt. apply Forall_cons in Ha as [Ha _]. exact Ha.
        - apply Z.ltb_ge. rewrite !Forall_app, Forall_singleton in Hb.
          destruct Hb as (_ & _ & Hb). apply slt_asym in Hb.
          unfold slt, key_of in Hb. cbn [snd] in Hb. lia. }
      change (data_of n0) with d in Hwf2.
      assert (∃ s3, (if match f_dir f with DL => true | DR => false end
                     then update (with_left (Some a)) (f_addr f)
                     else update (with_right (Some a)) (f_addr f))
                      (mkState (<[a:=with_parent (Some (f_addr f)) n0]> (<[a:=n0]> (mem s))) (tree s))
                    = Some (tt, s3) ∧ wf_state s3 (plug (f :: c') (Node Leaf a d Leaf)) ∧
                    tree s3 = tree s) as (s3 & Hrun3 & Hwf3 & Htr3).
      { destruct (f_dir f); eexists; (split; [by exec|split; [exact Hwf2|done]]). }
      rewrite (bind_run _ _ _ _ _ Hrun3).
      rewrite bind_get_size, bind_set_size. cbn [splay].
      destruct (splay_loop_spec fuel
                  (mkState (mem s3) (mkTree (root (tree s3)) (wrap_int (size (tree s3) + 1))))
                  (f :: c') Leaf a d Leaf)
        as (s4 & l4 & r4 & Hrun4 & Hwf4 & Hent4 & Hsz4 & _).
      { destruct s3 as [h3 [rt3 sz3]]. exact Hwf3. }
      { pose proof (ctx_length (f :: c')). rewrite <- Hplug, count_plug in Hfuel.
        cbn [entries length] in Hfuel. lia. }
      rewrite (bind_run _ _ _ _ _ Hrun4). unfold ret.
      exists a, s4, l4, r4, (before (f :: c')), (after (f :: c')). cbn zeta.
      assert (entries (Node l4 a d r4) = before (f :: c') ++ (a, d) :: after (f :: c')) as Hent.
      { by rewrite Hent4, entries_plug. }
      clear Hent4. rename Hent into Hent4.
      assert (entries t = before (f :: c') ++ after (f :: c')) as Het.
      { by rewrite <- Hplug, entries_plug. }
      cbn [tree size] in Hsz4. rewrite Htr3 in Hsz4.
      rewrite wrap_int_id in Hsz4 by (unfold INT_MAX in *; lia).
      split; [reflexivity|]. split; [exact Hwf4|]. split; [exact Hent4|]. split; [|split].
      * intros Hin. exfalso. revert Hin. rewrite <- Hplug. by apply bounds_absent.
      * intros _. split; [exact Het|]. split; [exact Hfresh|]. lia.
      * intros Hk. split.
        -- exact Hwf4.
        -- unfold sorted. rewrite keys_entries, Hent4.
           apply (sorted_insert_hole _ k); [by rewrite Hplug|done|by apply Hshort].
        -- rewrite Hsz4, Hsize, Hent4, Het, !length_app. cbn [length]. lia.
        -- lia.
        -- rewrite Hent4. rewrite Het in Hdata. apply Forall_app in Hdata as [? ?].
           apply Forall_app. split; [done|]. apply Forall_cons. done.
    + (* the key is present *)
      pose proof Hwf as Hwf'. rewrite <- Hplug in Hwf'.
      apply wf_plug in Hwf' as [_ (nx & Hnx & Hdx & _)].
      assert (a ≠ x) as Hax.
      { intros E. apply Hnew. rewrite <- Hplug, addrs_plug, addrs_node, E. mem_tac. }
      exec. erewrite bind_free by look. cbn [mem tree splay].
      set (n2 := with_timestamp ts (with_title (strncpy ti (MAX_TITLE_LEN - 1)) nx)).
      assert (String.length k < MAX_ID_LEN)%nat as Hk.
      { rewrite <- Hplug, entries_plug in Hdata. cbn [entries] in Hdata.
        rewrite !Forall_app, Forall_cons in Hdata.
        destruct Hdata as (_ & (_ & [Hdata _] & _) & _). cbn [snd] in Hdata. by rewrite <- Hkx. }
      assert (data_of n2 = d) as Hd2.
      { unfold n2, d, stored, data_of. cbn. f_equal.
        rewrite (strncpy_short k) by (unfold MAX_ID_LEN in *; lia).
        rewrite <- Hkx, <- Hdx. done. }
      match goal with |- context [ mkState ?h (tree s) ] =>
        assert (h = <[x := n2]> (mem s)) as ->
      end.
      { rewrite insert_insert_eq, delete_insert_ne, delete_insert_eq, delete_id by done.
        reflexivity. }
      destruct (splay_loop_spec fuel (mkState (<[x := n2]> (mem s)) (tree s)) c l x d r)
        as (s4 & l4 & r4 & Hrun4 & Hwf4 & Hent4 & Hsz4 & _).
      { rewrite <- Hd2. eapply wf_state_set_data; [|exact Hnx|done..].
        rewrite Hplug. by split. }
      { pose proof (ctx_length c). rewrite <- Hplug, count_plug in Hfuel.
        cbn [entries] in Hfuel. rewrite length_app in Hfuel. cbn [length] in Hfuel. lia. }
      rewrite (bind_run _ _ _ _ _ Hrun4). unfold ret.
      exists x, s4, l4, r4, (before c ++ entries l), (entries r ++ after c). cbn zeta.
      assert (keys (Node l4 x d r4) = keys t) as Hkeys.
      { rewrite !keys_entries, Hent4, <- !keys_entries, <- Hplug.
        apply keys_set_data. rewrite Hkx. by apply Hshort. }
      cbn [tree] in Hsz4.
      split; [reflexivity|]. split; [exact Hwf4|].
      split; [rewrite Hent4, entries_plug; cbn [entries]; by rewrite <- !app_assoc|].
      split; [|split].
      * intros _. split; [|exact Hsz4]. exists dx. split; [|exact Hkx].
        rewrite <- Hplug, entries_plug. cbn [entries]. by rewrite <- !app_assoc.
      * intros Hnin. exfalso. apply Hnin. rewrite <- Hplug, <- Hkx. apply key_in_plug.
      * intros _. split.
        -- exact Hwf4.
        -- unfold sorted. by rewrite Hkeys.
        -- rewrite Hsz4, Hsize, <- !keys_length, Hkeys. done.
        -- lia.
        -- rewrite Hent4. eapply data_ok_set_data; [done|]. by rewrite Hplug.
Qed.

(** ** Find *)

(** [find_node] on a search tree: the node of the key, or [NULL] when the key
    is not in the tree; the state is not written. *)
Lemma find_node_spec fuel k s t :
  wf_state s t → sorted t → (length (entries t) < fuel)%nat →
  ∃ res, find_node fuel k s = Some (res, s) ∧
    match res with
    | None => k ∉ keys t
    | Some x => ∃ c l d r, t = plug c (Node l x d r) ∧ d_id d = k
    end.
Proof.
  intros (Hroot & Hwf & Hnd) Hsorted Hfuel.
  unfold find_node. rewrite bind_get_root, Hroot.
  rewrite (find_loop_locate k s fuel t None [] Hwf (height_lt_fuel _ _ Hfuel)).
  pose proof (locate_plug k t []) as Hplug.
  pose proof (locate_bounds k t [] Hsorted (conj (Forall_nil_2 _) (Forall_nil_2 _))) as Hbounds.
  pose proof (locate_result k t []) as Hres.
  destruct (locate k [] t) as [c sub]. cbn [fst snd plug] in *.
  eexists. split; [reflexivity|].
  destruct Hres as [->|(l & x & dx & r & -> & Hkx)]; cbn [root_of].
  - rewrite <- Hplug. by apply bounds_absent.
  - by exists c, l, dx, r.
Qed.

(** The walk to the maximum of a subtree. *)
Lemma max_left_loop_spec s fuel : ∀ l a d r par c,
  wf (mem s) par (Node l a d r) → (height (Node l a d r) ≤ fuel)%nat →
  ∃ c' l' m dm,
    max_left_loop fuel a s = Some (m, s) ∧
    plug c (Node l a d r) = plug c' (Node l' m dm Leaf) ∧
    after c' = after c.
Proof.
  induction fuel as [|fuel IH]; intros l a d r par c Hwf Hf; [cbn in Hf; lia|].
  destruct Hwf as (n & Hn & Hd & Hp & Hl & Hr & Hwl & Hwr).
  cbn [max_left_loop]. exec. rewrite Hr.
  destruct r as [|rl ra rd rr]; cbn [root_of].
  - exists c, l, a, d. done.
  - destruct (IH rl ra rd rr (Some a) (mkFrame DR a d l :: c) Hwr)
      as (c' & l' & m & dm & Hrun & Hplug & Hafter).
    { cbn [height] in *. lia. }
    exists c', l', m, dm. done.
Qed.

Lemma entries_leaf t : entries t = [] → t = Leaf.
Proof. destruct t as [|l a d r]; [done|]. cbn. by destruct (entries l). Qed.

Lemma last_entry_unique (l1 l2 l3 : list (addr * data)) e :
  NoDup (map fst (l1 ++ e :: l2)) → l1 ++ e :: l2 = l3 ++ [e] → l2 = [].
Proof.
  intros Hnd Heq. destruct l2 as [|z l2 _] using rev_ind; [done|].
  exfalso.
  rewrite app_comm_cons, app_assoc in Heq. apply app_inj_tail in Heq as [_ ->].
  rewrite map_app in Hnd. cbn [map] in Hnd. rewrite map_app in Hnd. cbn [map] in Hnd.
  apply NoDup_app in Hnd as (_ & _ & Hnd).
  apply NoDup_cons in Hnd as [Hnd _]. apply Hnd. mem_tac.
Qed.

Lemma wf_reparent_any h h' par par' t :
  (∀ a n, root_of t = Some a → h !! a = Some n → h' !! a = Some (with_parent par' n)) →
  (∀ q, q ∈ addrs t → Some q ≠ root_of t → h' !! q = h !! q) →
  NoDup (addrs t) →
  wf h par t → wf h' par' t.
Proof.
  destruct t as [|l a d r]; [done|].
  intros Hroot Hq Hnd Hwf. pose proof Hwf as (n & Hn & _).
  rewrite addrs_node in Hnd.
  eapply wf_reparent; [exact Hn|by apply Hroot| |exact Hwf].
  intros q Hin. apply Hq.
  - rewrite addrs_node. apply elem_of_app in Hin as [?|?]; mem_tac.
  - cbn. intros [= ->]. assert (a ≠ a) by (apply elem_of_app in Hin as [?|?]; ne_tac). done.
Qed.

(** The two-children branch of [delete_chat], first part: afterwards the
    maximum [m] of the left subtree is the root, with no right child, and the
    right subtree is detached. *)
Lemma delete_detach_spec fuel s ll lp dl lr x dx rl rp dr rr :
  let L := Node ll lp dl lr in
  let R := Node rl rp dr rr in
  wf_state s (Node L x dx R) →
  (length (entries L) < fuel)%nat →
  ∃ s' L' m dm nm nx,
    delete_detach fuel lp rp s = Some (m, s') ∧
    wf_state s' (Node L' m dm Leaf) ∧
    entries L = entries L' ++ [(m, dm)] ∧
    mem s' !! m = Some nm ∧ right nm = None ∧
    wf (mem s') None R ∧
    mem s !! x = Some nx ∧ mem s' !! x = Some nx ∧
    size (tree s') = size (tree s) ∧
    (∀ q, q ∉ addrs (Node L x dx R) → mem s' !! q = mem s !! q).
Proof.
  intros L R (Hroot & Hwf & Hnd) Hfuel.
  destruct Hwf as (nx & Hnx & Hdx & Hpx & Hlx & Hrx & HwL & HwR).
  pose proof HwL as (nl & Hnl & _). pose proof HwR as (nr & Hnr & _).
  rewrite addrs_node in Hnd.
  assert (lp ≠ rp ∧ lp ≠ x ∧ rp ≠ x) as (Hlr & Hlpx & Hrpx).
  { unfold L, R in Hnd. rewrite !addrs_node in Hnd. repeat split; ne_tac. }
  unfold delete_detach. exec.
  set (h1 := <[rp:=with_parent None nr]> (<[lp:=with_parent None nl]> (mem s))).
  assert (wf h1 None L) as HwL1.
  { eapply wf_reparent_any; [| |by eapply NoDup_app_l|exact HwL].
    - intros a n [= <-] Hn. unfold h1. rewrite lookup_insert_ne, lookup_insert_eq by done. congruence.
    - intros q Hq Hne. unfold h1. rewrite !lookup_insert_ne; [done|..].
      + intros <-. by apply Hne.
      + unfold R in Hnd. rewrite (addrs_node rl) in Hnd. ne_tac. }
  assert (wf h1 None R) as HwR1.
  { eapply wf_reparent_any; [| |eapply NoDup_cons_r, NoDup_app_r, Hnd|exact HwR].
    - intros a n [= <-] Hn. unfold h1. rewrite lookup_insert_eq. congruence.
    - intros q Hq Hne. unfold h1. rewrite !lookup_insert_ne; [done|..].
      + unfold L in Hnd. rewrite (addrs_node ll) in Hnd. ne_tac.
      + intros <-. by apply Hne. }
  destruct (max_left_loop_spec (mkState h1 (tree s)) fuel ll lp dl lr None [] HwL1)
    as (cm & ml & m & dm & Hrun & Hplug & Hafter).
  { pose proof (height_le_count L). fold L. lia. }
  rewrite (bind_run _ _ _ _ _ Hrun). exec. cbn [splay plug after] in *. fold L in Hplug.
  destruct (splay_loop_spec fuel (mkState h1 (mkTree (Some lp) (size (tree s)))) cm ml m dm Leaf)
    as (s2 & L' & R' & Hrun2 & Hwf2 & Hent2 & Hsz2 & Hfr2).
  { rewrite <- Hplug. split; [done|]. split; [done|]. by eapply NoDup_app_l. }
  { pose proof (ctx_length cm). rewrite Hplug, count_plug in Hfuel.
    cbn [entries] in Hfuel. rewrite length_app in Hfuel. cbn [length] in Hfuel. lia. }
  rewrite (bind_run _ _ _ _ _ Hrun2). unfold ret.
  rewrite <- Hplug in Hent2, Hfr2.
  assert (entries L = (before cm ++ entries ml) ++ [(m, dm)]) as HentL.
  { rewrite Hplug, entries_plug, Hafter. cbn [entries]. by rewrite <- !app_assoc. }
  assert (R' = Leaf) as ->.
  { apply entries_leaf. destruct Hwf2 as (_ & _ & Hnd2).
    apply (last_entry_unique (entries L') (entries R') (before cm ++ entries ml) (m, dm));
      [exact Hnd2|].
    change (entries (Node L' m dm R') = (before cm ++ entries ml) ++ [(m, dm)]).
    rewrite Hent2. exact HentL. }
  pose proof Hwf2 as (_ & (nm & Hnm & _ & _ & _ & Hrm & _) & _).
  exists s2, L', m, dm, nm, nx.
  split; [reflexivity|]. split; [exact Hwf2|].
  split; [rewrite <- Hent2; cbn [entries]; done|].
  split; [exact Hnm|]. split; [exact Hrm|].
  split.
  { eapply wf_ext; [|exact HwR1]. intros q Hq. rewrite Hfr2; [done|].
    intros Hq'. assert (q ≠ q) by ne_tac. done. }
  split; [exact Hnx|]. split.
  { rewrite Hfr2; [|intros Hq'; assert (x ≠ x) by ne_tac; done].
    cbn [mem]. unfold h1. rewrite !lookup_insert_ne by done. exact Hnx. }
  split; [exact Hsz2|].
  intros q Hq. rewrite addrs_node in Hq. rewrite Hfr2.
  - cbn [mem]. unfold h1. unfold L, R in Hq. rewrite !addrs_node in Hq.
    rewrite !lookup_insert_ne by ne_tac. done.
  - intros Hq'. apply Hq. mem_tac.
Qed.

(** ... and second part: the right subtree becomes the right child of [m]. *)
Lemma delete_attach_spec s L' m dm rl rp dr rr :
  let R := Node rl rp dr rr in
  wf_state s (Node L' m dm Leaf) →
  wf (mem s) None R →
  NoDup (addrs L' ++ m :: addrs R) →
  ∃ s',
    delete_attach rp s = Some (tt, s') ∧
    wf_state s' (Node L' m dm R) ∧
    size (tree s') = size (tree s) ∧
    (∀ q, q ∉ addrs L' ++ m :: addrs R → mem s' !! q = mem s !! q).
Proof.
  intros R (Hroot & Hwf & _) HwR Hnd.
  destruct Hwf as (nm & Hnm & Hdm & Hpm & Hlm & Hrm & HwL & _).
  pose proof HwR as (nr & Hnr & Hdr & Hpr & Hlr & Hrr & Hwrl & Hwrr).
  subst R. rewrite addrs_node in Hnd |- *.
  assert (m ≠ rp) by ne_tac.
  unfold delete_attach. cbn [root_of] in Hroot.
  exec. rewrite Hroot. exec. rewrite Hroot.
  eexists. split; [reflexivity|]. cbn [mem tree size].
  split; [|split; [done|frame_tac]].
  split; [done|]. split; [|by rewrite !addrs_node].
  cbn [mem]. wf_solve.
Qed.

Lemma sorted_remove (k1 k2 : list string) k :
  StronglySorted slt (k1 ++ k :: k2) → StronglySorted slt (k1 ++ k2) ∧ k ∉ k1 ++ k2.
Proof.
  intros Hs. apply StronglySorted_app in Hs as (H12 & H1 & H2).
  apply StronglySorted_cons in H2 as [Hk2 H2].
  split.
  - apply StronglySorted_app. split; [|done].
    intros x1 x2 Hx1 Hx2. apply H12; [done|]. by apply list_elem_of_further.
  - intros Hin. apply elem_of_app in Hin as [Hin|Hin].
    + apply (slt_irrefl k). apply H12; [done|]. apply list_elem_of_here.
    + eapply Forall_forall in Hk2; [|exact Hin]. by apply slt_irrefl in Hk2.
Qed.

(** The end of [delete_chat]: the old root [x] is freed and the size
    decremented. *)
Lemma delete_finish s t s3 t' e1 x d e2 nx :
  tree_inv s t →
  entries t = e1 ++ (x, d) :: e2 →
  wf_state s3 t' → entries t' = e1 ++ e2 →
  mem s3 !! x = Some nx →
  size (tree s3) = size (tree s) →
  ∃ s',
    (free x;; (let* sz := get_size in set_size (wrap_int (sz - 1));; ret 1)) s3 = Some (1, s') ∧
    tree_inv s' t' ∧ size (tree s') = size (tree s) - 1 ∧ mem s' !! x = None ∧
    (∀ q, q ≠ x → mem s' !! q = mem s3 !! q).
Proof.
  intros [Hwf Hsorted Hsize Hrange Hdata] Hent Hwf3 Hent' Hx Hsz3.
  erewrite bind_free by exact Hx.
  rewrite bind_get_size, bind_set_size. unfold ret. cbn [mem tree root size].
  eexists. split; [reflexivity|]. cbn [mem tree root size].
  assert (x ∉ addrs t') as Hxt.
  { destruct Hwf as (_ & _ & Hnd). unfold addrs in Hnd |- *. rewrite Hent in Hnd.
    rewrite Hent'. rewrite map_app in Hnd |- *. cbn [map fst] in Hnd.
    intros Hin. assert (x ≠ x); [|done].
    apply elem_of_app in Hin as [Hin|Hin]; ne_tac. }
  assert (wrap_int (size (tree s3) - 1) = size (tree s) - 1) as ->.
  { rewrite Hsz3. apply wrap_int_id. rewrite Hsize, Hent, length_app in *. cbn [length] in *.
    unfold INT_MAX in *. lia. }
  split; [|split; [done|split; [apply lookup_delete_eq|intros q Hq; by apply lookup_delete_ne]]].
  split; cbn [mem tree root size].
  - apply (wf_state_outside s3); [done|done|]. intros q Hq.
    apply lookup_delete_ne. by intros ->.
  - unfold sorted in *. rewrite keys_entries in *. rewrite Hent' , map_app.
    rewrite Hent, map_app in Hsorted. cbn [map] in Hsorted.
    by apply sorted_remove in Hsorted as [? _].
  - rewrite Hsize, Hent, Hent', !length_app. cbn [length]. lia.
  - lia.
  - rewrite Hent'. rewrite Hent in Hdata.
    rewrite !Forall_app, Forall_cons in *. tauto.
Qed.

(** [delete_chat] on a search tree: the entry of the key leaves the in-order
    sequence, its node is freed, and the rest is a search tree again. *)
Lemma delete_chat_spec fuel k s t :
  tree_inv s t → (length (entries t) < fuel)%nat →
  (k ∉ keys t → delete_chat fuel k s = Some (0, s)) ∧
  (k ∈ keys t →
     ∃ s' t' e1 x d e2,
       delete_chat fuel k s = Some (1, s') ∧ tree_inv s' t' ∧
       entries t = e1 ++ (x, d) :: e2 ∧ d_id d = k ∧ entries t' = e1 ++ e2 ∧
       size (tree s') = size (tree s) - 1 ∧ mem s' !! x = None).
Proof.
  intros Hinv Hfuel. pose proof Hinv as [Hwf Hsorted _ _ _].
  destruct (find_node_spec fuel k s t Hwf Hsorted Hfuel) as (res & Hfind & Hres).
  unfold delete_chat. rewrite (bind_run _ _ _ _ _ Hfind).
  destruct res as [x|]; [|split; [done|intros Hin; done]].
  destruct Hres as (c & l & d & r & Ht & Hkd).
  split; [intros Hn; exfalso; apply Hn; rewrite Ht, <- Hkd; apply key_in_plug|]. intros _.
  cbn [splay].
  destruct (splay_loop_spec fuel s c l x d r) as (s1 & L & R & Hrun1 & Hwf1 & Hent1 & Hsz1 & Hfr1).
  { by rewrite <- Ht. }
  { pose proof (ctx_length c). rewrite Ht, count_plug in Hfuel.
    cbn [entries] in Hfuel. rewrite length_app in Hfuel. cbn [length] in Hfuel. lia. }
  rewrite (bind_run _ _ _ _ _ Hrun1).
  rewrite <- Ht in Hent1. cbn [entries] in Hent1. symmetry in Hent1.
  pose proof Hwf1 as (Hroot1 & (nx & Hnx & Hdx & Hpx & Hlx & Hrx & HwL & HwR) & Hnd1).
  rewrite addrs_node in Hnd1.
  exec. rewrite Hlx, Hrx.
  assert (∃ s3 t', 
    (match root_of L with
     | Some l0 => match root_of R with
                  | Some r0 => delete_detach fuel l0 r0;; delete_attach r0
                  | None => set_root (root_of L);; clear_root_parent
                  end
     | None => set_root (root_of R);; clear_root_parent
     end) s1 = Some (tt, s3) ∧
    wf_state s3 t' ∧ entries t' = entries L ++ entries R ∧
    mem s3 !! x = Some nx ∧ size (tree s3) = size (tree s1))
    as (s3 & t' & Hrun3 & Hwf3 & Hent3 & Hx3 & Hsz3).
  { destruct L as [|ll lp dl lr]; [|destruct R as [|rl rp dr rr]]; cbn [root_of].
    - (* no left child *)
      unfold clear_root_parent. exec.
      destruct R as [|rl rp dr rr]; cbn [root_of].
      + unfold ret. eexists _, Leaf. split; [reflexivity|].
        repeat split; cbn; try done. constructor.
      + pose proof HwR as (nr & Hnr & _).
        rewrite addrs_leaf in Hnd1. cbn [app] in Hnd1.
        assert (rp ≠ x) by (rewrite (addrs_node rl) in Hnd1; ne_tac).
        exec. eexists _, (Node rl rp dr rr). split; [reflexivity|].
        cbn [mem tree size root]. split; [|split; [done|split; [by rewrite lookup_insert_ne|done]]].
        split; [done|]. split; [|by eapply NoDup_cons_r].
        cbn [mem]. eapply wf_reparent_any; [| |by eapply NoDup_cons_r|exact HwR].
        * intros a n [= <-] Hn. rewrite lookup_insert_eq. congruence.
        * intros q Hq Hne. rewrite lookup_insert_ne; [done|]. intros <-. by apply Hne.
    - (* no right child *)
      unfold clear_root_parent. exec.
      pose proof HwL as (nl & Hnl & _).
      rewrite addrs_leaf in Hnd1.
      assert (lp ≠ x) by (rewrite (addrs_node ll) in Hnd1; ne_tac).
      exec. eexists _, (Node ll lp dl lr). split; [reflexivity|].
      cbn [mem tree size root]. 
      split; [|split; [by rewrite app_nil_r|split; [by rewrite lookup_insert_ne|done]]].
      split; [done|]. split; [|by eapply NoDup_app_l].
      cbn [mem]. eapply wf_reparent_any; [| |by eapply NoDup_app_l|exact HwL].
      * intros a n [= <-] Hn. rewrite lookup_insert_eq. congruence.
      * intros q Hq Hne. rewrite lookup_insert_ne; [done|]. intros <-. by apply Hne.
    - (* both children *)
      destruct (delete_detach_spec fuel s1 ll lp dl lr x d rl rp dr rr Hwf1)
        as (s2 & L' & m & dm & nm & nx' & Hrun2 & Hwf2 & HentL & Hnm & Hrm & HwR2 & Hnx1 & Hnx2 & Hsz2 & Hfr2).
      { rewrite Hent1, length_app in Hfuel. lia. }
      assert (nx' = nx) by congruence. subst nx'.
      assert (addrs (Node ll lp dl lr) = addrs L' ++ [m]) as HaL.
      { unfold addrs. rewrite HentL, map_app. done. }
      assert (NoDup (addrs L' ++ m :: addrs (Node rl rp dr rr))) as Hnd2.
      { rewrite HaL in Hnd1. rewrite <- app_assoc in Hnd1. cbn [app] in Hnd1.
        apply NoDup_app in Hnd1 as (H1 & H2 & H3).
        apply NoDup_app. split; [done|]. split.
        - intros q Hq Hq'. apply (H2 q Hq).
          apply elem_of_cons in Hq' as [->|Hq']; [mem_tac|].
          apply list_elem_of_further, list_elem_of_further. done.
        - apply NoDup_cons in H3 as [H3 H4]. apply NoDup_cons in H4 as [_ H4].
          apply NoDup_cons. split; [|done]. intros Hin. apply H3.
          by apply list_elem_of_further. }
      destruct (delete_attach_spec s2 L' m dm rl rp dr rr Hwf2 HwR2 Hnd2)
        as (s3 & Hrun3 & Hwf3 & Hsz3 & Hfr3).
      rewrite (bind_run _ _ _ _ _ Hrun2).
      exists s3, (Node L' m dm (Node rl rp dr rr)).
      split; [exact Hrun3|]. split; [exact Hwf3|].
      split; [rewrite HentL; cbn [entries]; rewrite <- app_assoc; done|].
      split; [|congruence].
      rewrite Hfr3; [done|].
      rewrite HaL, <- app_assoc in Hnd1. cbn [app] in Hnd1.
      intros Hq. assert (x ≠ x); [|done].
      apply elem_of_app in Hq as [Hq|Hq]; [ne_tac|].
      apply elem_of_cons in Hq as [Hq|Hq]; [|ne_tac].
      exfalso. subst m. apply NoDup_app_r in Hnd1. apply NoDup_cons in Hnd1 as [Hnd1 _].
      apply Hnd1. mem_tac. }
  rewrite (bind_run _ _ _ _ _ Hrun3).
  destruct (delete_finish s t s3 t' (entries L) x d (entries R) nx Hinv)
    as (s4 & Hrun4 & Hinv4 & Hsz4 & Hx4 & _); try done; try congruence.
  exists s4, t', (entries L), x, d, (entries R). done.
Qed.

(** ** Traversal *)

Lemma collect_step (acc l r : list addr) (a : addr) (n : nat) :
  (length acc < n)%nat →
  let acc1 := acc ++ take (n - length acc) l in
  let acc2 := if (length acc1 <? n)%nat then acc1 ++ [a] else acc1 in
  acc2 ++ take (n - length acc2) r = acc ++ take (n - length acc) (l ++ a :: r).
Proof.
  intros Hlt acc1 acc2.
  assert (length acc1 = (length acc + length l `min` (n - length acc))%nat) as Hlen1.
  { unfold acc1. rewrite length_app, length_take. lia. }
  rewrite firstn_app.
  destruct (decide (length l < n - length acc)%nat) as [Hl|Hl].
  - assert (acc1 = acc ++ l) as Hacc1 by (unfold acc1; by rewrite take_ge by lia).
    unfold acc2. destruct (Nat.ltb_spec (length acc1) n); [|lia].
    rewrite Hacc1, !length_app. cbn [length].
    rewrite (take_ge l) by lia.
    replace (n - length acc - length l)%nat with (S (n - (length acc + length l + 1))) by lia.
    cbn [take]. rewrite <- !app_assoc. cbn [app]. done.
  - unfold acc2. destruct (Nat.ltb_spec (length acc1) n); [lia|].
    replace (n - length acc1)%nat with 0%nat by lia.
    replace (n - length acc - length l)%nat with 0%nat by lia.
    cbn [take]. unfold acc1. by rewrite !app_nil_r.
Qed.

(** [collect_inorder] on a subtree, with [acc] the list so far: the in-order
    nodes are appended as long as the list has fewer than [MAX_CHATS]. *)
Lemma collect_inorder_spec s fuel : ∀ t par acc,
  wf (mem s) par t → (height t < fuel)%nat →
  collect_inorder fuel (root_of t) acc s =
  Some (acc ++ take (MAX_CHATS - length acc) (addrs t), s).
Proof.
  induction fuel as [|fuel IH]; intros t par acc Hwf Hf; [lia|].
  destruct t as [|l a d r]; cbn [collect_inorder root_of].
  - rewrite addrs_leaf, take_nil, app_nil_r. done.
  - destruct Hwf as (n & Hn & Hd & Hp & Hl & Hr & Hwl & Hwr).
    cbn [height] in Hf. unfold count.
    destruct (Nat.leb_spec MAX_CHATS (length acc)) as [Hfull|Hroom].
    + replace (MAX_CHATS - length acc)%nat with 0%nat by lia.
      cbn [take]. by rewrite app_nil_r.
    + exec. rewrite Hl.
      rewrite (bind_run _ _ _ _ _ (IH l (Some a) acc Hwl ltac:(lia))).
      exec. rewrite Hr.
      rewrite (IH r (Some a) _ Hwr ltac:(lia)).
      rewrite addrs_node. f_equal. f_equal.
      apply (collect_step acc (addrs l) (addrs r) a MAX_CHATS Hroom).
Qed.

Lemma read_keys_entries h par t (es : list (addr * data)) :
  wf h par t → es ⊆ entries t →
  read_keys h (map fst es) = Some (map key_of es).
Proof.
  intros Hwf. induction es as [|[a d] es IH]; intros Hsub; [done|].
  cbn [map fst read_keys].
  destruct (wf_entries h par t a d Hwf) as (n & Hn & Hd); [apply Hsub; mem_tac|].
  rewrite Hn, IH; [|intros e He; apply Hsub; by apply list_elem_of_further].
  unfold key_of. cbn [snd]. by rewrite <- Hd.
Qed.

Lemma take_subseteq {A} n (l : list A) : take n l ⊆ l.
Proof. intros x Hx. eapply subseteq_take. exact Hx. Qed.

Lemma fuel_of_size s t fuel :
  tree_inv s t → size (tree s) < Z.of_nat fuel → (length (entries t) < fuel)%nat.
Proof. intros [_ _ Hsize _ _] H. lia. Qed.

(** [access_chat] on a search tree. *)
Lemma access_chat_spec fuel k s t :
  tree_inv s t → (length (entries t) < fuel)%nat →
  (k ∉ keys t → access_chat fuel k s = Some (None, s)) ∧
  (k ∈ keys t →
     ∃ x s' l d r,
       access_chat fuel k s = Some (Some x, s') ∧
       tree_inv s' (Node l x d r) ∧ d_id d = k ∧
       entries (Node l x d r) = entries t).
Proof.
  intros Hinv Hfuel. pose proof Hinv as [Hwf Hsorted Hsize Hrange Hdata].
  destruct (find_node_spec fuel k s t Hwf Hsorted Hfuel) as (res & Hfind & Hres).
  unfold access_chat. rewrite (bind_run _ _ _ _ _ Hfind).
  destruct res as [x|]; [|split; [done|intros Hin; done]].
  destruct Hres as (c & l & d & r & Ht & Hkd).
  split; [intros Hn; exfalso; apply Hn; rewrite Ht, <- Hkd; apply key_in_plug|]. intros _.
  cbn [splay].
  destruct (splay_loop_spec fuel s c l x d r) as (s1 & L & R & Hrun1 & Hwf1 & Hent1 & Hsz1 & Hfr1).
  { by rewrite <- Ht. }
  { pose proof (ctx_length c). rewrite Ht, count_plug in Hfuel.
    cbn [entries] in Hfuel. rewrite length_app in Hfuel. cbn [length] in Hfuel. lia. }
  rewrite (bind_run _ _ _ _ _ Hrun1). unfold ret.
  rewrite <- Ht in Hent1.
  exists x, s1, L, d, R. split; [reflexivity|]. split; [|done].
  split; [done| | | |].
  - unfold sorted. by rewrite keys_entries, Hent1.
  - by rewrite Hsz1, Hent1.
  - lia.
  - by rewrite Hent1.
Qed.

Lemma demo_inv : tree_inv demo_state demo_tree.
Proof.
  split.
  - split; [reflexivity|]. split.
    + cbn [wf demo_tree]. 
      eexists. split; [vm_compute; reflexivity|].
      repeat split; try reflexivity; 
        (eexists; split; [vm_compute; reflexivity|]; repeat split; reflexivity).
    + apply (bool_decide_unpack _). vm_compute. exact I.
  - unfold sorted. repeat constructor; unfold slt; vm_compute; reflexivity.
  - reflexivity.
  - vm_compute. discriminate.
  - repeat constructor; vm_compute; lia.
Qed.

Lemma five_inv : tree_inv five_state five_tree.
Proof.
  split.
  - split; [reflexivity|]. split.
    + cbn [wf five_tree].
      repeat (eexists; split; [vm_compute; reflexivity|]; repeat split; try reflexivity).
    + apply (bool_decide_unpack _). vm_compute. exact I.
  - unfold sorted. repeat constructor; unfold slt; vm_compute; reflexivity.
  - reflexivity.
  - vm_compute. discriminate.
  - repeat constructor; vm_compute; lia.
Qed.

(** ** Access *)

(** C2. On a tree that holds the key [k], [access_chat] returns the node of
    [k] and leaves it at the root, the tree being a search tree of the same
    entries; on a tree that does not hold [k] it returns [NULL] and leaves the
    state as it was. *)
Theorem C2_access_splay_to_root fuel k s t :
  tree_inv s t →
  size (tree s) < Z.of_nat fuel →
  (k ∈ keys t →
     ∃ x n s' t',
       access_chat fuel k s = Some (Some x, s') ∧
       root (tree s') = Some x ∧ mem s' !! x = Some n ∧ chat_id n = k ∧
       tree_inv s' t' ∧ entries t' = entries t) ∧
  (k ∉ keys t → access_chat fuel k s = Some (None, s)).
Proof.
  intros Hinv Hfuel.
  destruct (access_chat_spec fuel k s t Hinv (fuel_of_size _ _ _ Hinv Hfuel)) as [Habs Hpres].
  split; [|exact Habs].
  intros Hin. destruct (Hpres Hin) as (x & s' & l & d & r & Hrun & Hinv' & Hkd & Hent).
  pose proof (inv_wf _ _ Hinv') as (Hroot & (n & Hn & Hd & _) & _).
  exists x, n, s', (Node l x d r).
  split; [exact Hrun|]. split; [exact Hroot|]. split; [exact Hn|].
  split; [rewrite <- Hkd, <- Hd; reflexivity|]. split; done.
Qed.

Lemma C2_witness :
  ∃ x n s' t',
    access_chat 4 "c" demo_state = Some (Some x, s') ∧
    root (tree s') = Some x ∧ mem s' !! x = Some n ∧ chat_id n = "c"%string ∧
    tree_inv s' t' ∧ entries t' = entries demo_tree.
Proof.
  apply (C2_access_splay_to_root 4 "c" demo_state demo_tree demo_inv).
  - reflexivity.
  - vm_compute. apply list_elem_of_further, list_elem_of_further, list_elem_of_here.
Defined.

(** ** Delete *)

(** C4. [delete_chat] of a key of the tree returns 1, decrements the size and
    leaves a search tree in which [find_node] no longer finds the key;
    [delete_chat] of a key that is not in the tree returns 0 and leaves the
    state as it was. *)
Theorem C4_delete_present_absent fuel k s t :
  tree_inv s t →
  size (tree s) < Z.of_nat fuel →
  (k ∈ keys t →
     ∃ s' t',
       delete_chat fuel k s = Some (1, s') ∧
       size (tree s') = size (tree s) - 1 ∧
       find_node fuel k s' = Some (None, s') ∧
       tree_inv s' t' ∧ k ∉ keys t') ∧
  (k ∉ keys t → delete_chat fuel k s = Some (0, s)).
Proof.
  intros Hinv Hfuel.
  pose proof (fuel_of_size _ _ _ Hinv Hfuel) as Hfuel'.
  destruct (delete_chat_spec fuel k s t Hinv Hfuel') as [Habs Hpres].
  split; [|exact Habs].
  intros Hin.
  destruct (Hpres Hin) as (s' & t' & e1 & x & d & e2 & Hrun & Hinv' & Hent & Hkd & Hent' & Hsz & _).
  assert (k ∉ keys t') as Hnin.
  { pose proof (inv_sorted _ _ Hinv) as Hs. unfold sorted in Hs.
    rewrite keys_entries, Hent, map_app in Hs. cbn [map] in Hs.
    apply sorted_remove in Hs as [_ Hs].
    rewrite keys_entries, Hent', map_app.
    change (key_of (x, d)) with (d_id d) in Hs. by rewrite Hkd in Hs. }
  exists s', t'. split; [exact Hrun|]. split; [exact Hsz|]. split; [|done].
  destruct (find_node_spec fuel k s' t' (inv_wf _ _ Hinv') (inv_sorted _ _ Hinv'))
    as ([y|] & Hfind & Hres).
  - rewrite Hent', length_app. rewrite Hent, length_app in Hfuel'. cbn [length] in Hfuel'. lia.
  - destruct Hres as (c & l & dy & r & -> & Hky). exfalso. apply Hnin.
    rewrite <- Hky. apply key_in_plug.
  - exact Hfind.
Qed.

Lemma C4_witness :
  (∃ s' t',
     delete_chat 4 "b" demo_state = Some (1, s') ∧
     size (tree s') = size (tree demo_state) - 1 ∧
     find_node 4 "b" s' = Some (None, s') ∧
     tree_inv s' t' ∧ "b"%string ∉ keys t') ∧
  delete_chat 4 "x" demo_state = Some (0, demo_state).
Proof.
  destruct (C4_delete_present_absent 4 "b" demo_state demo_tree demo_inv eq_refl) as [Hb _].
  destruct (C4_delete_present_absent 4 "x" demo_state demo_tree demo_inv eq_refl) as [_ Hx].
  split.
  - apply Hb. vm_compute. apply list_elem_of_further, list_elem_of_here.
  - apply Hx. vm_compute. intros H.
    repeat (apply elem_of_cons in H as [H|H]; [discriminate H|]).
    by apply elem_of_nil in H.
Defined.

(** C5. [delete_chat] of a key [k] whose node [x], once splayed to the root,
    has a left child [lp] and a right child [rp].  After [delete_detach] (the
    code of the branch up to and including [splay (tree, max_left)]) the
    maximum [m] of the left subtree is the root of the tree and has neither a
    parent nor a right child; [delete_attach] then hangs the right subtree
    below it.  [delete_chat] returns 1 and leaves the store of that moment
    without the node [x]: a search tree of one node less whose root is [m],
    with [rp] as its right child and [m] as the parent of [rp].  The entry of
    [m] comes immediately before the entry of [k] in the in-order sequence:
    [m] holds the predecessor of [k]. *)
Theorem C5_delete_two_children fuel k s t x s1 nx lp rp :
  tree_inv s t →
  size (tree s) < Z.of_nat fuel →
  find_node fuel k s = Some (Some x, s) →
  splay fuel (Some x) s = Some (tt, s1) →
  mem s1 !! x = Some nx → left nx = Some lp → right nx = Some rp →
  ∃ m dm dx s2 s3 s' nm2 nm nr L' R,
    (* up to and including [splay (tree, max_left)] *)
    delete_detach fuel lp rp s1 = Some (m, s2) ∧
    root (tree s2) = Some m ∧ mem s2 !! m = Some nm2 ∧
    right nm2 = None ∧ parent nm2 = None ∧
    (* the two assignments that attach the right subtree *)
    delete_attach rp s2 = Some (tt, s3) ∧
    (* the whole call *)
    delete_chat fuel k s = Some (1, s') ∧
    mem s' = delete x (mem s3) ∧
    root (tree s') = Some m ∧ size (tree s') = size (tree s) - 1 ∧
    mem s' !! m = Some nm ∧ chat_id nm = d_id dm ∧
    parent nm = None ∧ right nm = Some rp ∧
    mem s' !! rp = Some nr ∧ parent nr = Some m ∧
    tree_inv s' (Node L' m dm R) ∧ root_of R = Some rp ∧
    (* [m] is the predecessor *)
    entries t = entries L' ++ (m, dm) :: (x, dx) :: entries R ∧
    d_id dx = k ∧ slt (d_id dm) k.
Proof.
  intros Hinv Hfuel Hfind Hsplay Hnx Hl Hr.
  pose proof (fuel_of_size _ _ _ Hinv Hfuel) as Hfuel'.
  pose proof Hinv as [Hwf Hsorted _ _ _].
  destruct (find_node_spec fuel k s t Hwf Hsorted Hfuel') as (res & Hfind' & Hres).
  rewrite Hfind in Hfind'. injection Hfind' as <-.
  destruct Hres as (c & l & d & r & Ht & Hkd).
  cbn [splay] in Hsplay.
  destruct (splay_loop_spec fuel s c l x d r) as (s1' & L & R & Hrun1 & Hwf1 & Hent1 & Hsz1 & _).
  { by rewrite <- Ht. }
  { pose proof (ctx_length c). rewrite Ht, count_plug in Hfuel'.
    cbn [entries] in Hfuel'. rewrite length_app in Hfuel'. cbn [length] in Hfuel'. lia. }
  rewrite Hsplay in Hrun1. injection Hrun1 as <-.
  rewrite <- Ht in Hent1. cbn [entries] in Hent1. symmetry in Hent1.
  pose proof Hwf1 as (Hroot1 & (nx' & Hnx' & Hdx & Hpx & Hlx & Hrx & HwL & HwR) & Hnd1).
  assert (nx' = nx) as -> by congruence.
  rewrite Hl in Hlx. rewrite Hr in Hrx.
  destruct L as [|ll lp' dl lr]; [discriminate Hlx|]. cbn [root_of] in Hlx.
  destruct R as [|rl rp' dr rr]; [discriminate Hrx|]. cbn [root_of] in Hrx.
  injection Hlx as <-. injection Hrx as <-.
  rewrite addrs_node in Hnd1.
  destruct (delete_detach_spec fuel s1 ll lp dl lr x d rl rp dr rr Hwf1)
    as (s2 & L' & m & dm & nm2 & nx' & Hrun2 & Hwf2 & HentL & Hnm2 & Hrm2 & HwR2 & Hnx1 & Hnx2 & Hsz2 & _).
  { rewrite Hent1, length_app in Hfuel'. lia. }
  assert (nx' = nx) by congruence. subst nx'.
  assert (addrs (Node ll lp dl lr) = addrs L' ++ [m]) as HaL.
  { unfold addrs. rewrite HentL, map_app. done. }
  assert (NoDup (addrs L' ++ m :: addrs (Node rl rp dr rr))) as Hnd2.
  { rewrite HaL in Hnd1. rewrite <- app_assoc in Hnd1. cbn [app] in Hnd1.
    apply NoDup_app in Hnd1 as (H1 & H2 & H3).
    apply NoDup_app. split; [done|]. split.
    - intros q Hq Hq'. apply (H2 q Hq).
      apply elem_of_cons in Hq' as [->|Hq']; [mem_tac|].
      apply list_elem_of_further, list_elem_of_further. done.
    - apply NoDup_cons in H3 as [H3 H4]. apply NoDup_cons in H4 as [_ H4].
      apply NoDup_cons. split; [|done]. intros Hin. apply H3.
      by apply list_elem_of_further. }
  destruct (delete_attach_spec s2 L' m dm rl rp dr rr Hwf2 HwR2 Hnd2)
    as (s3 & Hrun3 & Hwf3 & Hsz3 & Hfr3).
  assert (mem s3 !! x = Some nx) as Hnx3.
  { rewrite Hfr3; [done|].
    rewrite HaL, <- app_assoc in Hnd1. cbn [app] in Hnd1.
    intros Hq. assert (x ≠ x); [|done].
    apply elem_of_app in Hq as [Hq|Hq]; [ne_tac|].
    apply elem_of_cons in Hq as [Hq|Hq]; [|ne_tac].
    exfalso. subst m. apply NoDup_app_r in Hnd1. apply NoDup_cons in Hnd1 as [Hnd1 _].
    apply Hnd1. mem_tac. }
  set (R := Node rl rp dr rr) in *.
  assert (entries (Node L' m dm R) = entries (Node ll lp dl lr) ++ entries R) as Hent3.
  { rewrite HentL. cbn [entries]. by rewrite <- app_assoc. }
  destruct (delete_finish s t s3 (Node L' m dm R) (entries (Node ll lp dl lr)) x d (entries R) nx Hinv)
    as (s' & Hrun4 & Hinv' & Hsz' & Hx' & Hfr'); try done; try congruence.
  pose proof (inv_wf _ _ Hinv') as (Hroot' & (nm & Hnm & Hdm & Hpm & _ & Hrm & _ & HwR') & _).
  pose proof HwR' as (nr & Hnr & _ & Hpr & _).
  pose proof Hwf2 as (Hroot2 & (nm2' & Hnm2' & _ & Hpm2 & _) & _).
  assert (nm2' = nm2) as -> by congruence.
  exists m, dm, d, s2, s3, s', nm2, nm, nr, L', R.
  split; [exact Hrun2|]. split; [exact Hroot2|]. split; [exact Hnm2|].
  split; [exact Hrm2|]. split; [exact Hpm2|]. split; [exact Hrun3|].
  split.
  { unfold delete_chat. rewrite (bind_run _ _ _ _ _ Hfind). cbn [splay].
    rewrite (bind_run _ _ _ _ _ Hsplay). exec. rewrite Hl, Hr.
    assert ((delete_detach fuel lp rp;; delete_attach rp) s1 = Some (tt, s3)) as Hrun23.
    { by rewrite (bind_run _ _ _ _ _ Hrun2). }
    rewrite (bind_run _ _ _ _ _ Hrun23). exact Hrun4. }
  split.
  { apply map_eq. intros q. destruct (decide (q = x)) as [->|Hq].
    - by rewrite Hx', lookup_delete_eq.
    - by rewrite Hfr', lookup_delete_ne. }
  split; [exact Hroot'|]. split; [exact Hsz'|]. split; [exact Hnm|].
  split; [by rewrite <- Hdm|]. split; [exact Hpm|]. split; [exact Hrm|].
  split; [exact Hnr|]. split; [exact Hpr|]. split; [exact Hinv'|]. split; [done|].
  assert (entries t = entries L' ++ (m, dm) :: (x, d) :: entries R) as Hent.
  { rewrite Hent1, HentL, <- app_assoc. done. }
  split; [exact Hent|]. split; [exact Hkd|].
  unfold sorted in Hsorted. rewrite keys_entries, Hent, map_app in Hsorted.
  apply StronglySorted_app in Hsorted as (_ & _ & Hs).
  cbn [map] in Hs. apply StronglySorted_cons in Hs as [Hs _].
  apply Forall_cons in Hs as [Hs _]. unfold key_of in Hs. cbn [snd] in Hs. by rewrite <- Hkd.
Qed.

Lemma C5_witness :
  ∃ m dm dx s2 s3 s' nm2 nm nr L' R,
    delete_detach 6 2%positive 5%positive five_state = Some (m, s2) ∧
    root (tree s2) = Some m ∧ mem s2 !! m = Some nm2 ∧
    right nm2 = None ∧ parent nm2 = None ∧
    delete_attach 5%positive s2 = Some (tt, s3) ∧
    delete_chat 6 "d" five_state = Some (1, s') ∧
    mem s' = delete 1%positive (mem s3) ∧
    root (tree s') = Some m ∧ size (tree s') = size (tree five_state) - 1 ∧
    mem s' !! m = Some nm ∧ chat_id nm = d_id dm ∧
    parent nm = None ∧ right nm = Some 5%positive ∧
    mem s' !! 5%positive = Some nr ∧ parent nr = Some m ∧
    tree_inv s' (Node L' m dm R) ∧ root_of R = Some 5%positive ∧
    entries five_tree = entries L' ++ (m, dm) :: (1%positive, dx) :: entries R ∧
    d_id dx = "d"%string ∧ slt (d_id dm) "d".
Proof.
  apply (C5_delete_two_children 6 "d" five_state five_tree 1%positive five_state
           (mkNode "d" "Recipe Ideas" 200 (Some 2%positive) (Some 5%positive) None)
           2%positive 5%positive five_inv).
  - reflexivity.
  - vm_compute. reflexivity.
  - vm_compute. reflexivity.
  - vm_compute. reflexivity.
  - reflexivity.
  - reflexivity.
Defined.

(** On [five_state] the node of the key c, the maximum of the left subtree of
    d, is not the root of that subtree: [splay (tree, max_left)] rotates it
    above b. *)
Example delete_five :
  (λ r, (fst r, root (tree (snd r)), left <$> mem (snd r) !! 4%positive,
         right <$> mem (snd r) !! 4%positive))
    <$> delete_detach 6 2%positive 5%positive five_state
  = Some (4%positive, Some 4%positive, Some (Some 2%positive), Some None) ∧
  (λ r, (fst r, root_key (snd r), size (tree (snd r))))
    <$> (delete_chat 6 "d";; collect_keys 6) five_state
  = Some (["a"; "b"; "c"; "e"]%string, Some "c"%string, 4).
Proof. split; vm_compute; reflexivity. Qed.

(** ** Collect *)

(** [collect_inorder] from the root, and the keys read from its result. *)
Lemma collect_root_spec fuel s t :
  tree_inv s t →
  size (tree s) < Z.of_nat fuel →
  ∃ nodes,
    collect_inorder fuel (root (tree s)) [] s = Some (nodes, s) ∧
    nodes = take MAX_CHATS (addrs t) ∧
    read_keys (mem s) nodes = Some (take MAX_CHATS (keys t)).
Proof.
  intros Hinv Hfuel. pose proof (fuel_of_size _ _ _ Hinv Hfuel) as Hfuel'.
  pose proof Hinv as [(Hroot & Hwf & Hnd) Hsorted _ _ _].
  exists (take MAX_CHATS (addrs t)).
  split; [|split; [done|]].
  - rewrite Hroot.
    rewrite (collect_inorder_spec s fuel t None [] Hwf (height_lt_fuel _ _ Hfuel')).
    cbn [app length]. by rewrite Nat.sub_0_r.
  - unfold addrs, keys. rewrite !firstn_map.
    eapply read_keys_entries; [exact Hwf|]. apply take_subseteq.
Qed.

(** C9. [collect_inorder] from the root with an empty list returns, without
    failing, the first [MAX_CHATS] nodes of the in-order sequence, whose keys
    ascend: all of them when the tree has at most [MAX_CHATS] nodes, exactly
    [MAX_CHATS] otherwise. *)
Theorem C9_collect_truncates fuel s t :
  tree_inv s t →
  size (tree s) < Z.of_nat fuel →
  ∃ nodes,
    collect_inorder fuel (root (tree s)) [] s = Some (nodes, s) ∧
    nodes = take MAX_CHATS (addrs t) ∧
    read_keys (mem s) nodes = Some (take MAX_CHATS (keys t)) ∧
    StronglySorted slt (keys t) ∧
    ((length (keys t) ≤ MAX_CHATS)%nat → read_keys (mem s) nodes = Some (keys t)) ∧
    ((MAX_CHATS < length (keys t))%nat → length nodes = MAX_CHATS).
Proof.
  intros Hinv Hfuel.
  destruct (collect_root_spec fuel s t Hinv Hfuel) as (nodes & Hrun & -> & Hkeys).
  exists (take MAX_CHATS (addrs t)).
  split; [exact Hrun|]. split; [done|]. split; [exact Hkeys|].
  split; [exact (inv_sorted _ _ Hinv)|]. split.
  - intros Hle. rewrite Hkeys. by rewrite take_ge.
  - intros Hgt. rewrite length_take. rewrite keys_length in Hgt.
    unfold addrs. rewrite length_map. lia.
Qed.

Lemma C9_witness :
  ∃ nodes,
    collect_inorder 4 (root (tree demo_state)) [] demo_state = Some (nodes, demo_state) ∧
    nodes = take MAX_CHATS (addrs demo_tree) ∧
    read_keys (mem demo_state) nodes = Some (take MAX_CHATS (keys demo_tree)) ∧
    StronglySorted slt (keys demo_tree) ∧
    ((length (keys demo_tree) ≤ MAX_CHATS)%nat →
       read_keys (mem demo_state) nodes = Some (keys demo_tree)) ∧
    ((MAX_CHATS < length (keys demo_tree))%nat → length nodes = MAX_CHATS).
Proof.
  exact (C9_collect_truncates 4 demo_state demo_tree demo_inv eq_refl).
Defined.

(** With 101 sessions in the tree, [collect_inorder] stores the first hundred
    keys and drops the last. *)
Example collect_truncates_at_101 :
  (λ r, (size (tree (snd r)), fst r)) <$>
    (run_ops 102 many_ops;; collect_keys 102) create_splay_tree
  = Some (101, map (λ i, String (Ascii.ascii_of_nat (33 + i)) EmptyString) (seq 0 100)).
Proof. vm_compute. reflexivity. Qed.

(** ** Insert *)

Lemma tree_inv_empty : tree_inv create_splay_tree Leaf.
Proof.
  split; [split; [done|split; [done|constructor]]|constructor|done|done|constructor].
Qed.

(** C3, as stated, fails: the root key after inserting [key64] into the empty
    tree is not [key64] but its first 63 characters. *)
Lemma C3_counterexample :
  (snd <$> insert_chat 1 key64 "t" 1 create_splay_tree) ≫= root_key
    = Some (replicate_char 63 "k") ∧
  replicate_char 63 "k" ≠ key64.
Proof. split; [vm_compute; reflexivity|discriminate]. Qed.

(** C3, amended. After [insert_chat] on a search tree of fewer than [INT_MAX]
    nodes the root is the returned node and its key is the first 63
    characters of the inserted key.  For a key of at most 63 characters that
    is the key itself, and the size has grown by one when the key was not in
    the tree and is unchanged when it was.  Nothing is said of the size after
    the insert of a longer key. *)
Theorem C3_insert_root_and_size fuel k ti ts s t :
  tree_inv s t →
  size (tree s) < INT_MAX →
  size (tree s) < Z.of_nat fuel →
  ∃ x n s',
    insert_chat fuel k ti ts s = Some (x, s') ∧
    root (tree s') = Some x ∧ mem s' !! x = Some n ∧
    chat_id n = strncpy k (MAX_ID_LEN - 1) ∧
    ((String.length k < MAX_ID_LEN)%nat →
       chat_id n = k ∧
       (k ∉ keys t → size (tree s') = size (tree s) + 1) ∧
       (k ∈ keys t → size (tree s') = size (tree s))).
Proof.
  intros Hinv Hroom Hfuel.
  destruct (insert_chat_spec fuel k ti ts s t Hinv Hroom (fuel_of_size _ _ _ Hinv Hfuel))
    as (x & s' & l & r & e1 & e2 & Hrun & Hwf & _ & Hpres & Habs & _).
  pose proof Hwf as (Hroot & (n & Hn & Hd & _) & _).
  exists x, n, s'. split; [exact Hrun|]. split; [exact Hroot|]. split; [exact Hn|].
  assert (chat_id n = strncpy k (MAX_ID_LEN - 1)) as Hkey.
  { change (chat_id n) with (d_id (data_of n)). by rewrite Hd. }
  split; [exact Hkey|]. intros Hk. split; [|split].
  - rewrite Hkey. apply strncpy_short. unfold MAX_ID_LEN in *. lia.
  - intros Hnin. by destruct (Habs Hnin) as (_ & _ & ?).
  - intros Hin. by destruct (Hpres Hin) as (_ & ?).
Qed.

Lemma C3_witness :
  (∃ x n s',
     insert_chat 4 "d" "Notes" 300 demo_state = Some (x, s') ∧
     root (tree s') = Some x ∧ mem s' !! x = Some n ∧
     chat_id n = "d"%string ∧ size (tree s') = size (tree demo_state) + 1) ∧
  (∃ x n s',
     insert_chat 4 "c" "Notes" 300 demo_state = Some (x, s') ∧
     root (tree s') = Some x ∧ mem s' !! x = Some n ∧
     chat_id n = "c"%string ∧ size (tree s') = size (tree demo_state)).
Proof.
  split.
  - destruct (C3_insert_root_and_size 4 "d" "Notes" 300 demo_state demo_tree demo_inv
                eq_refl eq_refl) as (x & n & s' & Hrun & Hroot & Hn & _ & Hshort).
    destruct Hshort as (Hkey & Habs & _); [vm_compute; lia|].
    exists x, n, s'. repeat (split; [assumption|]). apply Habs.
    vm_compute. intros H.
    repeat (apply elem_of_cons in H as [H|H]; [discriminate H|]).
    by apply elem_of_nil in H.
  - destruct (C3_insert_root_and_size 4 "c" "Notes" 300 demo_state demo_tree demo_inv
                eq_refl eq_refl) as (x & n & s' & Hrun & Hroot & Hn & _ & Hshort).
    destruct Hshort as (Hkey & _ & Hpres); [vm_compute; lia|].
    exists x, n, s'. repeat (split; [assumption|]). apply Hpres.
    vm_compute. apply list_elem_of_further, list_elem_of_further, list_elem_of_here.
Defined.

(** C6, as stated, fails: after inserting the key ["a"] with [title256] the
    node does not have that title but its first 255 characters. *)
Lemma C6_counterexample :
  (snd <$> (insert_chat 2 "a" "X" 1;; insert_chat 2 "a" title256 2) create_splay_tree)
    ≫= root_title = Some (replicate_char 255 "t") ∧
  replicate_char 255 "t" ≠ title256.
Proof. split; [vm_compute; reflexivity|discriminate]. Qed.

(** C6, amended. For a key of at most 63 characters, a second [insert_chat]
    of the key leaves the size as the first left it, and the node that
    [find_node] then finds for the key is the node of the first insert, with
    the first 255 characters of the second title and with the second
    timestamp. *)
Theorem C6_insert_last_write_wins fuel k ti1 ts1 ti2 ts2 s t :
  tree_inv s t →
  (String.length k < MAX_ID_LEN)%nat →
  size (tree s) + 1 < INT_MAX →
  size (tree s) + 1 < Z.of_nat fuel →
  ∃ x s1 s2 n,
    insert_chat fuel k ti1 ts1 s = Some (x, s1) ∧
    insert_chat fuel k ti2 ts2 s1 = Some (x, s2) ∧
    size (tree s2) = size (tree s1) ∧
    find_node fuel k s2 = Some (Some x, s2) ∧
    mem s2 !! x = Some n ∧
    chat_id n = k ∧ title n = strncpy ti2 (MAX_TITLE_LEN - 1) ∧ timestamp n = ts2.
Proof.
  intros Hinv Hk Hroom Hfuel.
  destruct (insert_chat_spec fuel k ti1 ts1 s t Hinv ltac:(lia)
              (fuel_of_size s t fuel Hinv ltac:(lia)))
    as (x & s1 & l1 & r1 & e1 & e2 & Hrun1 & Hwf1 & Hent1 & Hpres1 & Habs1 & Hinv1).
  specialize (Hinv1 Hk).
  assert (stored k ti1 ts1 = mkData k (strncpy ti1 (MAX_TITLE_LEN - 1)) ts1) as Hst1.
  { unfold stored. f_equal. apply strncpy_short. unfold MAX_ID_LEN in *. lia. }
  assert (stored k ti2 ts2 = mkData k (strncpy ti2 (MAX_TITLE_LEN - 1)) ts2) as Hst2.
  { unfold stored. f_equal. apply strncpy_short. unfold MAX_ID_LEN in *. lia. }
  assert (size (tree s1) ≤ size (tree s) + 1) as Hsz1.
  { destruct (decide (k ∈ keys t)) as [Hin|Hnin].
    - destruct (Hpres1 Hin) as (_ & ->). lia.
    - destruct (Habs1 Hnin) as (_ & _ & ->). lia. }
  set (t1 := Node l1 x (stored k ti1 ts1) r1) in *.
  assert (k ∈ keys t1) as Hin1.
  { unfold t1. rewrite keys_node, Hst1. mem_tac. }
  destruct (insert_chat_spec fuel k ti2 ts2 s1 t1 Hinv1 ltac:(lia)
              (fuel_of_size s1 t1 fuel Hinv1 ltac:(lia)))
    as (x2 & s2 & l2 & r2 & e1' & e2' & Hrun2 & Hwf2 & Hent2 & Hpres2 & _ & Hinv2).
  specialize (Hinv2 Hk).
  destruct (Hpres2 Hin1) as ((dx & Hent1' & Hkx) & Hsz2).
  (* the node of the second insert is the node of the first *)
  assert (x2 = x) as ->.
  { pose proof (inv_sorted _ _ Hinv1) as Hs. unfold sorted in Hs.
    rewrite keys_entries in Hs.
    assert ((x, stored k ti1 ts1) ∈ entries t1) as Hx by (rewrite Hent1; mem_tac).
    rewrite Hent1' in Hx, Hs. rewrite map_app in Hs. cbn [map] in Hs.
    apply sorted_remove in Hs as [_ Hs].
    change (key_of (x2, dx)) with (d_id dx) in Hs. rewrite Hkx in Hs.
    apply elem_of_app in Hx as [Hx|Hx].
    - exfalso. apply Hs. rewrite <- map_app. apply list_elem_of_fmap.
      exists (x, stored k ti1 ts1). split; [by rewrite Hst1|]. apply elem_of_app. by left.
    - apply elem_of_cons in Hx as [Hx|Hx]; [congruence|].
      exfalso. apply Hs. rewrite <- map_app. apply list_elem_of_fmap.
      exists (x, stored k ti1 ts1). split; [by rewrite Hst1|]. apply elem_of_app. by right. }
  pose proof Hwf2 as (Hroot2 & (n & Hn & Hd & _) & _).
  exists x, s1, s2, n. split; [exact Hrun1|]. split; [exact Hrun2|]. split; [exact Hsz2|].
  split.
  { destruct (find_node_spec fuel k s2 _ Hwf2 (inv_sorted _ _ Hinv2)) as (res & Hfind & Hres).
    { apply Nat2Z.inj_lt. rewrite <- (inv_size _ _ Hinv2). lia. }
    rewrite Hfind. f_equal. f_equal.
    unfold find_node in Hfind. rewrite bind_get_root, Hroot2 in Hfind.
    destruct fuel as [|fuel]; [pose proof (inv_size _ _ Hinv); lia|].
    cbn [find_loop root_of] in Hfind.
    erewrite bind_get in Hfind by exact Hn.
    assert (chat_id n = k) as Hkn.
    { change (chat_id n) with (d_id (data_of n)). by rewrite Hd, Hst2. }
    rewrite Hkn, (proj2 (strcmp_eq k k) eq_refl) in Hfind. cbn in Hfind.
    unfold ret in Hfind. congruence. }
  split; [exact Hn|].
  rewrite Hst2 in Hd. unfold data_of in Hd. by injection Hd.
Qed.

Lemma C6_witness :
  ∃ x s1 s2 n,
    insert_chat 6 "b" "X" 1 demo_state = Some (x, s1) ∧
    insert_chat 6 "b" "Y" 2 s1 = Some (x, s2) ∧
    size (tree s2) = size (tree s1) ∧
    find_node 6 "b" s2 = Some (Some x, s2) ∧
    mem s2 !! x = Some n ∧
    chat_id n = "b"%string ∧ title n = strncpy "Y" (MAX_TITLE_LEN - 1) ∧ timestamp n = 2.
Proof.
  apply (C6_insert_last_write_wins 6 "b" "X" 1 "Y" 2 demo_state demo_tree demo_inv);
    [vm_compute; lia|reflexivity|reflexivity].
Defined.

(** ** Sequences of operations *)

(** Operations whose keys fit [chat_id] keep the tree a search tree. *)
Lemma run_ops_inv fuel ops : ∀ s t,
  tree_inv s t →
  Forall short_key ops →
  size (tree s) + Z.of_nat (length ops) ≤ INT_MAX →
  size (tree s) + Z.of_nat (length ops) ≤ Z.of_nat fuel →
  ∃ s' t', run_ops fuel ops s = Some (tt, s') ∧ tree_inv s' t' ∧
           size (tree s') ≤ size (tree s) + Z.of_nat (length ops).
Proof.
  induction ops as [|o ops IH]; intros s t Hinv Hshort Hroom Hfuel.
  - exists s, t. cbn [length]. split; [done|]. split; [done|]. lia.
  - apply Forall_cons in Hshort as [Ho Hshort]. cbn [length] in Hroom, Hfuel.
    assert (∃ s1 t1, run_op fuel o s = Some (tt, s1) ∧ tree_inv s1 t1 ∧
                     size (tree s1) ≤ size (tree s) + 1) as (s1 & t1 & Hrun1 & Hinv1 & Hsz1).
    { destruct o as [id ti ts|id]; cbn [run_op short_key] in *.
      - destruct (insert_chat_spec fuel id ti ts s t Hinv ltac:(lia)
                    (fuel_of_size s t fuel Hinv ltac:(lia)))
          as (x & s1 & l1 & r1 & e1 & e2 & Hrun1 & _ & _ & Hpres & Habs & Hinv1).
        exists s1, (Node l1 x (stored id ti ts) r1).
        rewrite (bind_run _ _ _ _ _ Hrun1). split; [done|]. split; [by apply Hinv1|].
        destruct (decide (id ∈ keys t)) as [Hin|Hnin].
        + destruct (Hpres Hin) as (_ & ->). lia.
        + destruct (Habs Hnin) as (_ & _ & ->). lia.
      - destruct (delete_chat_spec fuel id s t Hinv (fuel_of_size s t fuel Hinv ltac:(lia)))
          as [Habs Hpres].
        destruct (decide (id ∈ keys t)) as [Hin|Hnin].
        + destruct (Hpres Hin) as (s1 & t1 & _ & _ & _ & _ & Hrun1 & Hinv1 & _ & _ & _ & Hsz & _).
          exists s1, t1. rewrite (bind_run _ _ _ _ _ Hrun1). split; [done|]. split; [done|]. lia.
        + exists s, t. rewrite (bind_run _ _ _ _ _ (Habs Hnin)). split; [done|]. split; [done|]. lia. }
    destruct (IH s1 t1 Hinv1 Hshort ltac:(lia) ltac:(lia)) as (s' & t' & Hrun & Hinv' & Hsz').
    exists s', t'. cbn [run_ops]. rewrite (bind_run _ _ _ _ _ Hrun1).
    split; [done|]. split; [done|]. cbn [length]. lia.
Qed.

Lemma collect_keys_spec fuel s t :
  tree_inv s t → size (tree s) < Z.of_nat fuel →
  collect_keys fuel s = Some (take MAX_CHATS (keys t), s).
Proof.
  intros Hinv Hfuel.
  destruct (collect_root_spec fuel s t Hinv Hfuel) as (nodes & Hrun & _ & Hkeys).
  unfold collect_keys. rewrite bind_get_root, (bind_run _ _ _ _ _ Hrun). by rewrite Hkeys.
Qed.

(** From the empty tree, operations whose keys have at most 63 characters
    leave a tree whose collected keys ascend strictly. *)
Lemma short_keys_collect_sorted fuel ops :
  Forall short_key ops →
  Z.of_nat (length ops) < INT_MAX →
  (length ops < fuel)%nat →
  ∃ ks s', (run_ops fuel ops;; collect_keys fuel) create_splay_tree = Some (ks, s') ∧
           StronglySorted slt ks.
Proof.
  intros Hshort Hroom Hfuel.
  destruct (run_ops_inv fuel ops create_splay_tree Leaf tree_inv_empty Hshort)
    as (s' & t' & Hrun & Hinv' & Hsz'); [cbn; lia..|].
  assert (size (tree s') < Z.of_nat fuel) as Hfuel' by (cbn in Hsz'; lia).
  exists (take MAX_CHATS (keys t')), s'.
  rewrite (bind_run _ _ _ _ _ Hrun). split; [by apply collect_keys_spec|].
  pose proof (inv_sorted _ _ Hinv') as Hs. unfold sorted in Hs.
  rewrite <- (take_drop MAX_CHATS (keys t')) in Hs.
  by apply StronglySorted_app_1_l in Hs.
Qed.

(** C1 (code defect). Inserting [key64] twice from the empty tree leaves two
    nodes with the same stored key: the collected keys are not strictly
    ascending. *)
Theorem C1_long_key_breaks_order :
  fst <$> (run_ops 3 [Insert key64 "first" 1; Insert key64 "second" 2];; collect_keys 3)
            create_splay_tree
    = Some [replicate_char 63 "k"; replicate_char 63 "k"] ∧
  ¬ StronglySorted slt [replicate_char 63 "k"; replicate_char 63 "k"].
Proof.
  split; [vm_compute; reflexivity|].
  intros H. apply StronglySorted_cons in H as [H _]. apply Forall_cons in H as [H _].
  by apply slt_irrefl in H.
Qed.

(** C10 (code defect). Two keys of 64 characters that agree on their first
    63 characters: the second [insert_chat] does not update the node of the
    first but adds a node, so that the tree has two nodes with the same stored
    key; the node of the first insert keeps its title, as deleting the stored
    key once shows. *)
Theorem C10_truncated_keys_do_not_meet :
  let k1 := (replicate_char 63 "k" ++ "a")%string in
  let k2 := (replicate_char 63 "k" ++ "b")%string in
  strncpy k1 (MAX_ID_LEN - 1) = strncpy k2 (MAX_ID_LEN - 1) ∧
  (λ r, (size (tree (snd r)), fst r)) <$>
    (insert_chat 3 k1 "first" 1;; insert_chat 3 k2 "second" 2;; collect_keys 3)
      create_splay_tree
    = Some (2, [replicate_char 63 "k"; replicate_char 63 "k"]) ∧
  (snd <$> (insert_chat 3 k1 "first" 1;; insert_chat 3 k2 "second" 2;;
            delete_chat 3 (replicate_char 63 "k")) create_splay_tree) ≫= root_title
    = Some "first"%string.
Proof. cbn zeta. repeat split; vm_compute; reflexivity. Qed.

(** ** Listing by recency *)


#[global] Instance newer_first_trans : Transitive newer_first.
Proof. unfold newer_first. intros a b c. lia. Qed.



Lemma read_nodes_entries h par t (es : list (addr * data)) :
  wf h par t → es ⊆ entries t →
  ∃ ns, read_nodes h (map fst es) = Some ns ∧ map data_of ns = map snd es.
Proof.
  intros Hwf. induction es as [|[a d] es IH]; intros Hsub; [by exists []|].
  cbn [map fst read_nodes].
  destruct (wf_entries h par t a d Hwf) as (n & Hn & Hd); [apply Hsub; mem_tac|].
  destruct IH as (ns & Hns & Hds); [intros e He; apply Hsub; by apply list_elem_of_further|].
  exists (n :: ns). rewrite Hn, Hns. split; [done|]. cbn [map snd]. by rewrite Hd, Hds.
Qed.


(** The merge sort of [qsort] and the insertion sort of the specification. *)
Section Sorting.
Implicit Types (l : list ChatNode) (n m : ChatNode).














End Sorting.




(** The five sessions of [five_state]: collected by key, listed by recency,
    b before d and a before c. *)
Example list_five :
  collected_nodes 6 five_state ≫= (λ ns, Some (map chat_id ns, map chat_id (qsort compare_by_timestamp ns)))
  = Some (["a"; "b"; "c"; "d"; "e"], ["b"; "d"; "e"; "a"; "c"])%string.
Proof. vm_compute. reflexivity. Qed.

(** ** Persistence of titles *)

(** C8 (code defect). The title of the three characters a, backslash, b is
    saved with the backslash doubled and read back with the backslash still
    doubled: four characters. *)
Theorem C8_backslash_not_restored :
  let t := String "a" (String backslash_char (String "b" EmptyString)) in
  ∀ rest,
    json_escape t (2 * Z.of_nat MAX_TITLE_LEN)
      = String "a" (String backslash_char (String backslash_char (String "b" EmptyString))) ∧
    reload_title t rest
      = String "a" (String backslash_char (String backslash_char (String "b" EmptyString))) ∧
    reload_title t rest ≠ drop_returns t.
Proof.
  cbn zeta. intros rest. split; [vm_compute; reflexivity|].
  assert (reload_title (String "a" (String backslash_char (String "b" EmptyString))) rest
          = String "a" (String backslash_char (String backslash_char (String "b" EmptyString))))
    as Hload.
  { destruct rest; vm_compute; reflexivity. }
  split; [exact Hload|]. rewrite Hload. vm_compute. discriminate.
Qed.

Lemma append_empty_l (s : string) : (EmptyString ++ s)%string = s.
Proof. reflexivity. Qed.

Lemma append_cons_l c (s1 s2 : string) : (String c s1 ++ s2)%string = String c (s1 ++ s2).
Proof. reflexivity. Qed.

Ltac str_norm :=
  repeat first [ rewrite append_cons_l | rewrite append_empty_l ];
  cbn [String.length load_title].

(** Titles without a backslash are restored, up to the carriage returns that
    [json_escape] skips. *)
Lemma load_title_escape rest t : ∀ j i,
  no_backslash t →
  0 ≤ j → j + 2 * Z.of_nat (String.length t) ≤ 2 * Z.of_nat MAX_TITLE_LEN - 2 →
  (i + String.length t < MAX_TITLE_LEN)%nat →
  load_title (json_escape_loop t j (2 * Z.of_nat MAX_TITLE_LEN) ++ after_title rest) i
  = drop_returns t.
Proof.
  induction t as [|c t IH]; intros j i Hnb Hj0 Hj Hi.
  - cbn [json_escape_loop]. unfold after_title. str_norm.
    destruct (i <? MAX_TITLE_LEN - 1)%nat; [|done].
    change (Ascii.eqb quote_char quote_char) with true.
    change (Ascii.eqb quote_char backslash_char) with false.
    destruct rest; reflexivity.
  - destruct Hnb as [Hc Hnb]. cbn [String.length] in Hj, Hi.
    cbn [json_escape_loop drop_returns].
    destruct (Z.ltb_spec j (2 * Z.of_nat MAX_TITLE_LEN - 2)) as [_|?]; [|lia].
    assert ((i <? MAX_TITLE_LEN - 1)%nat = true) as Hlt by (apply Nat.ltb_lt; lia).
    destruct (Ascii.eqb_spec c backslash_char) as [?|_]; [done|].
    rewrite orb_false_r.
    destruct (Ascii.eqb_spec c quote_char) as [->|Hq];
      [|destruct (Ascii.eqb_spec c newline_char) as [->|Hn];
        [|destruct (Ascii.eqb_spec c return_char) as [->|Hr]]].
    + (* a quote *)
      change (Ascii.eqb quote_char newline_char) with false.
      change (Ascii.eqb quote_char return_char) with false.
      cbn iota. str_norm. rewrite Hlt.
      change (Ascii.eqb backslash_char backslash_char) with true.
      change (Ascii.eqb quote_char quote_char) with true.
      cbn [andb]. f_equal. apply IH; [done|lia|lia|lia].
    + (* a newline *)
      cbn iota. str_norm. rewrite Hlt.
      change (Ascii.eqb backslash_char backslash_char) with true.
      change (Ascii.eqb n_char quote_char) with false.
      change (Ascii.eqb n_char n_char) with true.
      change (Ascii.eqb newline_char return_char) with false.
      cbn [andb]. f_equal. apply IH; [done|lia|lia|lia].
    + (* a carriage return: skipped *)
      cbn iota. str_norm. apply IH; [done|lia|cbn [Z.of_nat]; lia|lia].
    + (* any other character *)
      cbn iota. str_norm. rewrite Hlt.
      destruct (Ascii.eqb_spec c backslash_char) as [?|_]; [done|].
      destruct (Ascii.eqb_spec c quote_char) as [?|_]; [done|].
      cbn [andb].
      destruct (json_escape_loop t (j + Z.of_nat 1) (2 * Z.of_nat MAX_TITLE_LEN) ++ after_title rest)%string
        eqn:E; rewrite <- ?E; f_equal; apply IH; try done; lia.
Qed.

Lemma reload_title_no_backslash t rest :
  no_backslash t → (String.length t < MAX_TITLE_LEN)%nat →
  reload_title t rest = drop_returns t.
Proof.
  intros Hnb Hlen. unfold reload_title, json_escape.
  apply load_title_escape; [done|lia| |lia].
  unfold MAX_TITLE_LEN in *. lia.
Qed.

(** * The operations, one by one, and the history file

    What follows covers the functions of the program that the statements
    above do not reach: the rotations and [splay] on their own, the tree
    seen as a finite map, the nodes that are allocated, [find_min],
    [clear_all], the comparator, [json_escape], [load_from_file],
    [save_to_file] and [main]. *)

(** ** Nodes of the tree *)

Lemma in_addrs_plug x t : ∀ c0,
  x ∈ addrs t → ∃ c l d r, plug c0 t = plug c (Node l x d r).
Proof.
  induction t as [|l IHl a d r IHr]; intros c0 Hin.
  - rewrite addrs_leaf in Hin. by apply elem_of_nil in Hin.
  - rewrite addrs_node in Hin. apply elem_of_app in Hin as [Hin|Hin].
    + destruct (IHl (mkFrame DL a d r :: c0) Hin) as (c & l' & d' & r' & H).
      exists c, l', d', r'. exact H.
    + apply elem_of_cons in Hin as [->|Hin].
      * by exists c0, l, d, r.
      * destruct (IHr (mkFrame DR a d l :: c0) Hin) as (c & l' & d' & r' & H).
        exists c, l', d', r'. exact H.
Qed.

Lemma node_eq n n' :
  data_of n = data_of n' → parent n = parent n' → left n = left n' → right n = right n' →
  n = n'.
Proof.
  destruct n, n'; cbn. unfold data_of; cbn. intros [= -> -> ->] -> -> ->. done.
Qed.

Lemma wf_agree h h' par t q :
  wf h par t → wf h' par t → q ∈ addrs t → h !! q = h' !! q.
Proof.
  revert par. induction t as [|l IHl a d r IHr]; intros par H H' Hin.
  - rewrite addrs_leaf in Hin. by apply elem_of_nil in Hin.
  - destruct H as (n & Hn & Hd & Hp & Hl & Hr & Hwl & Hwr).
    destruct H' as (n' & Hn' & Hd' & Hp' & Hl' & Hr' & Hwl' & Hwr').
    rewrite addrs_node in Hin. apply elem_of_app in Hin as [Hin|Hin].
    + by apply (IHl (Some a)).
    + apply elem_of_cons in Hin as [->|Hin].
      * rewrite Hn, Hn'. f_equal. apply node_eq; congruence.
      * by apply (IHr (Some a)).
Qed.

Lemma state_eq s s' : mem s = mem s' → root (tree s) = root (tree s') →
  size (tree s) = size (tree s') → s = s'.
Proof. destruct s as [m [r z]], s' as [m' [r' z']]; cbn. by intros -> -> ->. Qed.

(** Two states that hold the same tree and agree outside it are equal. *)
Lemma wf_state_unique s s' t :
  wf_state s t → wf_state s' t → size (tree s') = size (tree s) →
  (∀ q, q ∉ addrs t → mem s' !! q = mem s !! q) → s' = s.
Proof.
  intros (Hroot & Hwf & _) (Hroot' & Hwf' & _) Hsz Hfr.
  apply state_eq; [|congruence|done].
  apply map_eq. intros q. destruct (decide (q ∈ addrs t)) as [Hin|Hout].
  - by apply (wf_agree _ _ None t).
  - by apply Hfr.
Qed.

(** ** Rotations at any node *)

Lemma rotate_right_no_left s x n :
  mem s !! x = Some n → left n = None → rotate_right x s = Some (tt, s).
Proof. intros Hn Hl. unfold rotate_right. exec. by rewrite Hl. Qed.

Lemma rotate_left_no_right s x n :
  mem s !! x = Some n → right n = None → rotate_left x s = Some (tt, s).
Proof. intros Hn Hl. unfold rotate_left. exec. by rewrite Hl. Qed.

(** X1. [rotate_right] and [rotate_left] at any node [x] of a well-linked
    tree (ordered or not) run without failing and leave a well-linked tree
    with the same in-order sequence of nodes and data, and the same size
    field; at a node without the child to lift they leave the state as it
    is. *)
Theorem X1_rotations_keep_order s t x :
  wf_state s t → x ∈ addrs t →
  ∃ n, mem s !! x = Some n ∧
    (∃ s' t', rotate_right x s = Some (tt, s') ∧ wf_state s' t' ∧
              entries t' = entries t ∧ size (tree s') = size (tree s)) ∧
    (left n = None → rotate_right x s = Some (tt, s)) ∧
    (∃ s' t', rotate_left x s = Some (tt, s') ∧ wf_state s' t' ∧
              entries t' = entries t ∧ size (tree s') = size (tree s)) ∧
    (right n = None → rotate_left x s = Some (tt, s)).
Proof.
  intros Hs Hin.
  destruct (in_addrs_plug x t [] Hin) as (c & l & d & r & Ht). cbn [plug] in Ht. subst t.
  pose proof Hs as (_ & Hwf & _). apply wf_plug in Hwf as [_ Hx].
  destruct Hx as (n & Hn & _ & _ & Hl & Hr & _ & _).
  exists n. split; [exact Hn|].
  split; [|split; [by apply rotate_right_no_left|split; [|by apply rotate_left_no_right]]].
  - destruct l as [|a y dy b].
    + exists s, (plug c (Node Leaf x d r)). by rewrite (rotate_right_no_left s x n).
    + destruct (rotate_right_spec s c a y dy b x d r Hs) as (s' & Hrun & Hs' & Hsz & _).
      exists s', (plug c (Node a y dy (Node b x d r))).
      repeat split; try done; try apply Hs'.
      rewrite !entries_plug. by rewrite entries_rot.
  - destruct r as [|a y dy b].
    + exists s, (plug c (Node l x d Leaf)). by rewrite (rotate_left_no_right s x n).
    + destruct (rotate_left_spec s c l x d a y dy b Hs) as (s' & Hrun & Hs' & Hsz & _).
      exists s', (plug c (Node (Node l x d a) y dy b)).
      repeat split; try done; try apply Hs'.
      rewrite !entries_plug. by rewrite entries_rot.
Qed.

Lemma X1_witness :
  (∃ n, mem demo_state !! 1%positive = Some n ∧
     (∃ s' t', rotate_right 1%positive demo_state = Some (tt, s') ∧ wf_state s' t' ∧
               entries t' = entries demo_tree ∧ size (tree s') = size (tree demo_state)) ∧
     (left n = None → rotate_right 1%positive demo_state = Some (tt, demo_state)) ∧
     (∃ s' t', rotate_left 1%positive demo_state = Some (tt, s') ∧ wf_state s' t' ∧
               entries t' = entries demo_tree ∧ size (tree s') = size (tree demo_state)) ∧
     (right n = None → rotate_left 1%positive demo_state = Some (tt, demo_state))) ∧
  rotate_right 2%positive demo_state = Some (tt, demo_state) ∧
  rotate_left 2%positive demo_state = Some (tt, demo_state).
Proof.
  split.
  - apply (X1_rotations_keep_order demo_state demo_tree 1%positive (inv_wf _ _ demo_inv)).
    vm_compute. apply list_elem_of_further, list_elem_of_here.
  - destruct (X1_rotations_keep_order demo_state demo_tree 2%positive (inv_wf _ _ demo_inv))
      as (n & Hn & _ & Hright & _ & Hleft).
    { vm_compute. apply list_elem_of_here. }
    vm_compute in Hn. injection Hn as <-.
    split; [by apply Hright|by apply Hleft].
Defined.

(** X2. [rotate_left] undoes [rotate_right]: at a node [x] with a left
    child [y], [rotate_right (tree, x)] followed by [rotate_left (tree, y)]
    gives back the state, every link and the root included. *)
Theorem X2_rotate_left_undoes_right s t x n y :
  wf_state s t → x ∈ addrs t → mem s !! x = Some n → left n = Some y →
  (rotate_right x;; rotate_left y) s = Some (tt, s).
Proof.
  intros Hs Hin Hn Hl.
  destruct (in_addrs_plug x t [] Hin) as (c & l & d & r & Ht). cbn [plug] in Ht. subst t.
  pose proof Hs as (_ & Hwf & _). apply wf_plug in Hwf as [_ Hx].
  destruct Hx as (n' & Hn' & _ & _ & Hl' & _).
  assert (n' = n) as -> by congruence.
  destruct l as [|a y' dy b]; cbn [root_of] in Hl'; [congruence|].
  assert (y' = y) as -> by congruence.
  destruct (rotate_right_spec s c a y dy b x d r Hs) as (s1 & Hrun1 & Hs1 & Hsz1 & Hfr1).
  destruct (rotate_left_spec s1 c a y dy b x d r Hs1) as (s2 & Hrun2 & Hs2 & Hsz2 & Hfr2).
  rewrite (bind_run _ _ _ _ _ Hrun1), Hrun2. do 2 f_equal.
  apply (wf_state_unique s s2 _ Hs Hs2); [congruence|].
  intros q Hq. rewrite Hfr2, Hfr1; [done|done|].
  by rewrite <- (addrs_plug_eq c _ _ (entries_rot a y dy b x d r)).
Qed.

Lemma X2_witness :
  (rotate_right 1%positive;; rotate_left 2%positive) demo_state = Some (tt, demo_state).
Proof.
  apply (X2_rotate_left_undoes_right demo_state demo_tree 1%positive
           (mkNode "b" "Recipe Ideas" 200 (Some 2%positive) (Some 3%positive) None)
           2%positive (inv_wf _ _ demo_inv)).
  - vm_compute. apply list_elem_of_further, list_elem_of_here.
  - vm_compute. reflexivity.
  - reflexivity.
Defined.

(** ** Splaying any node, and accessing twice *)

(** X3. [splay] needs no order: for a well-linked tree and any of its
    nodes [x], with fuel for the number of nodes, [splay (tree, x)] ends with
    [x] at the root of a well-linked tree that has the same in-order sequence
    and the same size field, and writes no node outside the tree. *)
Theorem X3_splay_any_node fuel s t x :
  wf_state s t → x ∈ addrs t → (length (entries t) ≤ fuel)%nat →
  ∃ s' l d r,
    splay fuel (Some x) s = Some (tt, s') ∧
    wf_state s' (Node l x d r) ∧
    entries (Node l x d r) = entries t ∧
    size (tree s') = size (tree s) ∧
    (∀ q, q ∉ addrs t → mem s' !! q = mem s !! q).
Proof.
  intros Hs Hin Hfuel.
  destruct (in_addrs_plug x t [] Hin) as (c & l & d & r & Ht). cbn [plug] in Ht. subst t.
  destruct (splay_loop_spec fuel s c l x d r Hs) as (s' & l' & r' & Hrun & Hs' & Hent & Hsz & Hfr).
  { pose proof (ctx_length c). rewrite count_plug in Hfuel.
    cbn [entries] in Hfuel. rewrite length_app in Hfuel. cbn [length] in Hfuel. lia. }
  exists s', l', d, r'. done.
Qed.

Lemma X3_witness :
  ∃ s' l d r,
    splay 3 (Some 3%positive) demo_state = Some (tt, s') ∧
    wf_state s' (Node l 3%positive d r) ∧
    entries (Node l 3%positive d r) = entries demo_tree ∧
    size (tree s') = size (tree demo_state) ∧
    (∀ q, q ∉ addrs demo_tree → mem s' !! q = mem demo_state !! q).
Proof.
  apply (X3_splay_any_node 3 demo_state demo_tree 3%positive (inv_wf _ _ demo_inv)).
  - vm_compute. apply list_elem_of_further, list_elem_of_further, list_elem_of_here.
  - vm_compute. lia.
Defined.

Lemma strcmp_refl k : strcmp k k = 0.
Proof. by apply strcmp_eq. Qed.

(** X4. Accessing a key a second time changes nothing: after
    [access_chat (tree, k)], a second [access_chat (tree, k)] returns the
    same node (or [NULL] again) and leaves the state as it is. *)
Theorem X4_access_again fuel k s t :
  tree_inv s t → size (tree s) < Z.of_nat fuel →
  ∃ r s1, access_chat fuel k s = Some (r, s1) ∧ access_chat fuel k s1 = Some (r, s1).
Proof.
  intros Hinv Hfuel.
  pose proof (fuel_of_size s t fuel Hinv Hfuel) as Hf.
  destruct (access_chat_spec fuel k s t Hinv Hf) as [Habs Hpres].
  destruct (decide (k ∈ keys t)) as [Hin|Hout].
  - destruct (Hpres Hin) as (x & s1 & l & d & r & Hrun & Hinv1 & Hk & _).
    exists (Some x), s1. split; [done|].
    destruct Hinv1 as [(Hroot & (n & Hn & Hd & Hp & _) & _) _ _ _ _].
    destruct fuel as [|fuel]; [lia|].
    unfold access_chat, find_node. exec. rewrite Hroot. cbn [root_of find_loop].
    exec. assert (chat_id n = k) as -> by (rewrite <- Hk, <- Hd; done).
    rewrite strcmp_refl. cbn [Z.eqb]. exec.
    cbn [splay splay_loop]. exec. rewrite Hp. by exec.
  - exists None, s. by rewrite (Habs Hout).
Qed.

Lemma X4_witness :
  ∃ r s1, access_chat 4 "c" demo_state = Some (r, s1) ∧ access_chat 4 "c" s1 = Some (r, s1).
Proof. exact (X4_access_again 4 "c" demo_state demo_tree demo_inv eq_refl). Defined.

(** ** The tree as a finite map *)

Lemma assoc_notin k es : k ∉ map key_of es → assoc k es = None.
Proof.
  induction es as [|e es IH]; [done|]. cbn [map assoc]. intros Hn.
  rewrite decide_False; [apply IH|].
  - intros H. apply Hn. by apply list_elem_of_further.
  - intros H. apply Hn. rewrite H. apply list_elem_of_here.
Qed.

Lemma assoc_app k e1 e2 :
  assoc k (e1 ++ e2) = match assoc k e1 with Some d => Some d | None => assoc k e2 end.
Proof.
  induction e1 as [|e e1 IH]; [done|]. cbn [app assoc].
  by destruct (decide (key_of e = k)).
Qed.

Lemma assoc_mid k e1 x d e2 :
  NoDup (map key_of (e1 ++ (x, d) :: e2)) →
  assoc k (e1 ++ (x, d) :: e2) = if decide (d_id d = k) then Some d else assoc k (e1 ++ e2).
Proof.
  intros Hnd. rewrite !assoc_app. cbn [assoc].
  change (key_of (x, d)) with (d_id d).
  destruct (decide (d_id d = k)) as [<-|Hne]; [|done].
  rewrite assoc_notin; [done|].
  rewrite map_app in Hnd. cbn [map] in Hnd. apply NoDup_app in Hnd as (_ & Hnd & _).
  intros Hin. apply (Hnd _ Hin). apply list_elem_of_here.
Qed.

Lemma sorted_NoDup (l : list string) : StronglySorted slt l → NoDup l.
Proof.
  induction 1 as [|a l Hs IH Ha]; [constructor|].
  apply NoDup_cons. split; [|done].
  intros Hin. rewrite Forall_forall in Ha. by apply (slt_irrefl a), Ha.
Qed.

Lemma tree_inv_NoDup s t : tree_inv s t → NoDup (map key_of (entries t)).
Proof. intros [_ Hsorted _ _ _]. rewrite <- keys_entries. by apply sorted_NoDup. Qed.

Lemma lookup_chat_spec fuel k s t :
  tree_inv s t → (length (entries t) < fuel)%nat →
  lookup_chat fuel k s = Some (assoc k (entries t), s).
Proof.
  intros Hinv Hfuel. pose proof (tree_inv_NoDup s t Hinv) as Hnd.
  destruct Hinv as [Hwf Hsorted _ _ _].
  destruct (find_node_spec fuel k s t Hwf Hsorted Hfuel) as (res & Hfind & Hres).
  unfold lookup_chat. rewrite (bind_run _ _ _ _ _ Hfind).
  destruct res as [x|].
  - destruct Hres as (c & l & d & r & -> & Hk).
    destruct Hwf as (_ & Hwf & _). apply wf_plug in Hwf as [_ (n & Hn & Hd & _)].
    exec. unfold ret. do 2 f_equal.
    rewrite entries_plug in Hnd |- *. cbn [entries] in Hnd |- *.
    rewrite !app_assoc in Hnd |- *. rewrite <- (app_assoc _ (_ :: _)) in Hnd |- *.
    cbn [app] in Hnd |- *.
    rewrite (assoc_mid _ _ _ _ _ Hnd). rewrite decide_True by done. by rewrite Hd.
  - unfold ret. do 2 f_equal. symmetry. apply assoc_notin. by rewrite <- keys_entries.
Qed.

(** X5. Lookup after insert: after [insert_chat (tree, k, title, ts)] with
    a key that fits [chat_id], looking up [k] gives what was stored (the title
    cut to 255 characters), and looking up any other key gives what it gave
    before. *)
Theorem X5_lookup_after_insert fuel k ti ts s t :
  tree_inv s t →
  (String.length k < MAX_ID_LEN)%nat →
  size (tree s) < INT_MAX →
  size (tree s) + 1 < Z.of_nat fuel →
  ∃ x s', insert_chat fuel k ti ts s = Some (x, s') ∧
    ∀ k', ∃ r,
      lookup_chat fuel k' s = Some (r, s) ∧
      lookup_chat fuel k' s' =
        Some (if decide (k' = k) then Some (stored k ti ts) else r, s').
Proof.
  intros Hinv Hshort Hroom Hfuel.
  pose proof (inv_size _ _ Hinv) as Hsize.
  destruct (insert_chat_spec fuel k ti ts s t Hinv Hroom ltac:(lia))
    as (x & s' & l & r & e1 & e2 & Hrun & _ & Hent & Hpres & Habs & Hinv').
  specialize (Hinv' Hshort).
  exists x, s'. split; [exact Hrun|]. intros k'.
  exists (assoc k' (entries t)).
  split; [apply (lookup_chat_spec fuel k' s t Hinv); lia|].
  pose proof (tree_inv_NoDup _ _ Hinv') as Hnd'.
  assert (d_id (stored k ti ts) = k) as Hid.
  { cbn. apply strncpy_short. unfold MAX_ID_LEN in *. lia. }
  assert (length (entries (Node l x (stored k ti ts) r)) ≤ S (length (entries t)))%nat as Hlen.
  { rewrite Hent. destruct (decide (k ∈ keys t)) as [Hin|Hout].
    - destruct (Hpres Hin) as [(dx & -> & _) _]. rewrite !length_app. cbn [length]. lia.
    - destruct (Habs Hout) as (-> & _). rewrite !length_app. cbn [length]. lia. }
  rewrite (lookup_chat_spec fuel k' s' _ Hinv') by lia.
  do 2 f_equal. rewrite Hent in Hnd' |- *.
  rewrite (assoc_mid _ _ _ _ _ Hnd'), Hid.
  destruct (decide (k = k')) as [->|Hne].
  - by rewrite decide_True.
  - rewrite decide_False by congruence.
    destruct (decide (k ∈ keys t)) as [Hin|Hout].
    + destruct (Hpres Hin) as [(dx & Ht & Hdx) _].
      pose proof (tree_inv_NoDup _ _ Hinv) as Hnd. rewrite Ht in Hnd |- *.
      rewrite (assoc_mid _ _ _ _ _ Hnd). by rewrite decide_False by congruence.
    + destruct (Habs Hout) as (-> & _). done.
Qed.

Lemma X5_witness :
  ∃ x s', insert_chat 5 "d" "Notes" 300 demo_state = Some (x, s') ∧
    ∀ k', ∃ r,
      lookup_chat 5 k' demo_state = Some (r, demo_state) ∧
      lookup_chat 5 k' s' =
        Some (if decide (k' = "d"%string) then Some (stored "d" "Notes" 300) else r, s').
Proof.
  apply (X5_lookup_after_insert 5 "d" "Notes" 300 demo_state demo_tree demo_inv).
  - vm_compute. lia.
  - reflexivity.
  - reflexivity.
Defined.

(** X6. Lookup after delete: [delete_chat (tree, k)] returns 1 when [k]
    was found by a lookup and 0 otherwise; afterwards looking up [k] finds
    nothing, and looking up any other key gives what it gave before. *)
Theorem X6_lookup_after_delete fuel k s t :
  tree_inv s t →
  size (tree s) < Z.of_nat fuel →
  ∃ b s', delete_chat fuel k s = Some (b, s') ∧
    (∃ r, lookup_chat fuel k s = Some (r, s) ∧
          b = match r with Some _ => 1 | None => 0 end) ∧
    ∀ k', ∃ r,
      lookup_chat fuel k' s = Some (r, s) ∧
      lookup_chat fuel k' s' = Some (if decide (k' = k) then None else r, s').
Proof.
  intros Hinv Hfuel.
  pose proof (fuel_of_size s t fuel Hinv Hfuel) as Hf.
  pose proof (tree_inv_NoDup _ _ Hinv) as Hnd.
  destruct (delete_chat_spec fuel k s t Hinv Hf) as [Habs Hpres].
  destruct (decide (k ∈ keys t)) as [Hin|Hout].
  - destruct (Hpres Hin) as (s' & t' & e1 & x & d & e2 & Hrun & Hinv' & Ht & Hk & Ht' & Hsz & _).
    exists 1, s'. split; [exact Hrun|].
    assert (length (entries t') < fuel)%nat as Hf'.
    { rewrite Ht, length_app in Hf. cbn [length] in Hf. rewrite Ht', length_app. lia. }
    split.
    { exists (assoc k (entries t)).
      split; [by apply (lookup_chat_spec fuel k s t Hinv)|].
      rewrite Ht in Hnd |- *. rewrite (assoc_mid _ _ _ _ _ Hnd).
      by rewrite decide_True. }
    intros k'. exists (assoc k' (entries t)).
    split; [by apply (lookup_chat_spec fuel k' s t Hinv)|].
    rewrite (lookup_chat_spec fuel k' s' t' Hinv' Hf').
    rewrite Ht in Hnd |- *. rewrite (assoc_mid _ _ _ _ _ Hnd), Ht', Hk.
    destruct (decide (k = k')) as [->|Hne].
    + rewrite decide_True by done.
      do 2 f_equal. apply assoc_notin.
      rewrite map_app in Hnd |- *. cbn [map] in Hnd.
      change (key_of (x, d)) with (d_id d) in Hnd. rewrite Hk in Hnd.
      apply NoDup_app in Hnd as (_ & Hd1 & Hd2). apply NoDup_cons in Hd2 as [Hd2 _].
      intros [H|H]%elem_of_app; [|done]. apply (Hd1 _ H). apply list_elem_of_here.
    + by rewrite decide_False by congruence.
  - exists 0, s. split; [by apply Habs|].
    assert (assoc k (entries t) = None) as Hnone.
    { apply assoc_notin. by rewrite <- keys_entries. }
    split.
    { exists None. split; [|done].
      rewrite (lookup_chat_spec fuel k s t Hinv Hf). by rewrite Hnone. }
    intros k'. exists (assoc k' (entries t)).
    split; [by apply (lookup_chat_spec fuel k' s t Hinv)|].
    rewrite (lookup_chat_spec fuel k' s t Hinv Hf).
    destruct (decide (k' = k)) as [->|Hne]; [|done].
    by rewrite Hnone.
Qed.

Lemma X6_witness :
  ∃ b s', delete_chat 4 "b" demo_state = Some (b, s') ∧
    (∃ r, lookup_chat 4 "b" demo_state = Some (r, demo_state) ∧
          b = match r with Some _ => 1 | None => 0 end) ∧
    ∀ k', ∃ r,
      lookup_chat 4 k' demo_state = Some (r, demo_state) ∧
      lookup_chat 4 k' s' = Some (if decide (k' = "b"%string) then None else r, s').
Proof. exact (X6_lookup_after_delete 4 "b" demo_state demo_tree demo_inv eq_refl). Defined.

Lemma split_unique_key (e1 e2 e1' e2' : list (addr * data)) a b :
  NoDup (map key_of (e1 ++ a :: e2)) →
  e1 ++ a :: e2 = e1' ++ b :: e2' → key_of a = key_of b →
  e1' = e1 ∧ b = a ∧ e2' = e2.
Proof.
  intros Hnd Heq Hk. revert e1' Hnd Heq.
  induction e1 as [|e e1 IH]; intros [|e' e1'] Hnd Heq; cbn [app map] in *.
  - by injection Heq as <- <-.
  - injection Heq as -> Heq. exfalso. apply NoDup_cons in Hnd as [Hnd _].
    apply Hnd. rewrite Heq, map_app. cbn [map]. rewrite Hk. mem_tac.
  - injection Heq as -> Heq. exfalso. apply NoDup_cons in Hnd as [Hnd _].
    apply Hnd. rewrite map_app. cbn [map]. rewrite <- Hk. mem_tac.
  - injection Heq as <- Heq. apply NoDup_cons in Hnd as [_ Hnd].
    destruct (IH e1' Hnd Heq) as (-> & ? & ->). done.
Qed.

(** X7. Inserting a new key and deleting it again: the delete returns 1,
    the tree has the in-order sequence (nodes and data) and the size it had
    before the insert, and the node of the key is freed. *)
Theorem X7_insert_then_delete fuel k ti ts s t :
  tree_inv s t →
  (String.length k < MAX_ID_LEN)%nat →
  k ∉ keys t →
  size (tree s) < INT_MAX →
  size (tree s) + 1 < Z.of_nat fuel →
  ∃ x s1 s2 t2,
    insert_chat fuel k ti ts s = Some (x, s1) ∧
    delete_chat fuel k s1 = Some (1, s2) ∧
    tree_inv s2 t2 ∧ entries t2 = entries t ∧ size (tree s2) = size (tree s) ∧
    mem s2 !! x = None.
Proof.
  intros Hinv Hshort Hout Hroom Hfuel.
  pose proof (inv_size _ _ Hinv) as Hsize.
  destruct (insert_chat_spec fuel k ti ts s t Hinv Hroom ltac:(lia))
    as (x & s1 & l & r & e1 & e2 & Hrun1 & _ & Hent1 & _ & Habs & Hinv1).
  specialize (Hinv1 Hshort). destruct (Habs Hout) as (Ht & Hfresh & Hsz1).
  assert (d_id (stored k ti ts) = k) as Hid.
  { cbn. apply strncpy_short. unfold MAX_ID_LEN in *. lia. }
  set (t1 := Node l x (stored k ti ts) r) in *.
  assert (length (entries t1) < fuel)%nat as Hf1.
  { rewrite Hent1, length_app. cbn [length]. rewrite Ht, length_app in Hsize. lia. }
  destruct (delete_chat_spec fuel k s1 t1 Hinv1 Hf1) as [_ Hpres].
  destruct Hpres as (s2 & t2 & e1' & x' & d' & e2' & Hrun2 & Hinv2 & Hent & Hk & Hent2 & Hsz2 & Hfreed).
  { unfold keys. rewrite Hent1, map_app. cbn [map snd]. rewrite Hid. mem_tac. }
  destruct (split_unique_key e1 e2 e1' e2' (x, stored k ti ts) (x', d')) as (-> & Hx & ->).
  { rewrite <- Hent1. by apply (tree_inv_NoDup s1). }
  { by rewrite <- Hent1. }
  { unfold key_of. cbn [snd]. by rewrite Hid, Hk. }
  injection Hx as -> ->.
  exists x, s1, s2, t2. split; [exact Hrun1|]. split; [exact Hrun2|]. split; [exact Hinv2|].
  split; [by rewrite Hent2, Ht|]. split; [lia|exact Hfreed].
Qed.

Lemma X7_witness :
  ∃ x s1 s2 t2,
    insert_chat 5 "d" "Notes" 300 demo_state = Some (x, s1) ∧
    delete_chat 5 "d" s1 = Some (1, s2) ∧
    tree_inv s2 t2 ∧ entries t2 = entries demo_tree ∧
    size (tree s2) = size (tree demo_state) ∧ mem s2 !! x = None.
Proof.
  apply (X7_insert_then_delete 5 "d" "Notes" 300 demo_state demo_tree demo_inv).
  - vm_compute. lia.
  - vm_compute. intros H.
    repeat (apply elem_of_cons in H as [H|H]; [discriminate H|]).
    by apply elem_of_nil in H.
  - reflexivity.
  - reflexivity.
Defined.

(** ** The heap *)

Lemma bind_inv {A B} (m : M A) (k : A → M B) s b s2 :
  bind m k s = Some (b, s2) → ∃ a s1, m s = Some (a, s1) ∧ k a s1 = Some (b, s2).
Proof. unfold bind. destruct (m s) as [[a s1]|]; [|done]. intros H. by exists a, s1. Qed.

Section KeepsDom.
Context {A B : Type}.

Lemma keeps_ret (a : A) : keeps_dom (ret a).
Proof. intros s a' s' [= _ ->]. done. Qed.

Lemma keeps_fail : keeps_dom (@fail A).
Proof. intros s a' s' [=]. Qed.

Lemma keeps_bind (m : M A) (k : A → M B) :
  keeps_dom m → (∀ a, keeps_dom (k a)) → keeps_dom (bind m k).
Proof.
  intros Hm Hk s b s2 (a & s1 & H1 & H2)%bind_inv.
  rewrite (Hk a _ _ _ H2). by apply (Hm _ _ _ H1).
Qed.

Lemma keeps_get (f : ChatNode → A) p : keeps_dom (get f p).
Proof. intros s a s'. unfold get. destruct (mem s !! p); [|done]. by intros [= _ ->]. Qed.

Lemma keeps_update f p : keeps_dom (update f p).
Proof.
  intros s a s'. unfold update. destruct (mem s !! p) as [n|] eqn:E; [|done].
  intros [= _ <-]. cbn [mem]. apply dom_insert_lookup_L. by rewrite E.
Qed.

Lemma keeps_get_root : keeps_dom get_root.
Proof. by intros s a s' [= _ ->]. Qed.
Lemma keeps_get_size : keeps_dom get_size.
Proof. by intros s a s' [= _ ->]. Qed.
Lemma keeps_set_root v : keeps_dom (set_root v).
Proof. by intros s a s' [= _ <-]. Qed.
Lemma keeps_set_size v : keeps_dom (set_size v).
Proof. by intros s a s' [= _ <-]. Qed.
End KeepsDom.

(** [keeps] proves that straight-line code allocates and frees nothing. *)
Ltac keeps :=
  repeat first
    [ apply keeps_ret | apply keeps_fail | apply keeps_get | apply keeps_update
    | apply keeps_get_root | apply keeps_get_size | apply keeps_set_root
    | apply keeps_set_size
    | assumption
    | apply keeps_bind; [|intros ?]
    | match goal with
      | |- keeps_dom (match ?x with _ => _ end) => destruct x
      end ].

Lemma keeps_rotate_right x : keeps_dom (rotate_right x).
Proof. unfold rotate_right, set_left, set_right, set_parent. keeps. Qed.

Lemma keeps_rotate_left x : keeps_dom (rotate_left x).
Proof. unfold rotate_left, set_left, set_right, set_parent. keeps. Qed.

Lemma keeps_splay_step x p : keeps_dom (splay_step x p).
Proof.
  pose proof keeps_rotate_left. pose proof keeps_rotate_right.
  unfold splay_step. keeps; auto.
Qed.

Lemma keeps_splay fuel x : keeps_dom (splay fuel x).
Proof.
  destruct x as [x|]; cbn [splay]; [|apply keeps_ret].
  induction fuel as [|fuel IH]; cbn [splay_loop]; [apply keeps_fail|].
  pose proof (keeps_splay_step x). keeps; auto.
Qed.

Lemma keeps_find_loop fuel k : ∀ curr, keeps_dom (find_loop fuel k curr).
Proof. induction fuel as [|fuel IH]; intros curr; cbn [find_loop]; keeps; auto. Qed.

Lemma keeps_max_left_loop fuel : ∀ m, keeps_dom (max_left_loop fuel m).
Proof. induction fuel as [|fuel IH]; intros m; cbn [max_left_loop]; keeps; auto. Qed.

Lemma free_dom p s u s' : free p s = Some (u, s') → dom (mem s') = dom (mem s) ∖ {[p]}.
Proof.
  unfold free. destruct (mem s !! p); [|done]. intros [= _ <-]. cbn [mem].
  apply dom_delete_L.
Qed.

Lemma add_remove (D : gset addr) a : a ∉ D → ({[a]} ∪ D) ∖ {[a]} = D.
Proof.
  intros Ha. apply set_eq. intros q.
  rewrite elem_of_difference, elem_of_union, !elem_of_singleton.
  split; [by intros [[->|?] ?]|]. intros Hq. split; [by right|by intros ->].
Qed.

Lemma insert_loop_dom fuel0 k ti ts new fuel : ∀ curr par s d s',
  insert_loop fuel0 fuel k ti ts new curr par s = Some (d, s') →
  match d with
  | inl _ => dom (mem s') = dom (mem s) ∖ {[new]}
  | inr _ => dom (mem s') = dom (mem s)
  end.
Proof.
  induction fuel as [|fuel IH]; intros curr par s d s'; cbn [insert_loop]; [done|].
  destruct curr as [c|]; [|by intros [= <- <-]].
  intros (kc & s0 & H0 & H)%bind_inv. apply keeps_get in H0.
  destruct (strcmp k kc =? 0).
  - apply bind_inv in H as (? & s1 & H1 & H). apply keeps_update in H1.
    apply bind_inv in H as (? & s2 & H2 & H). apply keeps_update in H2.
    apply bind_inv in H as (? & s3 & H3 & H). apply free_dom in H3.
    apply bind_inv in H as (? & s4 & H4 & H). apply keeps_splay in H4.
    injection H as <- <-. congruence.
  - destruct (strcmp k kc <? 0);
      apply bind_inv in H as (? & s1 & H1 & H); apply keeps_get in H1;
      apply IH in H; destruct d; congruence.
Qed.

Lemma create_node_dom id ti ts s a s' :
  create_node id ti ts s = Some (a, s') →
  a = fresh (dom (mem s)) ∧ dom (mem s') = {[a]} ∪ dom (mem s).
Proof.
  rewrite create_node_run. intros [= <- <-]. split; [done|]. cbn [mem].
  apply dom_insert_L.
Qed.

(** The heap after [insert_chat]: as before when the key was found (the node
    allocated for it is freed again), one more node, the one returned,
    otherwise. *)
Lemma insert_chat_dom fuel k ti ts s x s' :
  insert_chat fuel k ti ts s = Some (x, s') →
  dom (mem s') = dom (mem s) ∨
  (x = fresh (dom (mem s)) ∧ dom (mem s') = {[x]} ∪ dom (mem s)).
Proof.
  unfold insert_chat.
  intros (a & s1 & H1 & H)%bind_inv. apply create_node_dom in H1 as [Ha H1].
  apply bind_inv in H as (rt & s2 & [= <- <-] & H).
  destruct (root (tree s1)) as [rt|].
  - apply bind_inv in H as (d & s2 & H2 & H). apply insert_loop_dom in H2.
    destruct d as [c|par].
    + injection H as <- <-. left. rewrite H2, H1.
      apply add_remove. rewrite Ha. apply is_fresh.
    + right.
      apply bind_inv in H as (? & s3 & H3 & H). apply keeps_update in H3.
      apply bind_inv in H as (? & s4 & H4 & H).
      assert (dom (mem s4) = dom (mem s3)) as H4'.
      { destruct par as [p|]; [|done]. revert H4. apply keeps_bind; [apply keeps_get|].
        intros pk. destruct (strcmp k pk <? 0); apply keeps_update. }
      apply bind_inv in H as (sz & s5 & H5 & H). apply keeps_get_size in H5.
      apply bind_inv in H as (? & s6 & H6 & H). apply keeps_set_size in H6.
      apply bind_inv in H as (? & s7 & H7 & H). apply keeps_splay in H7.
      injection H as <- <-. split; [done|]. congruence.
  - right. injection H as <- <-. cbn [mem]. done.
Qed.

Lemma shrinks_keeps {A} (m : M A) : keeps_dom m → shrinks_dom m.
Proof. intros H s a s' Hrun. by rewrite (H _ _ _ Hrun). Qed.

Lemma shrinks_bind {A B} (m : M A) (k : A → M B) :
  shrinks_dom m → (∀ a, shrinks_dom (k a)) → shrinks_dom (bind m k).
Proof.
  intros Hm Hk s b s2 (a & s1 & H1 & H2)%bind_inv.
  etrans; [by apply (Hk a _ _ _ H2)|by apply (Hm _ _ _ H1)].
Qed.

Lemma shrinks_free p : shrinks_dom (free p).
Proof.
  intros s [] s' H. rewrite (free_dom _ _ _ _ H).
  intros q [Hq _]%elem_of_difference. exact Hq.
Qed.

Lemma delete_chat_dom fuel k : shrinks_dom (delete_chat fuel k).
Proof.
  unfold delete_chat.
  apply shrinks_bind; [apply shrinks_keeps, keeps_bind; [apply keeps_get_root|intros; apply keeps_find_loop]|].
  intros [node|]; [|apply shrinks_keeps, keeps_ret].
  apply shrinks_bind; [apply shrinks_keeps, keeps_splay|]. intros _.
  apply shrinks_bind; [apply shrinks_keeps, keeps_get|]. intros nl.
  apply shrinks_bind; [apply shrinks_keeps, keeps_get|]. intros nr.
  apply shrinks_bind.
  { apply shrinks_keeps.
    pose proof keeps_max_left_loop. pose proof keeps_splay. keeps; auto. }
  intros _. apply shrinks_bind; [apply shrinks_free|]. intros _.
  apply shrinks_keeps. keeps.
Qed.

(** [insert_chat] on a search tree whose nodes are the allocated nodes: what
    [insert_chat_spec] says, and the nodes of the new tree are again the
    allocated nodes. *)
Lemma insert_chat_heap fuel k ti ts s t :
  tree_inv s t → heap_exact s t →
  size (tree s) < INT_MAX →
  (length (entries t) < fuel)%nat →
  ∃ x s' l r e1 e2,
    let d := stored k ti ts in
    insert_chat fuel k ti ts s = Some (x, s') ∧
    wf_state s' (Node l x d r) ∧
    entries (Node l x d r) = e1 ++ (x, d) :: e2 ∧
    (k ∈ keys t →
       (∃ dx, entries t = e1 ++ (x, dx) :: e2 ∧ d_id dx = k) ∧
       size (tree s') = size (tree s)) ∧
    (k ∉ keys t →
       entries t = e1 ++ e2 ∧ mem s !! x = None ∧
       size (tree s') = size (tree s) + 1) ∧
    ((String.length k < MAX_ID_LEN)%nat → tree_inv s' (Node l x d r)) ∧
    heap_exact s' (Node l x d r).
Proof.
  intros Hinv Hheap Hroom Hfuel.
  destruct (insert_chat_spec fuel k ti ts s t Hinv Hroom Hfuel)
    as (x & s' & l & r & e1 & e2 & Hrun & Hwf' & Hent & Hpres & Habs & Hinv').
  exists x, s', l, r, e1, e2. cbn zeta.
  split; [exact Hrun|]. split; [exact Hwf'|]. split; [exact Hent|].
  split; [exact Hpres|]. split; [exact Habs|]. split; [exact Hinv'|].
  assert (x ∈ addrs (Node l x (stored k ti ts) r)) as Hx by (rewrite addrs_node; mem_tac).
  assert (is_Some (mem s' !! x)) as Hxs'.
  { destruct Hwf' as (_ & Hwf' & _). by apply (wf_lookup _ _ _ _ Hwf'). }
  unfold heap_exact, addrs in *. rewrite Hent in *. clear Hent.
  intros q Hq. apply elem_of_dom in Hq.
  destruct (insert_chat_dom _ _ _ _ _ _ _ Hrun) as [Hdom|[Hfresh Hdom]]; rewrite Hdom in Hq.
  - apply elem_of_dom, Hheap in Hq.
    destruct (decide (k ∈ keys t)) as [Hin|Hout].
    + destruct (Hpres Hin) as [(dx & Ht & _) _]. rewrite Ht in Hq.
      rewrite map_app in Hq |- *. exact Hq.
    + destruct (Habs Hout) as (_ & Hnone & _).
      apply elem_of_dom in Hxs'. rewrite Hdom in Hxs'. apply elem_of_dom in Hxs'.
      rewrite Hnone in Hxs'. by destruct Hxs'.
  - apply elem_of_union in Hq as [->%elem_of_singleton|Hq]; [exact Hx|].
    apply elem_of_dom, Hheap in Hq.
    destruct (decide (k ∈ keys t)) as [Hin|Hout].
    + destruct (Hpres Hin) as [(dx & Ht & _) _]. rewrite Ht in Hq.
      rewrite map_app in Hq |- *. exact Hq.
    + destruct (Habs Hout) as (Ht & _). rewrite Ht in Hq.
      rewrite map_app in Hq |- *. cbn [map].
      apply elem_of_app in Hq as [Hq|Hq]; mem_tac.
Qed.

(** The same for any key, short or long: the result is well linked, its
    root is the node returned, which holds what [create_node] stores. *)
Lemma heap_exact_insert fuel k ti ts s t :
  tree_inv s t → heap_exact s t →
  size (tree s) < INT_MAX →
  (length (entries t) < fuel)%nat →
  ∃ x s' t', insert_chat fuel k ti ts s = Some (x, s') ∧ wf_state s' t' ∧ heap_exact s' t' ∧
     ((String.length k < MAX_ID_LEN)%nat → tree_inv s' t') ∧
     size (tree s') ≤ size (tree s) + 1 ∧
     root_of t' = Some x ∧ (length (entries t') ≤ S (length (entries t)))%nat ∧
     ∃ n, mem s' !! x = Some n ∧ data_of n = stored k ti ts.
Proof.
  intros Hinv Hheap Hroom Hfuel.
  destruct (insert_chat_heap fuel k ti ts s t Hinv Hheap Hroom Hfuel)
    as (x & s' & l & r & e1 & e2 & Hrun & Hwf' & Hent & Hpres & Habs & Hinv' & Hheap').
  exists x, s', (Node l x (stored k ti ts) r).
  split; [exact Hrun|]. split; [exact Hwf'|]. split; [exact Hheap'|]. split; [exact Hinv'|].
  split; [|split; [done|split]].
  - destruct (decide (k ∈ keys t)) as [Hin|Hout].
    + destruct (Hpres Hin) as [_ ->]. lia.
    + destruct (Habs Hout) as (_ & _ & ->). lia.
  - rewrite Hent. destruct (decide (k ∈ keys t)) as [Hin|Hout].
    + destruct (Hpres Hin) as [(dx & -> & _) _]. rewrite !length_app. cbn [length]. lia.
    + destruct (Habs Hout) as (-> & _). rewrite !length_app. cbn [length]. lia.
  - destruct Hwf' as (_ & (n & Hn & Hd & _) & _). by exists n.
Qed.

Lemma heap_exact_delete fuel k s t :
  tree_inv s t → heap_exact s t →
  (length (entries t) < fuel)%nat →
  ∃ b s' t', delete_chat fuel k s = Some (b, s') ∧ tree_inv s' t' ∧ heap_exact s' t' ∧
     size (tree s') ≤ size (tree s).
Proof.
  intros Hinv Hheap Hfuel.
  destruct (delete_chat_spec fuel k s t Hinv Hfuel) as [Habs Hpres].
  destruct (decide (k ∈ keys t)) as [Hin|Hout].
  - destruct (Hpres Hin) as (s' & t' & e1 & x & d & e2 & Hrun & Hinv' & Ht & Hk & Ht' & Hsz & Hfreed).
    exists 1, s', t'. split; [exact Hrun|]. split; [exact Hinv'|]. split; [|lia].
    intros q Hq. 
    assert (q ≠ x) as Hqx by (intros ->; rewrite Hfreed in Hq; by destruct Hq).
    apply elem_of_dom, (delete_chat_dom _ _ _ _ _ Hrun), elem_of_dom, Hheap in Hq.
    unfold addrs in Hq |- *. rewrite Ht in Hq. rewrite Ht'.
    rewrite map_app in Hq |- *. cbn [map fst] in Hq.
    apply elem_of_app in Hq as [Hq|Hq]; [mem_tac|].
    apply elem_of_cons in Hq as [Hq|Hq]; [done|mem_tac].
  - exists 0, s, t. split; [by apply Habs|]. split; [done|]. split; [done|lia].
Qed.

Lemma keeps_access_chat fuel k : keeps_dom (access_chat fuel k).
Proof.
  pose proof (keeps_find_loop fuel k). pose proof (keeps_splay fuel).
  unfold access_chat, find_node. keeps; auto.
Qed.

Lemma heap_exact_access fuel k s t :
  tree_inv s t → heap_exact s t → (length (entries t) < fuel)%nat →
  ∃ node s' t', access_chat fuel k s = Some (node, s') ∧ tree_inv s' t' ∧
     heap_exact s' t' ∧ entries t' = entries t ∧
     (node = None ↔ k ∉ keys t) ∧
     (∀ x, node = Some x →
        x ∈ addrs t' ∧ ∃ n, mem s' !! x = Some n ∧ chat_id n = k ∧ (x, data_of n) ∈ entries t).
Proof.
  intros Hinv Hheap Hfuel.
  destruct (access_chat_spec fuel k s t Hinv Hfuel) as [Habs Hpres].
  destruct (decide (k ∈ keys t)) as [Hin|Hout].
  - destruct (Hpres Hin) as (x & s' & l & d & r & Hrun & Hinv' & Hk & Hent).
    exists (Some x), s', (Node l x d r). split; [exact Hrun|]. split; [exact Hinv'|].
    split; [|split; [exact Hent|split]].
    + intros q Hq. apply elem_of_dom in Hq. rewrite (keeps_access_chat _ _ _ _ _ Hrun) in Hq.
      apply elem_of_dom, Hheap in Hq. unfold addrs in *. by rewrite Hent.
    + split; [done|]. intros Hn. by destruct (Hn Hin).
    + intros ? [= <-]. split; [rewrite addrs_node; mem_tac|].
      destruct (inv_wf _ _ Hinv') as (_ & (n & Hn & Hd & _) & _).
      exists n. split; [exact Hn|]. split; [by rewrite <- Hk, <- Hd|].
      rewrite <- Hent, Hd. cbn [entries]. mem_tac.
  - exists None, s, t. split; [by apply Habs|]. repeat (split; [done|]). done.
Qed.

Lemma heap_exact_empty : heap_exact create_splay_tree Leaf.
Proof. intros q [n Hn]. cbn in Hn. by rewrite lookup_empty in Hn. Qed.

Lemma heap_exact_demo : heap_exact demo_state demo_tree.
Proof.
  intros q [n Hn]. unfold demo_state in Hn. cbn [mem] in Hn.
  destruct (decide (q = 1%positive)) as [->|H1];
    [vm_compute; apply list_elem_of_further, list_elem_of_here|].
  destruct (decide (q = 2%positive)) as [->|H2]; [vm_compute; apply list_elem_of_here|].
  destruct (decide (q = 3%positive)) as [->|H3];
    [vm_compute; apply list_elem_of_further, list_elem_of_further, list_elem_of_here|].
  rewrite !lookup_insert_ne in Hn by done. by rewrite lookup_empty in Hn.
Qed.

(** X8. No leak and no dangling link: when the allocated nodes are the
    nodes of the tree, then after any sequence of inserts and deletes whose
    keys fit [chat_id] the allocated nodes are again exactly the nodes of the
    tree, which is a search tree. *)
Theorem X8_allocated_nodes_are_the_tree fuel ops : ∀ s t,
  tree_inv s t → heap_exact s t →
  Forall short_key ops →
  size (tree s) + Z.of_nat (length ops) ≤ INT_MAX →
  size (tree s) + Z.of_nat (length ops) ≤ Z.of_nat fuel →
  ∃ s' t', run_ops fuel ops s = Some (tt, s') ∧ tree_inv s' t' ∧
           ∀ q, is_Some (mem s' !! q) ↔ q ∈ addrs t'.
Proof.
  assert (∀ s t, tree_inv s t → heap_exact s t → ∀ q, is_Some (mem s !! q) ↔ q ∈ addrs t) as Hiff.
  { intros s t [(_ & Hwf & _) _ _ _ _] Hheap q. split; [apply Hheap|]. by apply (wf_lookup _ _ _ _ Hwf). }
  cut (∀ s t, tree_inv s t → heap_exact s t → Forall short_key ops →
         size (tree s) + Z.of_nat (length ops) ≤ INT_MAX →
         size (tree s) + Z.of_nat (length ops) ≤ Z.of_nat fuel →
         ∃ s' t', run_ops fuel ops s = Some (tt, s') ∧ tree_inv s' t' ∧ heap_exact s' t').
  { intros H s t Hinv Hheap Hshort Hroom Hfuel.
    destruct (H s t Hinv Hheap Hshort Hroom Hfuel) as (s' & t' & Hrun & Hinv' & Hheap').
    exists s', t'. split; [done|]. split; [done|]. by apply Hiff. }
  clear Hiff.
  induction ops as [|o ops IH]; intros s t Hinv Hheap Hshort Hroom Hfuel.
  - by exists s, t.
  - apply Forall_cons in Hshort as [Ho Hshort]. cbn [length] in Hroom, Hfuel.
    pose proof (inv_size _ _ Hinv) as Hsize.
    assert (∃ s1 t1, run_op fuel o s = Some (tt, s1) ∧ tree_inv s1 t1 ∧ heap_exact s1 t1 ∧
                     size (tree s1) ≤ size (tree s) + 1) as (s1 & t1 & Hrun1 & Hinv1 & Hheap1 & Hsz1).
    { destruct o as [id ti ts|id]; cbn [run_op short_key] in *.
      - destruct (heap_exact_insert fuel id ti ts s t Hinv Hheap ltac:(lia) ltac:(lia))
          as (x & s1 & t1 & Hrun1 & _ & Hheap1 & Hinv1 & Hsz1 & _).
        exists s1, t1. rewrite (bind_run _ _ _ _ _ Hrun1). auto.
      - destruct (heap_exact_delete fuel id s t Hinv Hheap ltac:(lia))
          as (b & s1 & t1 & Hrun1 & Hinv1 & Hheap1 & Hsz1).
        exists s1, t1. rewrite (bind_run _ _ _ _ _ Hrun1).
        split; [done|]. split; [done|]. split; [done|lia]. }
    destruct (IH s1 t1 Hinv1 Hheap1 Hshort ltac:(lia) ltac:(lia)) as (s' & t' & Hrun & Hinv' & Hheap').
    exists s', t'. cbn [run_ops]. by rewrite (bind_run _ _ _ _ _ Hrun1).
Qed.

Lemma X8_witness :
  ∃ s' t', run_ops 4 demo_ops create_splay_tree = Some (tt, s') ∧ tree_inv s' t' ∧
           ∀ q, is_Some (mem s' !! q) ↔ q ∈ addrs t'.
Proof.
  apply (X8_allocated_nodes_are_the_tree 4 demo_ops create_splay_tree Leaf
           tree_inv_empty heap_exact_empty).
  - repeat constructor; vm_compute; lia.
  - vm_compute. discriminate.
  - vm_compute. discriminate.
Defined.

(** ** [find_min] and [clear_all] *)

Lemma find_min_spec s fuel : ∀ t par,
  wf (mem s) par t → (height t < fuel)%nat →
  find_min fuel (root_of t) s = Some (fst <$> head (entries t), s).
Proof.
  induction fuel as [|fuel IH]; intros t par Hwf Hf; [lia|].
  destruct t as [|l a d r]; cbn [find_min root_of]; [done|].
  destruct Hwf as (n & Hn & Hd & Hp & Hl & Hr & Hwl & Hwr).
  exec. rewrite Hl. cbn [height] in Hf.
  destruct l as [|ll la ld lr]; cbn [root_of]; [done|].
  change (Some la) with (root_of (Node ll la ld lr)).
  rewrite (IH _ (Some a) Hwl) by lia.
  cbn [entries]. by destruct (entries ll).
Qed.

Lemma first_entry_no_left h : ∀ t par m d es n,
  wf h par t → entries t = (m, d) :: es → h !! m = Some n → left n = None.
Proof.
  induction t as [|l IHl a da r _]; intros par m d es n Hwf E Hn; [done|].
  destruct Hwf as (na & Hna & Hda & Hpa & Hla & Hra & Hwl & Hwr).
  cbn [entries] in E. destruct (entries l) as [|e0 es0] eqn:E0.
  - apply entries_leaf in E0. subst l. cbn in E. injection E as -> _ _.
    cbn [root_of] in Hla. congruence.
  - cbn [app] in E. injection E as -> _. by apply (IHl (Some a) m d es0 n).
Qed.

(** X9. [find_min] from the root returns, without writing, [NULL] for the
    empty tree and otherwise a node that has no left child and whose key is
    below every other key of the tree. *)
Theorem X9_find_min_is_least fuel s t :
  tree_inv s t → size (tree s) < Z.of_nat fuel →
  ∃ res, find_min fuel (root (tree s)) s = Some (res, s) ∧
    match res with
    | None => keys t = []
    | Some m => ∃ n, mem s !! m = Some n ∧ left n = None ∧ chat_id n ∈ keys t ∧
                     ∀ k, k ∈ keys t → k = chat_id n ∨ slt (chat_id n) k
    end.
Proof.
  intros Hinv Hfuel. pose proof (fuel_of_size _ _ _ Hinv Hfuel) as Hf.
  destruct Hinv as [(Hroot & Hwf & Hnd) Hsorted _ _ _].
  rewrite Hroot, (find_min_spec s fuel t None Hwf (height_lt_fuel _ _ Hf)).
  eexists. split; [reflexivity|].
  unfold sorted, keys in *.
  destruct (entries t) as [|[m d] es] eqn:E; cbn [head fmap option_fmap option_map fst]; [done|].
  destruct (wf_entries _ _ _ m d Hwf) as (n & Hn & Hd); [rewrite E; mem_tac|].
  exists n. split; [done|].
  cbn [map snd] in Hsorted |- *. rewrite <- Hd. cbn [data_of d_id].
  apply StronglySorted_cons in Hsorted as [Hall _]. rewrite <- Hd in Hall. cbn in Hall.
  split; [|split; [mem_tac|]].
  - by apply (first_entry_no_left (mem s) t None m d es n).
  - intros k [->|Hk]%elem_of_cons; [by left|right].
    rewrite Forall_forall in Hall. by apply Hall.
Qed.

Lemma X9_witness :
  ∃ res, find_min 4 (root (tree demo_state)) demo_state = Some (res, demo_state) ∧
    match res with
    | None => keys demo_tree = []
    | Some m => ∃ n, mem demo_state !! m = Some n ∧ left n = None ∧
                     chat_id n ∈ keys demo_tree ∧
                     ∀ k, k ∈ keys demo_tree → k = chat_id n ∨ slt (chat_id n) k
    end.
Proof. exact (X9_find_min_is_least 4 demo_state demo_tree demo_inv eq_refl). Defined.

Lemma clear_tree_spec fuel : ∀ t s par,
  wf (mem s) par t → NoDup (addrs t) → (height t < fuel)%nat →
  ∃ s', clear_tree fuel (root_of t) s = Some (tt, s') ∧ tree s' = tree s ∧
        ∀ q, mem s' !! q = if decide (q ∈ addrs t) then None else mem s !! q.
Proof.
  induction fuel as [|fuel IH]; intros t s par Hwf Hnd Hf; [lia|].
  destruct t as [|l a d r]; cbn [clear_tree root_of].
  - exists s. split; [done|]. split; [done|]. intros q.
    rewrite decide_False; [done|]. rewrite addrs_leaf. apply not_elem_of_nil.
  - destruct Hwf as (n & Hn & Hd & Hp & Hl & Hr & Hwl & Hwr).
    cbn [height] in Hf. rewrite addrs_node in Hnd.
    exec. rewrite Hl.
    destruct (IH l s (Some a) Hwl (NoDup_app_l _ _ Hnd) ltac:(lia)) as (s1 & Hrun1 & Ht1 & Hm1).
    rewrite (bind_run _ _ _ _ _ Hrun1).
    assert (mem s1 !! a = Some n) as Hn1.
    { rewrite Hm1, decide_False; [done|]. intros Hin. assert (a ≠ a) by ne_tac. done. }
    exec. rewrite Hr.
    assert (wf (mem s1) (Some a) r) as Hwr1.
    { eapply wf_ext; [|exact Hwr]. intros q Hq. rewrite Hm1, decide_False; [done|].
      intros Hin. assert (q ≠ q) by ne_tac. done. }
    destruct (IH r s1 (Some a) Hwr1 (NoDup_cons_r _ _ (NoDup_app_r _ _ Hnd)) ltac:(lia)) as (s2 & Hrun2 & Ht2 & Hm2).
    rewrite (bind_run _ _ _ _ _ Hrun2).
    assert (mem s2 !! a = Some n) as Hn2.
    { rewrite Hm2, decide_False; [done|]. intros Hin. assert (a ≠ a) by ne_tac. done. }
    unfold free. rewrite Hn2. eexists. split; [reflexivity|]. cbn [tree mem].
    split; [congruence|]. intros q.
    destruct (decide (q = a)) as [->|Hqa].
    + rewrite lookup_delete_eq, decide_True; [done|]. rewrite addrs_node. mem_tac.
    + rewrite lookup_delete_ne by done. rewrite Hm2, Hm1.
      rewrite addrs_node.
      destruct (decide (q ∈ addrs r)) as [Hqr|Hqr].
      { rewrite decide_True; [done|]. mem_tac. }
      destruct (decide (q ∈ addrs l)) as [Hql|Hql].
      { rewrite decide_True; [done|]. mem_tac. }
      rewrite decide_False; [done|].
      intros [H|H]%elem_of_app; [done|]. apply elem_of_cons in H as [H|H]; done.
Qed.

Lemma clear_all_spec fuel s t :
  wf_state s t → heap_exact s t → (length (entries t) < fuel)%nat →
  clear_all fuel s = Some (tt, create_splay_tree).
Proof.
  intros (Hroot & Hwf & Hnd) Hheap Hfuel.
  unfold clear_all. rewrite bind_get_root, Hroot.
  destruct (clear_tree_spec fuel t s None Hwf Hnd (height_lt_fuel _ _ Hfuel))
    as (s1 & Hrun & Ht & Hm).
  rewrite (bind_run _ _ _ _ _ Hrun). exec. unfold set_size. cbn [mem tree root].
  do 2 f_equal. unfold create_splay_tree. f_equal.
  apply map_eq. intros q. rewrite lookup_empty, Hm.
  destruct (decide (q ∈ addrs t)) as [|Hout]; [done|].
  destruct (mem s !! q) as [n|] eqn:E; [|done].
  exfalso. apply Hout, Hheap. by rewrite E.
Qed.

(** X10. [clear_all] gives back the state of [create_splay_tree]: for a
    well-linked tree whose nodes are the allocated nodes, with fuel for its
    height, every node is freed exactly once, the root is [NULL] and the size
    is 0. *)
Theorem X10_clear_all_resets fuel s t :
  wf_state s t → heap_exact s t → (length (entries t) < fuel)%nat →
  clear_all fuel s = Some (tt, create_splay_tree).
Proof. intros Hwf Hheap Hfuel. by apply (clear_all_spec fuel s t). Qed.

Lemma X10_witness : clear_all 4 demo_state = Some (tt, create_splay_tree).
Proof.
  apply (X10_clear_all_resets 4 demo_state demo_tree (inv_wf _ _ demo_inv) heap_exact_demo).
  vm_compute. lia.
Defined.

(** ** The comparator of the listing *)

(** X11. [compare_by_timestamp] is a comparator as [qsort] requires one:
    swapping the arguments negates the result, the result is negative
    exactly when the first node is newer and zero exactly when the timestamps
    are equal, and the order it induces is transitive. *)
Theorem X11_compare_by_timestamp_consistent a b c :
  compare_by_timestamp a b = - compare_by_timestamp b a ∧
  (compare_by_timestamp a b < 0 ↔ timestamp b < timestamp a) ∧
  (compare_by_timestamp a b = 0 ↔ timestamp a = timestamp b) ∧
  (compare_by_timestamp a b ≤ 0 → compare_by_timestamp b c ≤ 0 →
   compare_by_timestamp a c ≤ 0).
Proof.
  unfold compare_by_timestamp.
  destruct (Z.gtb_spec (timestamp b) (timestamp a)), (Z.ltb_spec (timestamp b) (timestamp a)),
    (Z.gtb_spec (timestamp a) (timestamp b)), (Z.ltb_spec (timestamp a) (timestamp b)),
    (Z.gtb_spec (timestamp c) (timestamp b)), (Z.ltb_spec (timestamp c) (timestamp b)),
    (Z.gtb_spec (timestamp c) (timestamp a)), (Z.ltb_spec (timestamp c) (timestamp a));
    lia.
Qed.

(** ** Escaping *)

Lemma length_append (a b : string) :
  String.length (a ++ b) = (String.length a + String.length b)%nat.
Proof.
  induction a as [|c a IH]; [done|].
  rewrite append_cons_l. cbn [String.length]. by rewrite IH.
Qed.

Lemma json_escape_loop_bound str : ∀ j max_len,
  j ≤ max_len - 1 →
  j + Z.of_nat (String.length (json_escape_loop str j max_len)) ≤ max_len - 1.
Proof.
  induction str as [|c str IH]; intros j m Hj; cbn [json_escape_loop String.length]; [lia|].
  destruct (Z.ltb_spec j (m - 2)) as [Hlt|Hge]; [|cbn [String.length]; lia].
  match goal with
  | |- context [json_escape_loop str (j + Z.of_nat (String.length ?w0)) m] => set (w := w0)
  end.
  assert (String.length w ≤ 2)%nat as Hw.
  { subst w.
    destruct (Ascii.eqb_spec c quote_char) as [->|_];
      [|destruct (Ascii.eqb_spec c backslash_char) as [->|_]];
      [vm_compute; lia..|].
    cbn [orb]. rewrite append_empty_l.
    destruct (Ascii.eqb c newline_char), (Ascii.eqb c return_char); cbn [String.length]; lia. }
  rewrite length_append.
  specialize (IH (j + Z.of_nat (String.length w)) m ltac:(lia)). lia.
Qed.

(** X12. [json_escape] stays inside its buffer: for a buffer of
    [max_len] >= 1 bytes the text written has at most [max_len - 1]
    characters, so that the terminator is written inside the buffer too,
    whatever the input. *)
Theorem X12_json_escape_fits str max_len :
  1 ≤ max_len →
  Z.of_nat (String.length (json_escape str max_len)) ≤ max_len - 1.
Proof.
  intros H. pose proof (json_escape_loop_bound str 0 max_len ltac:(lia)).
  unfold json_escape. lia.
Qed.

Lemma X12_witness :
  Z.of_nat (String.length (json_escape title256 (2 * Z.of_nat MAX_TITLE_LEN)))
  ≤ 2 * Z.of_nat MAX_TITLE_LEN - 1.
Proof. apply (X12_json_escape_fits title256 (2 * Z.of_nat MAX_TITLE_LEN)). vm_compute. discriminate. Defined.

Lemma lacks_app x (s t : string) : lacks x (s ++ t) ↔ lacks x s ∧ lacks x t.
Proof.
  induction s as [|c s IH]; [rewrite append_empty_l; cbn [lacks]; tauto|].
  rewrite append_cons_l. cbn [lacks]. rewrite IH. tauto.
Qed.

Lemma json_escape_loop_line t m : ∀ j,
  lacks newline_char (json_escape_loop t j m) ∧ lacks return_char (json_escape_loop t j m).
Proof.
  induction t as [|c t IH]; intros j; cbn [json_escape_loop]; [done|].
  destruct (j <? m - 2); [|done].
  rewrite !lacks_app. destruct (IH (j + Z.of_nat (String.length
    ((if Ascii.eqb c quote_char || Ascii.eqb c backslash_char
      then String backslash_char "" else "") ++
     (if Ascii.eqb c newline_char then String backslash_char (String n_char "")
      else if Ascii.eqb c return_char then "" else String c ""))))) as [IH1 IH2].
  assert (∀ b : bool, lacks newline_char (if b then String backslash_char "" else "") ∧
                      lacks return_char (if b then String backslash_char "" else "")) as Hpre.
  { intros []; cbn [lacks]; repeat split; done. }
  destruct (Hpre (Ascii.eqb c quote_char || Ascii.eqb c backslash_char)) as [Hp1 Hp2].
  destruct (Ascii.eqb_spec c newline_char) as [->|Hn]; [cbn [lacks]; repeat split; done|].
  destruct (Ascii.eqb_spec c return_char) as [->|Hr]; cbn [lacks]; repeat split; done.
Qed.

(** X13. The escaped text is one line: whatever the input,
    [json_escape] writes no newline and no carriage return. *)
Theorem X13_json_escape_one_line t max_len :
  lacks newline_char (json_escape t max_len) ∧ lacks return_char (json_escape t max_len).
Proof. apply json_escape_loop_line. Qed.

(** ** Pointers into the buffer *)

Section Pointers.
Implicit Types (p r hay needle : string) (k i : nat).

Lemma advance_nil k : advance k EmptyString = EmptyString.
Proof. by destruct k. Qed.

Lemma advance_advance a b p : advance a (advance b p) = advance (b + a) p.
Proof.
  revert p; induction b as [|b IH]; intros p; [done|].
  destruct p as [|c p]; cbn [advance Nat.add]; [by rewrite advance_nil|apply IH].
Qed.

Lemma advance_length k p : String.length (advance k p) = (String.length p - k)%nat.
Proof.
  revert p; induction k as [|k IH]; intros p; cbn [advance]; [lia|].
  destruct p as [|c p]; cbn [String.length]; [done|apply IH].
Qed.

Lemma prefix_length needle : ∀ p,
  String.prefix needle p = true → (String.length needle ≤ String.length p)%nat.
Proof.
  induction needle as [|c n IH]; intros p; cbn [String.length]; [lia|].
  destruct p as [|c' p]; cbn [String.prefix String.length]; [done|].
  destruct (ascii_dec c c'); [|done]. intros H. apply IH in H. lia.
Qed.

Lemma strstr_some needle : ∀ hay r,
  strstr hay needle = Some r →
  String.prefix needle r = true ∧ ∃ k, r = advance k hay.
Proof.
  induction hay as [|c hay IH]; intros r; cbn [strstr].
  - destruct (String.prefix needle "") eqn:E; [|done]. intros [= <-]. split; [done|by exists 0%nat].
  - destruct (String.prefix needle (String c hay)) eqn:E.
    + intros [= <-]. split; [done|by exists 0%nat].
    + intros H. destruct (IH r H) as [Hp [k ->]]. split; [done|]. by exists (S k).
Qed.

Lemma read_id_rest p : ∀ i, ∃ k, (read_id p i).2 = advance k p.
Proof.
  induction p as [|c p IH]; intros i; cbn [read_id]; [by exists 0%nat|].
  destruct (negb (Ascii.eqb c quote_char) && (i <? MAX_ID_LEN - 1)%nat); [|by exists 0%nat].
  destruct (IH (S i)) as [k Hk]. destruct (read_id p (S i)) as [id p']. cbn [snd] in *.
  by exists (S k).
Qed.

Lemma read_id_length p : ∀ i,
  (i ≤ MAX_ID_LEN - 1 → i + String.length (read_id p i).1 ≤ MAX_ID_LEN - 1)%nat.
Proof.
  induction p as [|c p IH]; intros i Hi; cbn [read_id fst String.length]; [lia|].
  destruct (negb (Ascii.eqb c quote_char)); cbn [andb fst String.length]; [|lia].
  destruct (Nat.ltb_spec i (MAX_ID_LEN - 1)); cbn [fst String.length]; [|lia].
  specialize (IH (S i) ltac:(lia)). destruct (read_id p (S i)) as [id p'].
  cbn [fst String.length] in *. lia.
Qed.

Lemma load_title_length_aux n : ∀ p i,
  (String.length p ≤ n → i ≤ MAX_TITLE_LEN - 1 →
   i + String.length (load_title p i) ≤ MAX_TITLE_LEN - 1)%nat.
Proof.
  induction n as [|n IH]; intros p i Hn Hi.
  - destruct p; cbn [String.length load_title] in *; lia.
  - destruct p as [|c p]; cbn [load_title String.length] in *; [lia|].
    destruct (Nat.ltb_spec i (MAX_TITLE_LEN - 1)); cbn [String.length]; [|lia].
    pose proof (IH p (S i) ltac:(lia) ltac:(lia)) as IH1.
    destruct p as [|c' p].
    + destruct (Ascii.eqb c quote_char); cbn [String.length] in *; lia.
    + cbn [String.length] in Hn.
      pose proof (IH p (S i) ltac:(lia) ltac:(lia)) as IH2.
      destruct (_ && _); [cbn [String.length]; lia|].
      destruct (_ && _); [cbn [String.length]; lia|].
      destruct (Ascii.eqb c quote_char); cbn [String.length] in *; lia.
Qed.

Lemma load_title_length p i :
  (i ≤ MAX_TITLE_LEN - 1 → i + String.length (load_title p i) ≤ MAX_TITLE_LEN - 1)%nat.
Proof. by apply (load_title_length_aux (String.length p)). Qed.
End Pointers.

(** X14. The loops of [load_from_file] that copy the id and the title
    stay inside [id] and [title]: whatever the text at the pointer, the id
    has at most 63 characters and the title at most 255. *)
Theorem X14_load_buffers_hold (p : string) :
  (String.length (read_id p 0).1 < MAX_ID_LEN)%nat ∧
  (String.length (load_title p 0) < MAX_TITLE_LEN)%nat.
Proof.
  pose proof (read_id_length p 0). pose proof (load_title_length p 0).
  unfold MAX_ID_LEN, MAX_TITLE_LEN in *. lia.
Qed.

(** ** Loading any file *)

Lemma numerals_fit_advance k : ∀ text, numerals_fit text → numerals_fit (advance k text).
Proof.
  unfold numerals_fit.
  induction k as [|k IH]; intros text H; [done|].
  destruct text as [|c text]; cbn [advance]; [done|]. apply IH.
  cbn [numerals_ok] in H. by destruct (atol (String c text)).
Qed.

Lemma numerals_fit_atol text : numerals_fit text → is_Some (atol text).
Proof.
  unfold numerals_fit. destruct text; cbn [numerals_ok]; by destruct (atol _).
Qed.

(** [load_from_file] builds a search tree out of any text. *)
Lemma load_loop_total fuel0 : ∀ fuel ptr s t,
  tree_inv s t → heap_exact s t → numerals_fit ptr →
  (String.length ptr < fuel)%nat →
  size (tree s) + Z.of_nat (String.length ptr) < INT_MAX →
  size (tree s) + Z.of_nat (String.length ptr) < Z.of_nat fuel0 →
  ∃ s' t', load_loop fuel0 fuel ptr s = Some (tt, s') ∧ tree_inv s' t' ∧ heap_exact s' t' ∧
           size (tree s') ≤ size (tree s) + Z.of_nat (String.length ptr).
Proof.
  induction fuel as [|fuel IH]; intros ptr s t Hinv Hheap Hnum Hfuel Hroom Hfuel0; [lia|].
  cbn [load_loop].
  assert (∃ s' t', ret tt s = Some (tt, s') ∧ tree_inv s' t' ∧ heap_exact s' t' ∧
                   size (tree s') ≤ size (tree s) + Z.of_nat (String.length ptr)) as Hstop.
  { exists s, t. split; [done|]. split; [done|]. split; [done|lia]. }
  destruct (strstr ptr id_tag) as [p1|] eqn:E1; [|exact Hstop].
  apply strstr_some in E1 as [Hpre1 [k1 ->]].
  pose proof (read_id_rest (advance 6 (advance k1 ptr)) 0) as [k3 Hk3].
  pose proof (read_id_length (advance 6 (advance k1 ptr)) 0 ltac:(lia)) as Hid.
  destruct (read_id (advance 6 (advance k1 ptr)) 0) as [id p3]. cbn [fst snd] in *. subst p3.
  destruct (strstr _ title_tag) as [tp|] eqn:E2; [|exact Hstop].
  destruct (strstr _ timestamp_tag) as [p4|] eqn:E3; [|exact Hstop].
  apply strstr_some in E3 as [Hpre4 [k4 ->]].
  rewrite !advance_advance in *.
  set (K := (k1 + (6 + (k3 + (k4 + 12))))%nat) in *.
  apply prefix_length in Hpre4. rewrite advance_length in Hpre4.
  change (String.length timestamp_tag) with 12%nat in Hpre4.
  destruct (numerals_fit_atol _ (numerals_fit_advance K _ Hnum)) as [ts Hts]. rewrite Hts.
  pose proof (inv_size _ _ Hinv) as Hsize.
  destruct (heap_exact_insert fuel0 id (load_title (advance 9 tp) 0) ts s t Hinv Hheap
              ltac:(lia) ltac:(lia))
    as (x & s1 & t1 & Hrun1 & _ & Hheap1 & Hinv1 & Hsz1 & _).
  specialize (Hinv1 ltac:(unfold MAX_ID_LEN in *; lia)).
  rewrite (bind_run _ _ _ _ _ Hrun1).
  assert (String.length (advance K ptr) + 12 ≤ String.length ptr)%nat as Hless.
  { rewrite advance_length. subst K. lia. }
  destruct (IH (advance K ptr) s1 t1 Hinv1 Hheap1 (numerals_fit_advance K _ Hnum)
              ltac:(lia) ltac:(lia) ltac:(lia)) as (s' & t' & Hrun & Hinv' & Hheap' & Hsz').
  exists s', t'. split; [exact Hrun|]. split; [exact Hinv'|]. split; [exact Hheap'|lia].
Qed.

Lemma take_bytes_length text : ∀ n,
  (String.length (take_bytes n text) ≤ String.length text)%nat.
Proof.
  induction text as [|c text IH]; intros n; cbn [take_bytes String.length]; [lia|].
  destruct (n <=? 0); cbn [String.length]; [lia|]. specialize (IH (n - 1)). lia.
Qed.

Lemma c_str_length text : (String.length (c_str text) ≤ String.length text)%nat.
Proof.
  induction text as [|c text IH]; cbn [c_str String.length]; [lia|].
  destruct (Ascii.eqb c zero); cbn [String.length]; lia.
Qed.

Lemma buffer_of_length text : (String.length (buffer_of text) ≤ String.length text)%nat.
Proof.
  unfold buffer_of. pose proof (c_str_length (take_bytes 65535 text)).
  pose proof (take_bytes_length text 65535). lia.
Qed.

Lemma take_bytes_bound text : ∀ n, 0 ≤ n →
  Z.of_nat (String.length (take_bytes n text)) ≤ n.
Proof.
  induction text as [|c text IH]; intros n Hn; cbn [take_bytes String.length]; [lia|].
  destruct (Z.leb_spec n 0); cbn [String.length]; [lia|].
  specialize (IH (n - 1) ltac:(lia)). lia.
Qed.

Lemma buffer_of_bound text : Z.of_nat (String.length (buffer_of text)) ≤ 65535.
Proof.
  unfold buffer_of. pose proof (c_str_length (take_bytes 65535 text)).
  pose proof (take_bytes_bound text 65535 ltac:(lia)). lia.
Qed.

Lemma load_from_file_spec fuel d :
  file_fits d → (file_size d < fuel)%nat →
  ∃ s' t', load_from_file fuel d create_splay_tree = Some (tt, s') ∧
           tree_inv s' t' ∧ heap_exact s' t' ∧
           (length (entries t') ≤ file_size d)%nat ∧
           Z.of_nat (length (entries t')) ≤ 65535 ∧
           (history d = None → s' = create_splay_tree).
Proof.
  unfold file_fits, file_size, load_from_file. intros Hfit Hfuel.
  destruct (history d) as [text|].
  - pose proof (buffer_of_length text) as Hlen. pose proof (buffer_of_bound text) as Hb.
    destruct (load_loop_total fuel fuel (buffer_of text) create_splay_tree Leaf
                tree_inv_empty heap_exact_empty (Hfit text eq_refl))
      as (s' & t' & Hrun & Hinv & Hheap & Hsz).
    { lia. } { cbn [create_splay_tree tree size]. unfold INT_MAX. lia. }
    { cbn [create_splay_tree tree size]. lia. }
    exists s', t'. split; [exact Hrun|]. split; [exact Hinv|]. split; [exact Hheap|].
    pose proof (inv_size _ _ Hinv). cbn [create_splay_tree tree size] in Hsz.
    split; [lia|]. split; [lia|done].
  - exists create_splay_tree, Leaf. split; [done|]. split; [apply tree_inv_empty|].
    split; [apply heap_exact_empty|]. split; [cbn; lia|]. split; [cbn; lia|done].
Qed.

(** X15. [load_from_file] builds a search tree out of any file: whatever
    the text (its numerals fitting a [long]), with fuel for its size the
    function returns, the tree is a binary search tree whose size field counts
    its nodes, the allocated nodes are the nodes of the tree, and there are no
    more nodes than bytes in the file.  Without a file the tree stays
    empty. *)
Theorem X15_load_builds_search_tree fuel d :
  file_fits d → (file_size d < fuel)%nat →
  ∃ s' t', load_from_file fuel d create_splay_tree = Some (tt, s') ∧
           tree_inv s' t' ∧
           (∀ q, is_Some (mem s' !! q) ↔ q ∈ addrs t') ∧
           (length (entries t') ≤ file_size d)%nat ∧
           (history d = None → s' = create_splay_tree).
Proof.
  intros Hfit Hfuel.
  destruct (load_from_file_spec fuel d Hfit Hfuel)
    as (s' & t' & Hrun & Hinv & Hheap & Hlen & _ & Hnone).
  exists s', t'. split; [exact Hrun|]. split; [exact Hinv|].
  split; [|split; [exact Hlen|exact Hnone]].
  intros q. split; [apply Hheap|].
  destruct (inv_wf _ _ Hinv) as (_ & Hwf & _). by apply (wf_lookup _ _ _ _ Hwf).
Qed.

Lemma X15_witness :
  ∃ s' t', load_from_file 300 demo_disk create_splay_tree = Some (tt, s') ∧
           tree_inv s' t' ∧
           (∀ q, is_Some (mem s' !! q) ↔ q ∈ addrs t') ∧
           (length (entries t') ≤ file_size demo_disk)%nat ∧
           (history demo_disk = None → s' = create_splay_tree).
Proof.
  apply (X15_load_builds_search_tree 300 demo_disk).
  - intros text [= <-]. vm_compute. reflexivity.
  - vm_compute. lia.
Defined.

(** ** Saving *)

(** The nodes that [save_to_file] and [output_list] print. *)
Lemma collect_nodes_spec fuel s t :
  wf_state s t → (length (entries t) < fuel)%nat →
  ∃ ns, (let* rt := get_root in
         let* nodes := collect_inorder fuel rt [] in
         read_list nodes) s = Some (ns, s) ∧
        map data_of ns = map snd (take MAX_CHATS (entries t)).
Proof.
  intros (Hroot & Hwf & Hnd) Hfuel.
  rewrite bind_get_root, Hroot.
  rewrite (bind_run _ _ _ _ _ (collect_inorder_spec s fuel t None [] Hwf (height_lt_fuel _ _ Hfuel))).
  cbn [app length]. rewrite Nat.sub_0_r.
  destruct (read_nodes_entries (mem s) None t (take MAX_CHATS (entries t)) Hwf)
    as (ns & Hns & Hds); [apply take_subseteq|].
  exists ns. unfold read_list, addrs. rewrite <- firstn_map in Hns. by rewrite Hns.
Qed.

Lemma save_to_file_spec fuel d s t :
  wf_state s t → (length (entries t) < fuel)%nat →
  ∃ d', save_to_file fuel d s = Some (d', s) ∧
    (writable d = false → d' = d) ∧
    (writable d = true →
       ∃ ns, map data_of ns = map snd (take MAX_CHATS (entries t)) ∧
             d' = mkDisk (Some (file_text ns)) true).
Proof.
  intros Hwf Hfuel. unfold save_to_file.
  destruct (writable d) eqn:Hw.
  - destruct (collect_nodes_spec fuel s t Hwf Hfuel) as (ns & Hrun & Hds).
    rewrite <- !bind_assoc. rewrite (bind_run _ _ _ _ _ Hrun).
    eexists. split; [reflexivity|]. split; [done|]. intros _. by exists ns.
  - exists d. done.
Qed.

(** ** Numerals *)

Section Decimal.

Lemma digit_of_char d : 0 ≤ d < 10 → digit_of (digit_char d) = Some d.
Proof.
  intros H. unfold digit_of, digit_char.
  rewrite Ascii.N_ascii_embedding by lia. rewrite Z2N.id by lia.
  destruct (Z.leb_spec 48 (48 + d)); [|lia].
  destruct (Z.leb_spec (48 + d) 57); [|lia]. cbn [andb]. f_equal. lia.
Qed.

Lemma digit_char_not c d : 0 ≤ d < 10 → ¬ (48 ≤ Z.of_N (Ascii.N_of_ascii c) ≤ 57) → digit_char d ≠ c.
Proof.
  intros H Hc <-. apply Hc. unfold digit_char.
  rewrite Ascii.N_ascii_embedding by lia. lia.
Qed.

Lemma print_digits_app n : ∀ z acc rest,
  (print_digits n z acc ++ rest)%string = print_digits n z (acc ++ rest).
Proof.
  induction n as [|n IH]; intros z acc rest; cbn [print_digits]; [done|].
  destruct (z <? 10); [by rewrite append_cons_l|]. rewrite IH. by rewrite append_cons_l.
Qed.

Lemma atol_digits_print n : ∀ z acc,
  0 ≤ z < 10 ^ Z.of_nat n → (0 < n)%nat →
  ∃ k, 0 ≤ k ∧ ∀ a, atol_digits (print_digits n z acc) a = atol_digits acc (a * 10 ^ k + z).
Proof.
  induction n as [|n IH]; intros z acc Hz Hn; [lia|].
  cbn [print_digits].
  destruct (Z.ltb_spec z 10) as [Hlt|Hge].
  - exists 1. split; [lia|]. intros a. cbn [atol_digits].
    rewrite Z.mod_small by lia. rewrite digit_of_char by lia. f_equal. lia.
  - assert (0 < n)%nat as Hn'.
    { destruct n; [|lia]. change (10 ^ Z.of_nat 1) with 10 in Hz. lia. }
    destruct (IH (z / 10) (String (digit_char (z mod 10)) acc)) as (k & Hk & IHk); [|done|].
    { split; [apply Z.div_pos; lia|]. apply Z.div_lt_upper_bound; [lia|].
      rewrite Nat2Z.inj_succ, Z.pow_succ_r in Hz by lia. lia. }
    exists (k + 1). split; [lia|]. intros a. rewrite IHk. cbn [atol_digits].
    rewrite digit_of_char by (apply Z.mod_pos_bound; lia). f_equal.
    rewrite Z.pow_add_r by lia. pose proof (Z.div_mod z 10 ltac:(lia)). lia.
Qed.

Lemma print_digits_head n : ∀ z acc, (0 < n)%nat → 0 ≤ z →
  ∃ d rest, 0 ≤ d < 10 ∧ print_digits n z acc = String (digit_char d) rest.
Proof.
  induction n as [|n IH]; intros z acc Hn Hz; [lia|]. cbn [print_digits].
  destruct (Z.ltb_spec z 10) as [Hlt|Hge].
  - exists (z mod 10), acc. split; [apply Z.mod_pos_bound; lia|done].
  - destruct n as [|n].
    + cbn [print_digits]. exists (z mod 10), acc. split; [apply Z.mod_pos_bound; lia|done].
    + apply IH; [lia|]. apply Z.div_pos; lia.
Qed.

Lemma isspace_digit d : 0 ≤ d < 10 → isspace (digit_char d) = false.
Proof.
  intros H. unfold isspace, digit_char. rewrite Ascii.N_ascii_embedding by lia.
  destruct (N.eqb_spec (Z.to_N (48 + d)) 32); [lia|].
  destruct (N.leb_spec 9 (Z.to_N (48 + d))), (N.leb_spec (Z.to_N (48 + d)) 13); try done; lia.
Qed.

(** [atol] reads back what [%ld] printed, when a character that is not a
    digit follows. *)
Lemma atol_print_long z c rest :
  LONG_MIN ≤ z ≤ LONG_MAX → digit_of c = None →
  atol (print_long z ++ String c rest) = Some z.
Proof.
  intros Hz Hc. unfold print_long, LONG_MIN, LONG_MAX in *.
  assert (∀ v, 0 ≤ v < 10 ^ Z.of_nat 19 →
            atol_digits (print_digits 19 v EmptyString ++ String c rest) 0 = v) as Hparse.
  { intros v Hv. rewrite print_digits_app, append_empty_l.
    destruct (atol_digits_print 19 v (String c rest) Hv ltac:(lia)) as (k & Hk & ->).
    cbn [atol_digits]. rewrite Hc. lia. }
  unfold atol. destruct (Z.ltb_spec z 0) as [Hneg|Hpos].
  - rewrite append_cons_l. cbn [skip_spaces].
    change (isspace minus_char) with false. cbn iota.
    change (Ascii.eqb minus_char minus_char) with true. cbn iota.
    rewrite Hparse by (change (10 ^ Z.of_nat 19) with 10000000000000000000; lia).
    rewrite Z.opp_involutive.
    unfold LONG_MIN, LONG_MAX.
    destruct (Z.leb_spec (-9223372036854775808) z), (Z.leb_spec z 9223372036854775807);
      try lia. done.
  - destruct (print_digits_head 19 z EmptyString ltac:(lia) Hpos) as (d & r & Hd & Hhead).
    pose proof (Hparse z ltac:(change (10 ^ Z.of_nat 19) with 10000000000000000000; lia)) as Hp.
    rewrite Hhead in Hp |- *. rewrite append_cons_l in Hp |- *.
    cbn [skip_spaces]. rewrite isspace_digit by done.
    destruct (Ascii.eqb_spec (digit_char d) minus_char) as [E|_].
    { exfalso. revert E. apply digit_char_not; [done|]. vm_compute. intros [H _]. by apply H. }
    destruct (Ascii.eqb_spec (digit_char d) plus_char) as [E|_].
    { exfalso. revert E. apply digit_char_not; [done|]. vm_compute. intros [H _]. by apply H. }
    rewrite Hp.
    unfold LONG_MIN, LONG_MAX.
    destruct (Z.leb_spec (-9223372036854775808) z), (Z.leb_spec z 9223372036854775807);
      try lia. done.
Qed.

Lemma lacks_print_digits x n : ∀ z acc,
  ¬ (48 ≤ Z.of_N (Ascii.N_of_ascii x) ≤ 57) → 0 ≤ z → lacks x acc →
  lacks x (print_digits n z acc).
Proof.
  induction n as [|n IH]; intros z acc Hx Hz Hacc; cbn [print_digits]; [done|].
  assert (lacks x (String (digit_char (z mod 10)) acc)) as H.
  { split; [|done]. apply digit_char_not; [apply Z.mod_pos_bound; lia|done]. }
  destruct (z <? 10); [done|]. apply IH; [done| |done]. apply Z.div_pos; lia.
Qed.

Lemma lacks_print_long x z :
  ¬ (48 ≤ Z.of_N (Ascii.N_of_ascii x) ≤ 57) → x ≠ minus_char → lacks x (print_long z).
Proof.
  intros Hx Hm. unfold print_long. destruct (Z.ltb_spec z 0).
  - split; [congruence|]. apply lacks_print_digits; [done|lia|done].
  - apply lacks_print_digits; [done|lia|done].
Qed.

Lemma print_digits_length n : ∀ z acc,
  (String.length (print_digits n z acc) ≤ n + String.length acc)%nat.
Proof.
  induction n as [|n IH]; intros z acc; cbn [print_digits]; [lia|].
  destruct (z <? 10); cbn [String.length]; [lia|].
  specialize (IH (z / 10) (String (digit_char (z mod 10)) acc)). cbn [String.length] in IH. lia.
Qed.

Lemma print_long_length z : (String.length (print_long z) ≤ 20)%nat.
Proof.
  unfold print_long. destruct (z <? 0); cbn [String.length].
  - pose proof (print_digits_length 19 (- z) EmptyString). cbn [String.length] in *. lia.
  - pose proof (print_digits_length 19 z EmptyString). cbn [String.length] in *. lia.
Qed.
End Decimal.

(** ** Searching the buffer *)

(** [snorm] brings a text that begins with known characters into the form
    of its first character and its rest. *)
Ltac snorm := repeat first [ rewrite append_cons_l | rewrite append_empty_l ].

Section Search.
Implicit Types (s t X Y R J W needle : string) (c x : ascii).

Lemma strstr_cons_false needle c s :
  String.prefix needle (String c s) = false →
  strstr (String c s) needle = strstr s needle.
Proof. intros H. cbn [strstr]. by rewrite H. Qed.

Lemma strstr_here needle s : String.prefix needle s = true → strstr s needle = Some s.
Proof. intros H. destruct s; cbn [strstr]; by rewrite H. Qed.

Lemma prefix_head_ne x needle c s : c ≠ x → String.prefix (String x needle) (String c s) = false.
Proof. intros H. cbn [String.prefix]. destruct (ascii_dec x c); [congruence|done]. Qed.

(** A needle that begins with [x] is not found in a text without [x]. *)
Lemma strstr_skip x needle J : ∀ X,
  lacks x J → strstr (J ++ X) (String x needle) = strstr X (String x needle).
Proof.
  induction J as [|c J IH]; intros X HJ; [done|].
  destruct HJ as [Hc HJ]. rewrite append_cons_l.
  rewrite strstr_cons_false by (by apply prefix_head_ne). by apply IH.
Qed.

Lemma prefix_app needle X : String.prefix needle (needle ++ X) = true.
Proof.
  induction needle as [|c n IH]; [by destruct X|].
  rewrite append_cons_l. cbn [String.prefix]. by destruct (ascii_dec c c).
Qed.

Lemma advance_app needle X : advance (String.length needle) (needle ++ X) = X.
Proof. induction needle as [|c n IH]; [by destruct X|]. by rewrite append_cons_l. Qed.

Lemma advance_id_tag X : advance 6 (id_tag ++ X) = X.
Proof. exact (advance_app id_tag X). Qed.
Lemma advance_title_tag X : advance 9 (title_tag ++ X) = X.
Proof. exact (advance_app title_tag X). Qed.
Lemma advance_timestamp_tag X : advance 12 (timestamp_tag ++ X) = X.
Proof. exact (advance_app timestamp_tag X). Qed.

Lemma read_id_exact id rest : ∀ i,
  lacks quote_char id → (i + String.length id ≤ MAX_ID_LEN - 1)%nat →
  read_id (id ++ String quote_char rest) i = (id, String quote_char rest).
Proof.
  induction id as [|c id IH]; intros i Hq Hlen.
  - rewrite append_empty_l. cbn [read_id]. by rewrite Ascii.eqb_refl.
  - destruct Hq as [Hc Hq]. rewrite append_cons_l. cbn [read_id String.length] in *.
    destruct (Ascii.eqb_spec c quote_char); [done|]. cbn [negb andb].
    destruct (Nat.ltb_spec i (MAX_ID_LEN - 1)); [|lia].
    by rewrite IH by (done || lia).
Qed.

(** An escaped title that is followed by the closing quote and a comma does
    not begin with [W], a quote and a colon, when [W] has neither a quote nor
    a backslash. *)
Lemma prefix_escaped t Y m : ∀ W j,
  no_backslash t → lacks quote_char W → lacks backslash_char W →
  String.prefix (W ++ String quote_char ":")
    (json_escape_loop t j m ++ String quote_char (String "," Y)) = false.
Proof.
  assert (∀ W, lacks quote_char W →
            String.prefix (W ++ String quote_char ":") (String quote_char (String "," Y)) = false)
    as Hend.
  { intros [|w W] HW; [done|]. destruct HW as [Hw _]. rewrite append_cons_l.
    by apply prefix_head_ne. }
  assert (∀ W c s, lacks c W → c ≠ quote_char →
            String.prefix (W ++ String quote_char ":") (String c s) = false) as Hchar.
  { intros [|w W] c s HW Hc.
    - rewrite append_empty_l. by apply prefix_head_ne.
    - destruct HW as [Hw _]. rewrite append_cons_l. apply prefix_head_ne. congruence. }
  induction t as [|c t IH]; intros W j Ht HWq HWb; cbn [json_escape_loop].
  - snorm. by apply Hend.
  - destruct Ht as [Hcb Ht].
    destruct (j <? m - 2); [|snorm; by apply Hend].
    destruct (Ascii.eqb_spec c backslash_char) as [|_]; [done|]. rewrite orb_false_r.
    destruct (Ascii.eqb_spec c quote_char) as [->|Hcq].
    { change (Ascii.eqb quote_char newline_char) with false.
      change (Ascii.eqb quote_char return_char) with false. cbn iota.
      snorm. apply Hchar; [done|]. by vm_compute. }
    destruct (Ascii.eqb_spec c newline_char) as [->|Hcn].
    { snorm. apply Hchar; [done|]. by vm_compute. }
    destruct (Ascii.eqb_spec c return_char) as [->|Hcr].
    { snorm. by apply IH. }
    destruct W as [|w W]; snorm.
    + by apply prefix_head_ne.
    + destruct HWq as [_ HWq], HWb as [_ HWb]. cbn [String.prefix].
      destruct (ascii_dec w c); [|done]. by apply IH.
Qed.

(** The search for [timestamp_tag] from the quote that ends the id passes
    over the escaped title. *)
Lemma strstr_escaped t R m : ∀ j,
  no_backslash t →
  strstr (json_escape_loop t j m ++ String quote_char (String "," (timestamp_tag ++ R)))%string
         timestamp_tag = Some (timestamp_tag ++ R)%string.
Proof.
  assert (strstr (String quote_char (String "," (timestamp_tag ++ R)%string)) timestamp_tag
          = Some (timestamp_tag ++ R)%string) as Hend.
  { rewrite strstr_cons_false by done. rewrite strstr_cons_false by done.
    apply strstr_here, prefix_app. }
  induction t as [|c t IH]; intros j Ht; cbn [json_escape_loop].
  - by snorm.
  - destruct Ht as [Hcb Ht].
    destruct (j <? m - 2); [|by snorm].
    destruct (Ascii.eqb_spec c backslash_char) as [|_]; [done|]. rewrite orb_false_r.
    destruct (Ascii.eqb_spec c quote_char) as [->|Hcq].
    { change (Ascii.eqb quote_char newline_char) with false.
      change (Ascii.eqb quote_char return_char) with false. cbn iota.
      snorm.
      rewrite strstr_cons_false by done.
      rewrite strstr_cons_false; [by apply IH|].
      change timestamp_tag with (String quote_char ("timestamp" ++ String quote_char ":")).
      cbn [String.prefix]. destruct (ascii_dec quote_char quote_char); [|done].
      apply prefix_escaped; [done|by vm_compute|by vm_compute]. }
    destruct (Ascii.eqb_spec c newline_char) as [->|Hcn].
    { snorm.
      rewrite strstr_cons_false by done. rewrite strstr_cons_false by done. by apply IH. }
    destruct (Ascii.eqb_spec c return_char) as [->|Hcr].
    { snorm. by apply IH. }
    snorm.
    rewrite strstr_cons_false; [by apply IH|].
    apply prefix_head_ne. done.
Qed.
End Search.

(** ** Reading back what was saved *)

Section Records.

Lemma append_assoc (a b c : string) : ((a ++ b) ++ c)%string = (a ++ (b ++ c))%string.
Proof. induction a as [|x a IH]; [done|]. snorm. by rewrite IH. Qed.

(** The text of a record and what follows it, from the pointer's view. *)
Lemma chat_text_app n R :
  (chat_text n ++ R)%string =
  String "{" (id_tag ++ chat_id n ++ String quote_char (String "," (title_tag ++
     json_escape (title n) (2 * Z.of_nat MAX_TITLE_LEN) ++ String quote_char (String "," (
     timestamp_tag ++ print_long (timestamp n) ++ String "}" R)))))%string.
Proof.
  unfold chat_text, quote.
  by repeat first [ rewrite append_assoc | rewrite append_cons_l | rewrite append_empty_l ].
Qed.

Lemma load_loop_record fuel0 fuel J n R s :
  (∀ X, strstr (J ++ X) id_tag = strstr X id_tag) →
  readable (data_of n) → data_ok (data_of n) →
  load_loop fuel0 (S fuel) (J ++ chat_text n ++ R) s =
  (insert_chat fuel0 (chat_id n) (drop_returns (title n)) (timestamp n);;
   load_loop fuel0 fuel (print_long (timestamp n) ++ String "}" R)) s.
Proof.
  intros HJ (_ & Hq & _ & Hb & Hts) [Hlid Hlti]. cbn [data_of d_id d_title d_ts] in *.
  unfold MAX_ID_LEN, MAX_TITLE_LEN in Hlid, Hlti.
  cbn [load_loop]. rewrite HJ, chat_text_app.
  rewrite strstr_cons_false by done.
  rewrite strstr_here by apply prefix_app. cbn beta iota zeta.
  rewrite advance_id_tag.
  rewrite read_id_exact by (done || (unfold MAX_ID_LEN; lia)).
  rewrite strstr_cons_false by done. rewrite strstr_cons_false by done.
  rewrite strstr_here by apply prefix_app. cbn beta iota zeta.
  rewrite advance_title_tag.
  pose proof (load_title_escape
    (String "," (timestamp_tag ++ print_long (timestamp n) ++ String "}" R)) (title n) 0 0%nat Hb
    ltac:(lia) ltac:(unfold MAX_TITLE_LEN; lia) ltac:(unfold MAX_TITLE_LEN; lia)) as Hti.
  unfold after_title in Hti. unfold json_escape. rewrite Hti.
  rewrite strstr_cons_false by done. rewrite strstr_cons_false by done.
  unfold title_tag at 1. snorm.
  do 8 (rewrite strstr_cons_false by done).
  rewrite strstr_cons_false.
  2:{ change timestamp_tag with (String quote_char ("timestamp" ++ String quote_char ":")).
      cbn [String.prefix]. destruct (ascii_dec quote_char quote_char); [|done].
      apply prefix_escaped; [done|by vm_compute|by vm_compute]. }
  rewrite strstr_escaped by done.
  cbn beta iota zeta. rewrite advance_timestamp_tag.
  rewrite atol_print_long by done. done.
Qed.
End Records.

Section RoundTrip.

Lemma drop_returns_length t : (String.length (drop_returns t) ≤ String.length t)%nat.
Proof.
  induction t as [|c t IH]; cbn [drop_returns String.length]; [lia|].
  destruct (Ascii.eqb c return_char); cbn [String.length]; lia.
Qed.

Lemma stored_reloaded n :
  data_ok (data_of n) →
  stored (chat_id n) (drop_returns (title n)) (timestamp n) = reloaded (data_of n).
Proof.
  intros [Hid Hti]. cbn [data_of d_id d_title] in *. unfold stored, reloaded. cbn [data_of d_id d_title d_ts].
  pose proof (drop_returns_length (title n)).
  rewrite !strncpy_short by (unfold MAX_ID_LEN, MAX_TITLE_LEN in *; lia). done.
Qed.

(** Inserting a key above all keys of the tree appends its entry. *)
Lemma insert_chat_last fuel k ti ts s t :
  tree_inv s t → heap_exact s t →
  (String.length k < MAX_ID_LEN)%nat →
  Forall (λ k0, slt k0 k) (keys t) →
  size (tree s) < INT_MAX →
  (length (entries t) < fuel)%nat →
  ∃ x s' t', insert_chat fuel k ti ts s = Some (x, s') ∧ tree_inv s' t' ∧ heap_exact s' t' ∧
             map snd (entries t') = map snd (entries t) ++ [stored k ti ts] ∧
             size (tree s') = size (tree s) + 1.
Proof.
  intros Hinv Hheap Hshort Hall Hroom Hfuel.
  destruct (insert_chat_heap fuel k ti ts s t Hinv Hheap Hroom Hfuel)
    as (x & s' & l & r & e1 & e2 & Hrun & _ & Hent & _ & Habs & Hinv' & Hheap').
  specialize (Hinv' Hshort).
  assert (k ∉ keys t) as Hout.
  { intros Hin. rewrite Forall_forall in Hall. by apply (slt_irrefl k), Hall. }
  destruct (Habs Hout) as (Ht & _ & Hsz).
  exists x, s', (Node l x (stored k ti ts) r). split; [exact Hrun|]. split; [exact Hinv'|].
  split; [exact Hheap'|]. split; [|exact Hsz].
  assert (e2 = []) as ->.
  { destruct e2 as [|[y dy] e2]; [done|]. exfalso.
    pose proof (inv_sorted _ _ Hinv') as Hs. unfold sorted in Hs.
    rewrite keys_entries, Hent, map_app in Hs. cbn [map] in Hs.
    apply StronglySorted_app in Hs as (_ & _ & Hs).
    apply StronglySorted_cons in Hs as [Hk _]. apply Forall_cons in Hk as [Hk _].
    unfold key_of in Hk. cbn [snd] in Hk.
    assert (slt (d_id dy) k) as Hk'.
    { rewrite Forall_forall in Hall. apply Hall. unfold keys. rewrite Ht, map_app. cbn [map snd].
      mem_tac. }
    assert (d_id (stored k ti ts) = k) as Hid.
    { cbn. apply strncpy_short. unfold MAX_ID_LEN in *. lia. }
    rewrite Hid in Hk. by apply (slt_asym _ _ Hk). }
  rewrite Hent, Ht, app_nil_r, map_app. done.
Qed.

Lemma strstr_header X :
  strstr (String "{" (quote ++ "chats" ++ quote ++ ":[" ++ X)) id_tag = strstr X id_tag.
Proof. unfold quote. snorm. by do 10 (rewrite strstr_cons_false by done). Qed.

Lemma chats_text_cons i n ns :
  chats_text i (n :: ns) =
  ((if (0 <? i)%nat then "," else "") ++ chat_text n ++ chats_text (S i) ns)%string.
Proof. reflexivity. Qed.

Lemma load_loop_records fuel0 : ∀ ns fuel i J s t,
  (∀ X, strstr (J ++ X) id_tag = strstr X id_tag) →
  tree_inv s t → heap_exact s t →
  Forall (λ n, readable (data_of n) ∧ data_ok (data_of n)) ns →
  StronglySorted slt (keys t ++ map chat_id ns) →
  (length ns < fuel)%nat →
  size (tree s) + Z.of_nat (length ns) < INT_MAX →
  size (tree s) + Z.of_nat (length ns) < Z.of_nat fuel0 →
  ∃ s' t', load_loop fuel0 fuel (J ++ chats_text i ns ++ "]}") s = Some (tt, s') ∧
           tree_inv s' t' ∧ heap_exact s' t' ∧
           map snd (entries t') = map snd (entries t) ++ map (λ n, reloaded (data_of n)) ns.
Proof.
  induction ns as [|n ns IH]; intros fuel i J s t HJ Hinv Hheap Hok Hsorted Hfuel Hroom Hfuel0.
  - destruct fuel as [|fuel]; [cbn in Hfuel; lia|].
    exists s, t. cbn [chats_text load_loop map]. rewrite append_empty_l, HJ, app_nil_r.
    done.
  - destruct fuel as [|fuel]; [cbn in Hfuel; lia|]. cbn [length] in *.
    apply Forall_cons in Hok as [[Hread Hdok] Hok].
    rewrite chats_text_cons, !append_assoc, <- (append_assoc J).
    rewrite load_loop_record; [|
      |done|done].
    2:{ intros X. rewrite append_assoc, HJ. destruct (0 <? i)%nat; [|done].
        snorm. by rewrite strstr_cons_false by done. }
    pose proof (inv_size _ _ Hinv) as Hsize.
    destruct (insert_chat_last fuel0 (chat_id n) (drop_returns (title n)) (timestamp n) s t Hinv Hheap)
      as (x & s1 & t1 & Hrun1 & Hinv1 & Hheap1 & Hent1 & Hsz1); [apply Hdok| |lia|lia|].
    { cbn [map] in Hsorted.
      pose proof (proj1 (StronglySorted_app _ _ _) Hsorted) as (Hall & _ & _).
      rewrite Forall_forall. intros k0 Hk0. apply (Hall k0 (chat_id n) Hk0). mem_tac. }
    rewrite (bind_run _ _ _ _ _ Hrun1).
    destruct Hread as (_ & _ & _ & _ & Hts).
    destruct (IH fuel (S i) (print_long (timestamp n) ++ "}")%string s1 t1)
      as (s' & t' & Hrun & Hinv' & Hheap' & Hent'); [|done|done|done| |lia|lia|lia|].
    { intros X. rewrite append_assoc. change id_tag with (String quote_char (String "i" (String "d" (String quote_char (String ":" (String quote_char EmptyString)))))).
      rewrite strstr_skip; [snorm; by rewrite strstr_cons_false by done|].
      apply lacks_print_long; [vm_compute; intros [H _]; by apply H|done]. }
    { assert (keys t1 = keys t ++ [chat_id n]) as ->.
      { unfold keys. rewrite <- !(map_map snd d_id), Hent1, map_app. cbn [map].
        do 2 f_equal. cbn. apply strncpy_short. destruct Hdok as [Hd _]. cbn in Hd.
        unfold MAX_ID_LEN in *. lia. }
      rewrite <- app_assoc. exact Hsorted. }
    exists s', t'. split; [|split; [done|split; [done|]]].
    + rewrite <- Hrun. f_equal. snorm. by rewrite !append_assoc.
    + rewrite Hent', Hent1, <- app_assoc. cbn [map app]. by rewrite stored_reloaded.
Qed.
End RoundTrip.

Section Buffer.

Lemma c_str_lacks s : lacks zero s → c_str s = s.
Proof.
  induction s as [|c s IH]; [done|]. intros [Hc Hs]. cbn [c_str].
  destruct (Ascii.eqb_spec c zero); [done|]. by rewrite IH.
Qed.

Lemma take_bytes_all s : ∀ n, Z.of_nat (String.length s) ≤ n → take_bytes n s = s.
Proof.
  induction s as [|c s IH]; intros n Hn; [done|]. cbn [take_bytes String.length] in *.
  destruct (Z.leb_spec n 0); [lia|]. rewrite IH; [done|lia].
Qed.

Lemma lacks_json_escape x t m : ∀ j,
  lacks x t → x ≠ backslash_char → x ≠ n_char → lacks x (json_escape_loop t j m).
Proof.
  induction t as [|c t IH]; intros j Ht Hb Hn; [done|]. destruct Ht as [Hc Ht].
  cbn [json_escape_loop]. destruct (j <? m - 2); [|done].
  apply lacks_app. split; [|by apply IH].
  apply lacks_app. split.
  - destruct (_ || _); cbn [lacks]; [split; [congruence|done]|done].
  - destruct (Ascii.eqb c newline_char); [cbn [lacks]; split; [congruence|split; [congruence|done]]|].
    destruct (Ascii.eqb c return_char); cbn [lacks]; [done|]. split; [congruence|done].
Qed.

Lemma not_digit_zero : ¬ (48 ≤ Z.of_N (Ascii.N_of_ascii zero) ≤ 57).
Proof. vm_compute. intros [H _]. by apply H. Qed.

Lemma chat_text_ok n :
  lacks zero (chat_id n) → lacks zero (title n) →
  (String.length (chat_id n) < MAX_ID_LEN)%nat →
  lacks zero (chat_text n) ∧ (String.length (chat_text n) ≤ 627)%nat.
Proof.
  intros Hid Hti Hlen. unfold chat_text, quote. split.
  - rewrite !lacks_app. repeat split; try done.
    + by apply lacks_json_escape.
    + apply lacks_print_long; [apply not_digit_zero|done].
  - pose proof (json_escape_loop_bound (title n) 0 (2 * Z.of_nat MAX_TITLE_LEN)
                  ltac:(unfold MAX_TITLE_LEN; lia)).
    unfold json_escape.
    pose proof (print_long_length (timestamp n)).
    rewrite !length_append. cbn [String.length].
    change (String.length id_tag) with 6%nat. change (String.length title_tag) with 9%nat.
    change (String.length timestamp_tag) with 12%nat.
    unfold MAX_ID_LEN, MAX_TITLE_LEN in *. lia.
Qed.

Lemma chats_text_ok ns : ∀ i,
  Forall (λ n, lacks zero (chat_id n) ∧ lacks zero (title n) ∧
               (String.length (chat_id n) < MAX_ID_LEN)%nat) ns →
  lacks zero (chats_text i ns) ∧ (String.length (chats_text i ns) ≤ 628 * length ns)%nat.
Proof.
  induction ns as [|n ns IH]; intros i Hok; [cbn; split; [done|lia]|].
  apply Forall_cons in Hok as [(Hid & Hti & Hlen) Hok].
  destruct (IH (S i) Hok) as [IH1 IH2]. destruct (chat_text_ok n Hid Hti Hlen) as [H1 H2].
  rewrite chats_text_cons. split.
  - rewrite !lacks_app. split; [by destruct (0 <? i)%nat|done].
  - rewrite !length_append. cbn [length].
    assert (String.length (if (0 <? i)%nat then "," else "") ≤ 1)%nat by (destruct (0 <? i)%nat; cbn; lia).
    lia.
Qed.

Lemma buffer_of_file_text ns :
  Forall (λ n, lacks zero (chat_id n) ∧ lacks zero (title n) ∧
               (String.length (chat_id n) < MAX_ID_LEN)%nat) ns →
  (length ns ≤ MAX_CHATS)%nat →
  buffer_of (file_text ns) = file_text ns.
Proof.
  intros Hok Hlen. destruct (chats_text_ok ns 0 Hok) as [H1 H2].
  unfold buffer_of. rewrite take_bytes_all.
  - apply c_str_lacks. unfold file_text, quote. rewrite !lacks_app. by repeat split.
  - unfold file_text, quote. rewrite !length_append. cbn [String.length].
    unfold MAX_CHATS in Hlen. lia.
Qed.
End Buffer.

Lemma StronglySorted_take {A} (R : relation A) n (l : list A) :
  StronglySorted R l → StronglySorted R (take n l).
Proof.
  intros H. rewrite <- (take_drop n l) in H. by apply StronglySorted_app in H as (_ & H & _).
Qed.

Lemma save_load_spec fuel s t d :
  tree_inv s t →
  Forall (λ e, readable (snd e)) (entries t) →
  writable d = true →
  (length (entries t) + 1 < fuel)%nat →
  ∃ d' s' t',
    save_to_file fuel d s = Some (d', s) ∧
    load_from_file fuel d' create_splay_tree = Some (tt, s') ∧
    tree_inv s' t' ∧ heap_exact s' t' ∧
    map snd (entries t') = map reloaded (map snd (take MAX_CHATS (entries t))) ∧
    ∃ ns, map data_of ns = map snd (take MAX_CHATS (entries t)) ∧
          d' = mkDisk (Some (file_text ns)) true.
Proof.
  intros Hinv Hread Hw Hfuel.
  destruct (save_to_file_spec fuel d s t (inv_wf _ _ Hinv) ltac:(lia)) as (d' & Hsave & _ & Hd').
  destruct (Hd' Hw) as (ns & Hns & ->). clear Hd'.
  assert (Forall (λ n, readable (data_of n) ∧ data_ok (data_of n)) ns) as Hok.
  { apply (proj1 (Forall_fmap data_of (λ d, readable d ∧ data_ok d) ns)).
    change (data_of <$> ns) with (map data_of ns). rewrite Hns.
    apply (proj2 (Forall_fmap snd (λ d, readable d ∧ data_ok d) (take MAX_CHATS (entries t)))).
    pose proof (inv_data _ _ Hinv) as Hdata.
    rewrite Forall_forall in Hread, Hdata |- *. intros e He%take_subseteq.
    split; [by apply Hread|by apply Hdata]. }
  assert (length ns ≤ MAX_CHATS ∧ length ns ≤ length (entries t))%nat as [Hlen1 Hlen2].
  { rewrite <- (length_map data_of), Hns, length_map, length_take. lia. }
  set (J := ("{" ++ quote ++ "chats" ++ quote ++ ":[")%string).
  assert (file_text ns = (J ++ chats_text 0 ns ++ "]}")%string) as Htext.
  { unfold file_text, J. by rewrite !append_assoc. }
  destruct (load_loop_records fuel ns fuel 0%nat J create_splay_tree Leaf)
    as (s' & t' & Hrun & Hinv' & Hheap' & Hent');
    [|apply tree_inv_empty|apply heap_exact_empty|exact Hok| |lia| | |].
  { intros X. unfold J. rewrite !append_assoc. snorm. apply strstr_header. }
  { cbn [keys entries map app]. pose proof (inv_sorted _ _ Hinv) as Hs. unfold sorted, keys in Hs.
    apply (StronglySorted_take _ MAX_CHATS) in Hs.
    rewrite firstn_map, <- (map_map snd d_id), <- Hns, map_map in Hs. exact Hs. }
  { cbn [create_splay_tree tree size]. unfold INT_MAX, MAX_CHATS in *. lia. }
  { cbn [create_splay_tree tree size]. lia. }
  exists (mkDisk (Some (file_text ns)) true), s', t'.
  split; [exact Hsave|]. split; [|split; [exact Hinv'|split; [exact Hheap'|split]]].
  - unfold load_from_file. cbn [history].
    rewrite buffer_of_file_text, Htext; [exact Hrun| |lia].
    eapply Forall_impl; [exact Hok|]. intros n [(Hz1 & _ & Hz2 & _) [Hl _]]. done.
  - rewrite Hent'. cbn [entries map app]. by rewrite <- Hns, !map_map.
  - by exists ns.
Qed.

(** X16. What [save_to_file] writes, [load_from_file] reads back: for a
    search tree whose entries are [readable], a writable file and enough
    fuel, saving and then loading into an empty tree gives a search tree whose
    in-order data are those of the first [MAX_CHATS] entries of the saved
    tree, in the same order, the titles without their carriage returns.
    Entries beyond the first [MAX_CHATS] are not saved. *)
Theorem X16_save_load_round_trip fuel s t d :
  tree_inv s t →
  Forall (λ e, readable (snd e)) (entries t) →
  writable d = true →
  (length (entries t) + 1 < fuel)%nat →
  ∃ d' s' t',
    save_to_file fuel d s = Some (d', s) ∧
    load_from_file fuel d' create_splay_tree = Some (tt, s') ∧
    tree_inv s' t' ∧
    map snd (entries t') = map reloaded (map snd (take MAX_CHATS (entries t))).
Proof.
  intros Hinv Hread Hw Hfuel.
  destruct (save_load_spec fuel s t d Hinv Hread Hw Hfuel)
    as (d' & s' & t' & Hsave & Hload & Hinv' & _ & Hent & _).
  by exists d', s', t'.
Qed.

Lemma readable_demo : Forall (λ e, readable (snd e)) (entries demo_tree).
Proof.
  repeat constructor; unfold LONG_MIN, LONG_MAX; cbn [snd d_ts]; try lia;
    vm_compute; repeat split; discriminate.
Qed.

Lemma X16_witness :
  ∃ d' s' t',
    save_to_file 5 demo_disk demo_state = Some (d', demo_state) ∧
    load_from_file 5 d' create_splay_tree = Some (tt, s') ∧
    tree_inv s' t' ∧
    map snd (entries t') = map reloaded (map snd (take MAX_CHATS (entries demo_tree))).
Proof.
  apply (X16_save_load_round_trip 5 demo_state demo_tree demo_disk demo_inv readable_demo).
  - reflexivity.
  - vm_compute. lia.
Defined.

(** ** [main] *)

Lemma output_list_spec qsort fuel s t :
  wf_state s t → (length (entries t) < fuel)%nat →
  ∃ ns, output_list qsort fuel s = Some (list_text (qsort ns), s) ∧
        map data_of ns = map snd (take MAX_CHATS (entries t)).
Proof.
  intros Hwf Hfuel. unfold output_list.
  destruct (collect_nodes_spec fuel s t Hwf Hfuel) as (ns & Hrun & Hds).
  rewrite <- !bind_assoc. rewrite (bind_run _ _ _ _ _ Hrun). by exists ns.
Qed.

Lemma output_chat_spec s t node :
  wf_state s t → (∀ x, node = Some x → x ∈ addrs t) →
  ∃ out, output_chat node s = Some (out, s).
Proof.
  intros (_ & Hwf & _) Hnode. destruct node as [x|]; cbn [output_chat]; [|by eexists].
  destruct (wf_lookup _ _ _ x Hwf (Hnode x eq_refl)) as [n Hn].
  exec. by eexists.
Qed.

Lemma run_command_spec qsort fuel argv now d s t :
  tree_inv s t → heap_exact s t →
  (length (entries t) + 2 ≤ fuel)%nat → size (tree s) < INT_MAX →
  ((5 ≤ length argv)%nat → arg argv 1 = "add"%string → is_Some (atol (arg argv 4))) →
  ∃ r s' t', run_command qsort fuel argv now d s = Some (r, s') ∧
             wf_state s' t' ∧ heap_exact s' t' ∧
             (length (entries t') ≤ S (length (entries t)))%nat.
Proof.
  intros Hinv Hheap Hfuel Hroom Hatol. unfold run_command.
  pose proof (inv_wf _ _ Hinv) as Hwf.
  destruct ((strcmp (arg argv 1) "add" =? 0) && (4 <=? length argv)%nat) eqn:Eadd.
  { (* add *)
    apply andb_true_iff in Eadd as [Ecmd%Z.eqb_eq%strcmp_eq _].
    assert (∃ ts, (if (5 <=? length argv)%nat then atol (arg argv 4) else Some now) = Some ts)
      as [ts ->].
    { destruct (Nat.leb_spec 5 (length argv)) as [H5|H5]; [|by eexists].
      destruct (Hatol H5 Ecmd) as [ts Hts]. by exists ts. }
    destruct (heap_exact_insert fuel (arg argv 2) (arg argv 3) ts s t Hinv Hheap Hroom ltac:(lia))
      as (x & s1 & t1 & Hrun1 & Hwf1 & Hheap1 & _ & _ & Hroot1 & Hlen1 & _).
    rewrite (bind_run _ _ _ _ _ Hrun1).
    destruct (save_to_file_spec fuel d s1 t1 Hwf1 ltac:(lia)) as (d1 & Hsave & _).
    rewrite (bind_run _ _ _ _ _ Hsave).
    destruct (output_chat_spec s1 t1 (Some x) Hwf1) as (out & Hout).
    { intros ? [= <-]. by apply root_of_in. }
    rewrite (bind_run _ _ _ _ _ Hout). by exists (out, d1), s1, t1. }
  destruct ((strcmp (arg argv 1) "access" =? 0) && (3 <=? length argv)%nat).
  { (* access *)
    destruct (heap_exact_access fuel (arg argv 2) s t Hinv Hheap ltac:(lia))
      as (node & s1 & t1 & Hrun1 & Hinv1 & Hheap1 & Hent1 & _ & Hnode).
    rewrite (bind_run _ _ _ _ _ Hrun1).
    pose proof (inv_wf _ _ Hinv1) as Hwf1.
    destruct (save_to_file_spec fuel d s1 t1 Hwf1 ltac:(rewrite Hent1; lia)) as (d1 & Hsave & _).
    rewrite (bind_run _ _ _ _ _ Hsave).
    destruct (output_chat_spec s1 t1 node Hwf1) as (out & Hout).
    { intros x Hx. by apply Hnode. }
    rewrite (bind_run _ _ _ _ _ Hout).
    exists (out, d1), s1, t1. rewrite Hent1. split; [done|]. split; [done|]. split; [done|lia]. }
  destruct (strcmp (arg argv 1) "list" =? 0).
  { (* list *)
    destruct (output_list_spec qsort fuel s t Hwf ltac:(lia)) as (ns & Hrun & _).
    rewrite (bind_run _ _ _ _ _ Hrun).
    eexists _, s, t. split; [reflexivity|]. split; [done|]. split; [done|lia]. }
  destruct ((strcmp (arg argv 1) "delete" =? 0) && (3 <=? length argv)%nat).
  { (* delete *)
    destruct (heap_exact_delete fuel (arg argv 2) s t Hinv Hheap ltac:(lia))
      as (b & s1 & t1 & Hrun1 & Hinv1 & Hheap1 & Hsz1).
    rewrite (bind_run _ _ _ _ _ Hrun1).
    pose proof (inv_wf _ _ Hinv1) as Hwf1.
    pose proof (inv_size _ _ Hinv1). pose proof (inv_size _ _ Hinv).
    destruct (b =? 0).
    - eexists _, s1, t1. split; [reflexivity|]. split; [done|]. split; [done|lia].
    - destruct (save_to_file_spec fuel d s1 t1 Hwf1 ltac:(lia)) as (d1 & Hsave & _).
      rewrite (bind_run _ _ _ _ _ Hsave).
      eexists _, s1, t1. split; [reflexivity|]. split; [done|]. split; [done|lia]. }
  destruct (strcmp (arg argv 1) "clear" =? 0).
  { (* clear *)
    rewrite (bind_run _ _ _ _ _ (clear_all_spec fuel s t Hwf Hheap ltac:(lia))).
    destruct (save_to_file_spec fuel d create_splay_tree Leaf (inv_wf _ _ tree_inv_empty)
                ltac:(cbn; lia)) as (d1 & Hsave & _).
    rewrite (bind_run _ _ _ _ _ Hsave).
    eexists _, create_splay_tree, Leaf. split; [reflexivity|].
    split; [apply tree_inv_empty|]. split; [apply heap_exact_empty|cbn; lia]. }
  eexists _, s, t. split; [reflexivity|]. split; [done|]. split; [done|lia].
Qed.

(** X17. [main] runs to its end and frees every node: whatever the
    arguments and the history file (its numerals fitting a [long], as the
    timestamp argument of [add] if there is one), with fuel for the size of
    the file the program returns, with exit code 1 when there is no command
    and 0 otherwise, and no node is allocated when it returns. *)
Theorem X17_main_exits_clean qsort fuel argv now d :
  file_fits d → (file_size d + 2 < fuel)%nat →
  ((5 ≤ length argv)%nat → arg argv 1 = "add"%string → is_Some (atol (arg argv 4))) →
  ∃ code out d', main qsort fuel argv now d = Some (mkOutcome code out d' ∅) ∧
                 (code = if (length argv <? 2)%nat then 1 else 0).
Proof.
  intros Hfit Hfuel Hatol. unfold main.
  destruct (length argv <? 2)%nat; [by eexists _, _, _|].
  destruct (load_from_file_spec fuel d Hfit ltac:(lia))
    as (s1 & t1 & Hload & Hinv1 & Hheap1 & Hlen1 & Hb1 & _).
  rewrite (bind_run _ _ _ _ _ Hload).
  pose proof (inv_size _ _ Hinv1) as Hsz1.
  destruct (run_command_spec qsort fuel argv now d s1 t1 Hinv1 Hheap1 ltac:(lia)
              ltac:(unfold INT_MAX; lia) Hatol) as ([out d'] & s2 & t2 & Hrun & Hwf2 & Hheap2 & Hlen2).
  rewrite (bind_run _ _ _ _ _ Hrun).
  rewrite (bind_run _ _ _ _ _ (clear_all_spec fuel s2 t2 Hwf2 Hheap2 ltac:(lia))).
  by eexists _, _, _.
Qed.

Lemma X17_witness :
  ∃ code out d',
    main stable_sort_by_timestamp 300 ["splayTree"; "add"; "d"; "Notes"; "300"] 0 demo_disk
    = Some (mkOutcome code out d' ∅) ∧ code = 0.
Proof.
  apply (X17_main_exits_clean stable_sort_by_timestamp 300
           ["splayTree"; "add"; "d"; "Notes"; "300"] 0 demo_disk).
  - intros text [= <-]. vm_compute. reflexivity.
  - vm_compute. lia.
  - intros _ _. vm_compute. by eexists.
Defined.

Lemma strcmp_ne a b : a ≠ b → (strcmp a b =? 0) = false.
Proof. intros H. apply Z.eqb_neq. by rewrite strcmp_eq. Qed.

(** X18. Only [add], [access], [delete] and [clear] write the history
    file: a run whose command is none of these with the arguments it
    needs ([list], an unknown command, a command without its arguments)
    leaves the file as it was. *)
Theorem X18_main_keeps_file qsort fuel argv now d o :
  main qsort fuel argv now d = Some o →
  arg argv 1 ≠ "add" ∨ (length argv < 4)%nat →
  arg argv 1 ≠ "access" ∨ (length argv < 3)%nat →
  arg argv 1 ≠ "delete" ∨ (length argv < 3)%nat →
  arg argv 1 ≠ "clear" →
  disk_after o = d.
Proof.
  unfold main. intros Hrun Hadd Hacc Hdel Hclr.
  destruct (length argv <? 2)%nat; [by injection Hrun as <-|].
  destruct (bind _ _ _) as [[[out d'] s']|] eqn:E; [|done]. injection Hrun as <-.
  cbn [disk_after].
  apply bind_inv in E as (? & s1 & _ & E).
  apply bind_inv in E as ([out1 d1] & s2 & Hcmd & E).
  apply bind_inv in E as (? & s3 & _ & [= <- <- <-]).
  revert Hcmd. unfold run_command.
  assert ((strcmp (arg argv 1) "add" =? 0) && (4 <=? length argv)%nat = false) as ->.
  { destruct Hadd as [H|H]; [by rewrite strcmp_ne|].
    apply andb_false_intro2. apply Nat.leb_gt. lia. }
  assert ((strcmp (arg argv 1) "access" =? 0) && (3 <=? length argv)%nat = false) as ->.
  { destruct Hacc as [H|H]; [by rewrite strcmp_ne|].
    apply andb_false_intro2. apply Nat.leb_gt. lia. }
  assert ((strcmp (arg argv 1) "delete" =? 0) && (3 <=? length argv)%nat = false) as ->.
  { destruct Hdel as [H|H]; [by rewrite strcmp_ne|].
    apply andb_false_intro2. apply Nat.leb_gt. lia. }
  rewrite (strcmp_ne _ _ Hclr).
  destruct (strcmp (arg argv 1) "list" =? 0).
  - intros (? & ? & _ & [= _ <- _])%bind_inv. done.
  - by intros [= _ <- _].
Qed.

Lemma X18_witness :
  ∃ o, main stable_sort_by_timestamp 300 ["splayTree"; "list"] 0 demo_disk = Some o ∧
       disk_after o = demo_disk.
Proof.
  destruct (main stable_sort_by_timestamp 300 ["splayTree"; "list"] 0 demo_disk)
    as [o|] eqn:E; [|vm_compute in E; discriminate E].
  exists o. split; [reflexivity|].
  apply (X18_main_keeps_file stable_sort_by_timestamp 300 ["splayTree"; "list"] 0 demo_disk o E).
  - left. discriminate.
  - left. discriminate.
  - left. discriminate.
  - discriminate.
Defined.

Lemma output_chat_found s x n :
  mem s !! x = Some n → output_chat (Some x) s = Some (found_text n, s).
Proof. intros Hn. cbn [output_chat]. by exec. Qed.

(** [main] up to the command: the arguments are there and the file is
    loaded. *)
Lemma main_loaded qsort fuel argv now d :
  file_fits d → (file_size d + 2 < fuel)%nat → (2 ≤ length argv)%nat →
  ∃ s1 t1,
    tree_inv s1 t1 ∧ heap_exact s1 t1 ∧ (length (entries t1) ≤ file_size d)%nat ∧
    Z.of_nat (length (entries t1)) ≤ 65535 ∧
    (history d = None → s1 = create_splay_tree) ∧
    load_from_file fuel d create_splay_tree = Some (tt, s1) ∧
    main qsort fuel argv now d =
    match (let* r := run_command qsort fuel argv now d in clear_all fuel;; ret r) s1 with
    | Some ((out, d'), s) => Some (mkOutcome 0 out d' (mem s))
    | None => None
    end.
Proof.
  intros Hfit Hfuel Hargs.
  destruct (load_from_file_spec fuel d Hfit ltac:(lia))
    as (s1 & t1 & Hload & Hinv1 & Hheap1 & Hlen1 & Hb1 & Hnone).
  exists s1, t1. repeat (split; [done|]). unfold main.
  destruct (Nat.ltb_spec (length argv) 2); [lia|].
  by rewrite (bind_run _ _ _ _ _ Hload).
Qed.

(** X19. [clear] forgets every chat for good: whatever the history file,
    a run of [main] with the command [clear] prints the success message,
    exits with 0 and, when the file can be written, leaves a file with an
    empty list of chats, from which [load_from_file] builds the empty
    tree. *)
Theorem X19_main_clear qsort fuel argv now d :
  file_fits d → (file_size d + 2 < fuel)%nat →
  (2 ≤ length argv)%nat → arg argv 1 = "clear"%string →
  main qsort fuel argv now d =
    Some (mkOutcome 0 (output_success "All chats cleared")
            (if writable d then mkDisk (Some (file_text [])) true else d) ∅) ∧
  load_from_file fuel (mkDisk (Some (file_text [])) true) create_splay_tree
    = Some (tt, create_splay_tree).
Proof.
  intros Hfit Hfuel Hargs Hcmd.
  destruct fuel as [|fuel]; [lia|].
  split; [|reflexivity].
  destruct (main_loaded qsort (S fuel) argv now d Hfit Hfuel Hargs)
    as (s1 & t1 & Hinv1 & Hheap1 & Hlen1 & _ & _ & _ & ->).
  unfold run_command. rewrite Hcmd.
  change (strcmp "clear" "add" =? 0) with false.
  change (strcmp "clear" "access" =? 0) with false.
  change (strcmp "clear" "list" =? 0) with false.
  change (strcmp "clear" "delete" =? 0) with false.
  change (strcmp "clear" "clear" =? 0) with true. cbn [andb].
  rewrite !bind_assoc.
  rewrite (bind_run _ _ _ _ _ (clear_all_spec (S fuel) s1 t1 (inv_wf _ _ Hinv1) Hheap1 ltac:(lia))).
  unfold save_to_file. destruct (writable d); reflexivity.
Qed.

Lemma X19_witness :
  main stable_sort_by_timestamp 300 ["splayTree"; "clear"] 0 demo_disk =
    Some (mkOutcome 0 (output_success "All chats cleared")
            (if writable demo_disk then mkDisk (Some (file_text [])) true else demo_disk) ∅) ∧
  load_from_file 300 (mkDisk (Some (file_text [])) true) create_splay_tree
    = Some (tt, create_splay_tree).
Proof.
  apply (X19_main_clear stable_sort_by_timestamp 300 ["splayTree"; "clear"] 0 demo_disk).
  - intros text [= <-]. vm_compute. reflexivity.
  - vm_compute. lia.
  - vm_compute. lia.
  - reflexivity.
Defined.

(** X20. [add] reports the chat as it is stored: whatever the history
    file, a run of [main] with the command [add], an id and a title (and the
    timestamp given or, without one, the time) exits with 0 and prints the
    record of a node that holds the first 63 characters of the id, the first
    255 characters of the title and the timestamp. *)
Theorem X20_main_add_prints_stored qsort fuel argv now d ts :
  file_fits d → (file_size d + 2 < fuel)%nat →
  arg argv 1 = "add"%string → (4 ≤ length argv)%nat →
  (if (5 <=? length argv)%nat then atol (arg argv 4) else Some now) = Some ts →
  ∃ n d', data_of n = stored (arg argv 2) (arg argv 3) ts ∧
          main qsort fuel argv now d = Some (mkOutcome 0 (found_text n) d' ∅).
Proof.
  intros Hfit Hfuel Hcmd Hargs Hts.
  destruct (main_loaded qsort fuel argv now d Hfit Hfuel ltac:(lia))
    as (s1 & t1 & Hinv1 & Hheap1 & Hlen1 & Hb1 & _ & _ & ->).
  pose proof (inv_size _ _ Hinv1) as Hsz1.
  unfold run_command. rewrite Hcmd, Hts.
  change (strcmp "add" "add" =? 0) with true.
  destruct (Nat.leb_spec 4 (length argv)); [|lia]. cbn [andb].
  destruct (heap_exact_insert fuel (arg argv 2) (arg argv 3) ts s1 t1 Hinv1 Hheap1
              ltac:(unfold INT_MAX; lia) ltac:(lia))
    as (x & s2 & t2 & Hrun & Hwf2 & Hheap2 & _ & _ & _ & Hlen2 & n & Hn & Hdata).
  exists n. rewrite !bind_assoc. rewrite (bind_run _ _ _ _ _ Hrun). cbn beta.
  destruct (save_to_file_spec fuel d s2 t2 Hwf2 ltac:(lia)) as (d2 & Hsave & _).
  rewrite !bind_assoc. rewrite (bind_run _ _ _ _ _ Hsave). cbn beta.
  rewrite !bind_assoc. rewrite (bind_run _ _ _ _ _ (output_chat_found s2 x n Hn)). cbn beta.
  exec. rewrite (bind_run _ _ _ _ _ (clear_all_spec fuel s2 t2 Hwf2 Hheap2 ltac:(lia))).
  by exists d2.
Qed.

Lemma X20_witness :
  ∃ n d', data_of n = stored "d" "Notes" 300 ∧
          main stable_sort_by_timestamp 300 ["splayTree"; "add"; "d"; "Notes"; "300"] 0 demo_disk
          = Some (mkOutcome 0 (found_text n) d' ∅).
Proof.
  apply (X20_main_add_prints_stored stable_sort_by_timestamp 300
           ["splayTree"; "add"; "d"; "Notes"; "300"] 0 demo_disk 300).
  - intros text [= <-]. vm_compute. reflexivity.
  - vm_compute. lia.
  - reflexivity.
  - vm_compute. lia.
  - vm_compute. reflexivity.
Defined.

(** X21. A chat added in one run is found in the next: starting without
    a history file, [add id title] (at the time [ts]) prints the record
    stored and writes the file; a second run with [access id] on that file
    prints the same record, the carriage returns of the title dropped.  The id
    has at most 63 characters, and what is stored is [readable]. *)
Theorem X21_add_then_access qsort fuel prog1 prog2 id title ts now2 d :
  history d = None → writable d = true →
  (String.length id < MAX_ID_LEN)%nat →
  readable (stored id title ts) →
  (2 < fuel)%nat →
  ∃ n1 d1 n2 d2,
    main qsort fuel [prog1; "add"; id; title] ts d = Some (mkOutcome 0 (found_text n1) d1 ∅) ∧
    data_of n1 = stored id title ts ∧
    main qsort fuel [prog2; "access"; id] now2 d1 = Some (mkOutcome 0 (found_text n2) d2 ∅) ∧
    data_of n2 = reloaded (stored id title ts).
Proof.
  intros Hnone Hw Hshort Hread Hfuel.
  assert (d_id (stored id title ts) = id) as Hid.
  { cbn. apply strncpy_short. unfold MAX_ID_LEN in *. lia. }
  (* the first run *)
  unfold main at 1. cbn [length Nat.ltb Nat.leb]. unfold load_from_file at 1. rewrite Hnone.
  rewrite bind_ret. unfold run_command at 1. cbn [arg nth length Nat.leb].
  change (strcmp "add" "add" =? 0) with true. cbn [andb].
  destruct (insert_chat_heap fuel id title ts create_splay_tree Leaf tree_inv_empty
              heap_exact_empty eq_refl ltac:(cbn; lia))
    as (x & s1 & l & r & e1 & e2 & Hrun1 & Hwf1 & Hent1 & _ & Habs & Hinv1 & Hheap1).
  specialize (Hinv1 Hshort). set (t1 := Node l x (stored id title ts) r) in *.
  destruct (Habs ltac:(apply not_elem_of_nil)) as (He & _ & _).
  symmetry in He. apply app_eq_nil in He as [-> ->]. cbn [app] in Hent1.
  destruct (save_load_spec fuel s1 t1 d Hinv1) as
    (d1 & s2 & t2 & Hsave & Hload & Hinv2 & Hheap2 & Hent2 & _); [|done| |].
  { rewrite Hent1. apply Forall_cons. split; [exact Hread|apply Forall_nil_2]. }
  { rewrite Hent1. cbn [length]. lia. }
  destruct Hwf1 as (Hroot1 & (n1 & Hn1 & Hd1 & Hrest1) & Hnd1).
  assert (wf_state s1 t1) as Hwf1 by (split; [done|split; [by exists n1|done]]).
  rewrite !bind_assoc. rewrite (bind_run _ _ _ _ _ Hrun1). cbn beta.
  rewrite !bind_assoc. rewrite (bind_run _ _ _ _ _ Hsave). cbn beta.
  rewrite !bind_assoc. rewrite (bind_run _ _ _ _ _ (output_chat_found s1 x n1 Hn1)). cbn beta.
  exec. rewrite (bind_run _ _ _ _ _ (clear_all_spec fuel s1 t1 Hwf1 Hheap1
                                      ltac:(rewrite Hent1; cbn [length]; lia))).
  exists n1, d1.
  (* the second run *)
  rewrite Hent1 in Hent2. cbn [take map snd MAX_CHATS firstn] in Hent2.
  assert (length (entries t2) = 1%nat) as Hlen2.
  { by rewrite <- (length_map snd), Hent2. }
  unfold main. cbn [length Nat.ltb Nat.leb].
  rewrite (bind_run _ _ _ _ _ Hload).
  unfold run_command. cbn [arg nth length Nat.leb].
  change (strcmp "access" "add" =? 0) with false.
  change (strcmp "access" "access" =? 0) with true. cbn [andb].
  destruct (heap_exact_access fuel id s2 t2 Hinv2 Hheap2 ltac:(lia))
    as (node & s3 & t3 & Hrun3 & Hinv3 & Hheap3 & Hent3 & Hfound & Hnode).
  destruct node as [y|].
  2:{ exfalso. apply (proj1 Hfound eq_refl). unfold keys.
      rewrite <- (map_map snd d_id), Hent2. cbn [map reloaded d_id]. rewrite Hid. mem_tac. }
  destruct (Hnode y eq_refl) as (_ & n2 & Hn2 & _ & Hin2).
  assert (data_of n2 = reloaded (stored id title ts)) as Hdata2.
  { apply (list_elem_of_fmap_2 snd) in Hin2. cbn [snd] in Hin2.
    change (snd <$> entries t2) with (map snd (entries t2)) in Hin2. rewrite Hent2 in Hin2.
    by apply list_elem_of_singleton in Hin2. }
  destruct (save_to_file_spec fuel d1 s3 t3 (inv_wf _ _ Hinv3) ltac:(rewrite Hent3; lia))
    as (d2 & Hsave3 & _).
  exists n2, d2. split; [reflexivity|]. split; [exact Hd1|]. split; [|exact Hdata2].
  rewrite !bind_assoc. rewrite (bind_run _ _ _ _ _ Hrun3). cbn beta.
  rewrite !bind_assoc. rewrite (bind_run _ _ _ _ _ Hsave3). cbn beta.
  rewrite !bind_assoc. rewrite (bind_run _ _ _ _ _ (output_chat_found s3 y n2 Hn2)). cbn beta.
  exec. rewrite (bind_run _ _ _ _ _ (clear_all_spec fuel s3 t3 (inv_wf _ _ Hinv3) Hheap3
                                      ltac:(rewrite Hent3; lia))).
  reflexivity.
Qed.

Lemma X21_witness :
  ∃ n1 d1 n2 d2,
    main stable_sort_by_timestamp 3 ["splayTree"; "add"; "d"; "Notes"] 300 (mkDisk None true)
    = Some (mkOutcome 0 (found_text n1) d1 ∅) ∧
    data_of n1 = stored "d" "Notes" 300 ∧
    main stable_sort_by_timestamp 3 ["splayTree"; "access"; "d"] 0 d1
    = Some (mkOutcome 0 (found_text n2) d2 ∅) ∧
    data_of n2 = reloaded (stored "d" "Notes" 300).
Proof.
  apply (X21_add_then_access stable_sort_by_timestamp 3 "splayTree" "splayTree" "d" "Notes" 300 0
           (mkDisk None true)).
  - reflexivity.
  - reflexivity.
  - vm_compute. lia.
  - unfold readable, LONG_MIN, LONG_MAX. cbn [stored d_ts d_id d_title].
    repeat split; try lia; vm_compute; repeat split; discriminate.
  - lia.
Defined.
